(** * The podcast pipeline: transcribe, tag, analyse

    A shallow embedding of [pipeline.py], and of the two scripts that
    download the episodes it works on.  Python values are modelled as the
    code uses them:

    - [str] as [string]; the model is exact on ASCII text (a character above
      127 is carried along unchanged by [lower] and is never whitespace);
    - a JSON document as the tree [json], a Python [dict] as an association
      list in insertion order (the order [dict.items()] yields);
    - the file system, the bucket and the progress file as an explicit
      [World] threaded through every operation, with the remote services as
      oracles that see a clock;
    - an exception as the [Raised] outcome, which keeps the world reached
      when it was thrown, and a loop that never exits as [Hangs].

    What the model takes for granted: a file is a regular file, named by the
    directory, stem and suffix of its path; a file written by [json.dump] is
    read back by [json.load] as the same document; [ffmpeg] leaves the FLAC
    file behind exactly when it returns zero; [print] and [time.sleep] are
    left out, since nothing here depends on them. *)

From Stdlib Require Import String Ascii List Bool Arith ZArith Lia.
From Stdlib Require Import Permutation Sorted DecimalString.
Import ListNotations.
Local Open Scope string_scope.
Local Open Scope list_scope.

(** ** Python string operations *)

Module Str.

Definition nl : string := String (ascii_of_nat 10) "".
Definition dq : string := String (ascii_of_nat 34) "".

(** [str.isspace] on one ASCII character: TAB, LF, VT, FF, CR, the four
    separators FS GS RS US and the blank. *)
Definition is_space (c : ascii) : bool :=
  let n := nat_of_ascii c in
  ((9 <=? n)%nat && (n <=? 13)%nat) || ((28 <=? n)%nat && (n <=? 32)%nat).

Fixpoint lstrip (s : string) : string :=
  match s with
  | String c r => if is_space c then lstrip r else s
  | EmptyString => EmptyString
  end.

Definition is_empty (s : string) : bool :=
  match s with EmptyString => true | _ => false end.

Fixpoint rstrip (s : string) : string :=
  match s with
  | String c r =>
      let r' := rstrip r in
      if is_space c && is_empty r' then EmptyString else String c r'
  | EmptyString => EmptyString
  end.

(** [s.strip()] *)
Definition strip (s : string) : string := rstrip (lstrip s).

(** [s.startswith(p)] *)
Fixpoint startswith (p s : string) : bool :=
  match p with
  | EmptyString => true
  | String a p' =>
      match s with
      | String b s' => Ascii.eqb a b && startswith p' s'
      | EmptyString => false
      end
  end.

(** [s.split(sep)] for a one-character separator: never empty. *)
Fixpoint split (sep : ascii) (s : string) : list string :=
  match s with
  | EmptyString => [EmptyString]
  | String c r =>
      if Ascii.eqb c sep then EmptyString :: split sep r
      else match split sep r with
           | h :: t => String c h :: t
           | [] => [String c EmptyString]
           end
  end.

Definition newline : ascii := ascii_of_nat 10.

(** [sep.join(l)] *)
Definition join (sep : string) (l : list string) : string := String.concat sep l.

(** [l[1:-1]] *)
Definition slice_1_m1 {A : Type} (l : list A) : list A := removelast (tl l).

(** [s[:n]] *)
Fixpoint take (n : nat) (s : string) : string :=
  match n, s with
  | S k, String c r => String c (take k r)
  | _, _ => EmptyString
  end.

Definition lower_char (c : ascii) : ascii :=
  let n := nat_of_ascii c in
  if (65 <=? n)%nat && (n <=? 90)%nat then ascii_of_nat (n + 32) else c.

(** [s.lower()] *)
Fixpoint lower (s : string) : string :=
  match s with
  | String c r => String (lower_char c) (lower r)
  | EmptyString => EmptyString
  end.

(** [needle in hay] *)
Fixpoint contains (needle hay : string) : bool :=
  startswith needle hay
  || match hay with
     | String _ r => contains needle r
     | EmptyString => false
     end.

(** [s.split()]: the maximal runs of non-whitespace characters. *)
Fixpoint words_aux (cur : string) (s : string) : list string :=
  match s with
  | EmptyString => if is_empty cur then [] else [cur]
  | String c r =>
      if is_space c
      then (if is_empty cur then words_aux EmptyString r
            else cur :: words_aux EmptyString r)
      else words_aux (cur ++ String c EmptyString)%string r
  end.

Definition words (s : string) : list string := words_aux EmptyString s.

Fixpoint all_space (s : string) : bool :=
  match s with
  | String c r => is_space c && all_space r
  | EmptyString => true
  end.

Definition no_newline (s : string) : Prop := split newline s = [s].

Fixpoint last_char (s : string) : option ascii :=
  match s with
  | EmptyString => None
  | String c r => match last_char r with Some a => Some a | None => Some c end
  end.

(** A text that ends with a character that is not white. *)
Definition last_solid (s : string) : bool :=
  match last_char s with
  | Some a => negb (is_space a)
  | None => false
  end.

End Str.

(** ** Python dictionaries

    A [dict] keeps its keys in insertion order, and assigning to a key that
    is present keeps the key where it is. *)

Module Dict.

Section WithValue.
Context {V : Type}.

Definition t := list (string * V).

Fixpoint get (k : string) (d : t) : option V :=
  match d with
  | (k', v) :: r => if String.eqb k k' then Some v else get k r
  | [] => None
  end.

(** [k in d] *)
Definition mem (k : string) (d : t) : bool :=
  match get k d with Some _ => true | None => false end.

(** [d[k] = v] *)
Fixpoint set (k : string) (v : V) (d : t) : t :=
  match d with
  | (k', v') :: r =>
      if String.eqb k k' then (k', v) :: r else (k', v') :: set k v r
  | [] => [(k, v)]
  end.

(** [list(d)]: the keys, in insertion order *)
Definition keys (d : t) : list string := map fst d.

End WithValue.

Arguments t : clear implicits.

End Dict.

(** ** JSON documents and [json.loads] *)

Module Json.

#[warnings="-register-all"]
Inductive json : Type :=
| JNull
| JBool (b : bool)
| JInt (z : Z)
| JFloat (lexeme : string)
| JStr (s : string)
| JArr (items : list json)
| JObj (members : Dict.t json).

Definition is_ws (c : ascii) : bool :=
  let n := nat_of_ascii c in
  (n =? 32)%nat || (n =? 9)%nat || (n =? 10)%nat || (n =? 13)%nat.

Fixpoint skip_ws (s : string) : string :=
  match s with
  | String c r => if is_ws c then skip_ws r else s
  | EmptyString => EmptyString
  end.

Definition is_digit (c : ascii) : bool :=
  let n := nat_of_ascii c in (48 <=? n)%nat && (n <=? 57)%nat.

Definition hex_value (c : ascii) : option nat :=
  let n := nat_of_ascii c in
  if (48 <=? n)%nat && (n <=? 57)%nat then Some (n - 48)
  else if (65 <=? n)%nat && (n <=? 70)%nat then Some (n - 55)
  else if (97 <=? n)%nat && (n <=? 102)%nat then Some (n - 87)
  else None.

Definition chr (n : nat) : string := String (ascii_of_nat n) EmptyString.

(** The UTF-8 bytes of one code unit of a [\uXXXX] escape. *)
Definition utf8 (n : nat) : string :=
  if (n <? 128)%nat then chr n
  else if (n <? 2048)%nat then (chr (192 + n / 64) ++ chr (128 + n mod 64))%string
  else (chr (224 + n / 4096) ++ chr (128 + (n / 64) mod 64)
        ++ chr (128 + n mod 64))%string.

Definition hex4 (a b c d : ascii) : option nat :=
  match hex_value a, hex_value b, hex_value c, hex_value d with
  | Some x, Some y, Some z, Some w => Some (((x * 16 + y) * 16 + z) * 16 + w)
  | _, _, _, _ => None
  end.

Definition escape (c : ascii) : option string :=
  let n := nat_of_ascii c in
  if (n =? 34)%nat then Some (chr 34)
  else if (n =? 92)%nat then Some (chr 92)
  else if (n =? 47)%nat then Some (chr 47)
  else if (n =? 98)%nat then Some (chr 8)
  else if (n =? 102)%nat then Some (chr 12)
  else if (n =? 110)%nat then Some (chr 10)
  else if (n =? 114)%nat then Some (chr 13)
  else if (n =? 116)%nat then Some (chr 9)
  else None.

(** The characters of a string literal, after its opening quote. *)
Fixpoint scan_string (s : string) : option (string * string) :=
  match s with
  | EmptyString => None
  | String c r =>
      let n := nat_of_ascii c in
      if (n =? 34)%nat then Some (EmptyString, r)
      else if (n =? 92)%nat then
        match r with
        | String e r1 =>
            if (nat_of_ascii e =? 117)%nat then
              match r1 with
              | String h1 (String h2 (String h3 (String h4 r2))) =>
                  match hex4 h1 h2 h3 h4, scan_string r2 with
                  | Some u, Some (t, rest) => Some ((utf8 u ++ t)%string, rest)
                  | _, _ => None
                  end
              | _ => None
              end
            else
              match escape e, scan_string r1 with
              | Some x, Some (t, rest) => Some ((x ++ t)%string, rest)
              | _, _ => None
              end
        | EmptyString => None
        end
      else if (n <? 32)%nat then None
      else
        match scan_string r with
        | Some (t, rest) => Some (String c t, rest)
        | None => None
        end
  end.

Fixpoint span_digits (s : string) : string * string :=
  match s with
  | String c r =>
      if is_digit c then let (d, rest) := span_digits r in (String c d, rest)
      else (EmptyString, s)
  | EmptyString => (EmptyString, EmptyString)
  end.

Fixpoint digits_value (acc : Z) (s : string) : Z :=
  match s with
  | String c r => digits_value (10 * acc + Z.of_nat (nat_of_ascii c - 48)) r
  | EmptyString => acc
  end.

Fixpoint drop (n : nat) (s : string) : string :=
  match n, s with
  | S k, String _ r => drop k r
  | _, _ => s
  end.

(** The fraction, a dot and at least one digit, when it is there. *)
Definition scan_frac (s : string) : string * string :=
  match s with
  | String c r =>
      if (nat_of_ascii c =? 46)%nat then
        match span_digits r with
        | (EmptyString, _) => (EmptyString, s)
        | (d, rest) => (String c d, rest)
        end
      else (EmptyString, s)
  | EmptyString => (EmptyString, s)
  end.

(** The exponent, [e] or [E], an optional sign and at least one digit, when
    it is there. *)
Definition scan_exp (s : string) : string * string :=
  match s with
  | String c r =>
      if (nat_of_ascii c =? 101)%nat || (nat_of_ascii c =? 69)%nat then
        let (sign, r1) :=
          match r with
          | String g r' =>
              if (nat_of_ascii g =? 43)%nat || (nat_of_ascii g =? 45)%nat
              then (String g EmptyString, r') else (EmptyString, r)
          | EmptyString => (EmptyString, r)
          end in
        match span_digits r1 with
        | (EmptyString, _) => (EmptyString, s)
        | (d, rest) => (String c (sign ++ d), rest)
        end
      else (EmptyString, s)
  | EmptyString => (EmptyString, s)
  end.

(** The digits of a number, after its sign: an integer part without a
    leading zero, then an optional fraction and an optional exponent. *)
Definition scan_unsigned (neg : bool) (s : string) : option (json * string) :=
  match s with
  | String c r =>
      if is_digit c then
        let (ip, r1) :=
          if (nat_of_ascii c =? 48)%nat then (String c EmptyString, r)
          else span_digits s in
        let (fp, r2) := scan_frac r1 in
        let (ep, r3) := scan_exp r2 in
        if Str.is_empty fp && Str.is_empty ep then
          let v := digits_value 0 ip in
          Some (JInt (if neg then (- v)%Z else v), r3)
        else
          Some (JFloat ((if neg then "-" else "") ++ ip ++ fp ++ ep), r3)
      else None
  | EmptyString => None
  end.

(** A number: an optional minus, then its digits. *)
Definition scan_number (s : string) : option (json * string) :=
  match s with
  | String c r =>
      if (nat_of_ascii c =? 45)%nat then scan_unsigned true r
      else scan_unsigned false s
  | EmptyString => None
  end.

Definition literals : list (string * json) :=
  [ ("null", JNull); ("true", JBool true); ("false", JBool false);
    ("NaN", JFloat "NaN"); ("Infinity", JFloat "Infinity");
    ("-Infinity", JFloat "-Infinity") ].

Fixpoint scan_literal (ls : list (string * json)) (s : string)
  : option (json * string) :=
  match ls with
  | (w, v) :: r =>
      if Str.startswith w s then Some (v, drop (String.length w) s)
      else scan_literal r s
  | [] => None
  end.

Definition scan_atom (s : string) : option (json * string) :=
  match scan_literal literals s with
  | Some r => Some r
  | None => scan_number s
  end.

Definition is_char (n : nat) (c : ascii) : bool := (nat_of_ascii c =? n)%nat.

(** The recursive descent of the decoder; [fuel] bounds the nesting and the
    number of members, and the length of the text is always enough
    ([DecoderFacts.fuel_is_enough]).  A [\u] escape is kept as the UTF-8
    bytes of its code unit. *)
Fixpoint parse_value (fuel : nat) (s : string) : option (json * string) :=
  match fuel with
  | O => None
  | S f =>
      match s with
      | EmptyString => None
      | String c r =>
          if is_char 123 c then
            match skip_ws r with
            | String c2 r2 =>
                if is_char 125 c2 then Some (JObj [], r2)
                else parse_members f (skip_ws r) []
            | EmptyString => None
            end
          else if is_char 91 c then
            match skip_ws r with
            | String c2 r2 =>
                if is_char 93 c2 then Some (JArr [], r2)
                else parse_items f (skip_ws r) []
            | EmptyString => None
            end
          else if is_char 34 c then
            match scan_string r with
            | Some (t, rest) => Some (JStr t, rest)
            | None => None
            end
          else scan_atom s
      end
  end

with parse_items (fuel : nat) (s : string) (acc : list json)
  : option (json * string) :=
  match fuel with
  | O => None
  | S f =>
      match parse_value f s with
      | Some (v, r) =>
          match skip_ws r with
          | String c r2 =>
              if is_char 44 c then parse_items f (skip_ws r2) (acc ++ [v])
              else if is_char 93 c then Some (JArr (acc ++ [v]), r2)
              else None
          | EmptyString => None
          end
      | None => None
      end
  end

with parse_members (fuel : nat) (s : string) (acc : Dict.t json)
  : option (json * string) :=
  match fuel with
  | O => None
  | S f =>
      match s with
      | String q r =>
          if is_char 34 q then
            match scan_string r with
            | Some (k, r1) =>
                match skip_ws r1 with
                | String c1 r2 =>
                    if is_char 58 c1 then
                      match parse_value f (skip_ws r2) with
                      | Some (v, r3) =>
                          match skip_ws r3 with
                          | String c3 r4 =>
                              if is_char 44 c3
                              then parse_members f (skip_ws r4) (Dict.set k v acc)
                              else if is_char 125 c3
                              then Some (JObj (Dict.set k v acc), r4)
                              else None
                          | EmptyString => None
                          end
                      | None => None
                      end
                    else None
                | EmptyString => None
                end
            | None => None
            end
          else None
      | EmptyString => None
      end
  end.

Fixpoint all_ws (s : string) : bool :=
  match s with
  | String c r => is_ws c && all_ws r
  | EmptyString => true
  end.

(** A text without white space in it. *)
Fixpoint solid (s : string) : bool :=
  match s with
  | String c r => negb (is_ws c) && solid r
  | EmptyString => true
  end.

(** [t] is what is left of [s] behind some prefix. *)
Definition behind (t s : string) : Prop := exists x, s = (x ++ t)%string.

(** [rest] is what is left of [s] behind a prefix that ends with a
    character that is not white. *)
Definition consumes (s rest : string) : Prop :=
  exists c, s = (c ++ rest)%string /\ Str.last_solid c = true.

(** [s] splits into [x] and [rest], and [x], if it is not empty, ends with a
    character that is not white. *)
Definition takes (s x rest : string) : Prop :=
  s = (x ++ rest)%string /\ (x = EmptyString \/ Str.last_solid x = true).

(** A result of a scanner, with [w] put back behind what it left. *)
Definition shift {A : Type} (w : string) (o : option (A * string))
  : option (A * string) :=
  match o with
  | Some (a, rest) => Some (a, (rest ++ w)%string)
  | None => None
  end.

(** [json.loads(s)]: [None] stands for [JSONDecodeError]. *)
Definition loads (s : string) : option json :=
  match parse_value (S (String.length s)) (skip_ws s) with
  | Some (v, rest) => if Str.is_empty (skip_ws rest) then Some v else None
  | None => None
  end.

End Json.

Import Json.

(** ** Paths

    A [pathlib.Path] as its directory, the stem of its last component and
    that component's suffix. *)

Module Path.

Record t : Type := mk { parent : string; stem : string; suffix : string }.

(** [p.name] *)
Definition name (p : t) : string := (stem p ++ suffix p)%string.

(** [p.with_suffix(suf)] *)
Definition with_suffix (suf : string) (p : t) : t :=
  {| parent := parent p; stem := stem p; suffix := suf |}.

(** [dir / f"{base}{suf}"] *)
Definition child (dir base suf : string) : t :=
  {| parent := dir; stem := base; suffix := suf |}.

Definition eqb (p q : t) : bool :=
  String.eqb (parent p) (parent q) && String.eqb (stem p) (stem q)
  && String.eqb (suffix p) (suffix q).

(** The text before and after the last [c] of a string. *)
Fixpoint rsplit (c : ascii) (s : string) : option (string * string) :=
  match s with
  | EmptyString => None
  | String a r =>
      match rsplit c r with
      | Some (x, y) => Some (String a x, y)
      | None => if Ascii.eqb a c then Some (EmptyString, r) else None
      end
  end.

(** Stem and suffix of a file name: the suffix starts at the last dot, unless
    that dot opens or closes the name. *)
Definition split_name (n : string) : string * string :=
  match rsplit "."%char n with
  | Some (x, y) =>
      if Str.is_empty x || Str.is_empty y then (n, EmptyString)
      else (x, String "."%char y)
  | None => (n, EmptyString)
  end.

(** [Path(s)] *)
Definition of_string (s : string) : t :=
  match rsplit "/"%char s with
  | Some (d, n) =>
      let (st, su) := split_name n in {| parent := d; stem := st; suffix := su |}
  | None =>
      let (st, su) := split_name s in
      {| parent := EmptyString; stem := st; suffix := su |}
  end.

End Path.

(** ** The annotation stage: what [tag_episode] does with a response *)

Section Annotation.

(** [json.loads], with [None] for [JSONDecodeError]. *)
Variable json_loads : string -> option json.

Definition fence : string := "```".

(** Lines 174 to 178: the text handed to the decoder. *)
Definition response_text (raw : string) : string :=
  let text := Str.strip raw in
  if Str.startswith fence text
  then Str.join Str.nl (Str.slice_1_m1 (Str.split Str.newline text))
  else text.

(** Line 183: the record kept when the decoder refuses the text. *)
Definition error_variant (text : string) : json :=
  JObj [ ("error", JStr "Failed to parse response");
         ("raw", JStr (Str.take 500 text)) ].

(** Lines 180 to 183 *)
Definition decode_or_error (text : string) : json :=
  match json_loads text with
  | Some data => data
  | None => error_variant text
  end.

(** Lines 173 to 183 of [tag_episode]: from [response.text] to its result. *)
Definition parse_response (raw : string) : json :=
  decode_or_error (response_text raw).

End Annotation.

(** A response that is one fenced block, possibly with white space around
    it: an opening line, the payload, a closing fence. *)
Definition fenced (pre info payload post : string) : string :=
  (pre ++ (fence ++ info ++ Str.nl ++ payload ++ Str.nl ++ fence) ++ post)%string.

(** The prompt of [tag_episode]. *)
Definition build_prompt (transcript title : string) : string :=
  let q := Str.dq in
  Str.join Str.nl
    [ "Analyze this podcast episode transcript and extract:";
      "";
      "1. **Technology Tags** (5-10 specific technologies, frameworks, or tools mentioned)";
      "2. **Business Tags** (3-5 business concepts, strategies, or themes)";
      "3. **Key Topics** (3-5 main discussion topics)";
      "4. **Guest Info** (name, role, company if mentioned)";
      "5. **One-line Summary** (25 words max)";
      "";
      "Episode Title: " ++ title;
      "";
      "Transcript (first 10000 chars):";
      Str.take (100 * 100) transcript;
      "";
      "Respond in valid JSON only (no markdown):";
      "{";
      "    " ++ q ++ "tech_tags" ++ q ++ ": [" ++ q ++ "tag1" ++ q ++ ", "
        ++ q ++ "tag2" ++ q ++ "],";
      "    " ++ q ++ "business_tags" ++ q ++ ": [" ++ q ++ "tag1" ++ q ++ ", "
        ++ q ++ "tag2" ++ q ++ "],";
      "    " ++ q ++ "key_topics" ++ q ++ ": [" ++ q ++ "topic1" ++ q ++ ", "
        ++ q ++ "topic2" ++ q ++ "],";
      "    " ++ q ++ "guest" ++ q ++ ": {" ++ q ++ "name" ++ q ++ ": " ++ q
        ++ "..." ++ q ++ ", " ++ q ++ "role" ++ q ++ ": " ++ q ++ "..." ++ q
        ++ ", " ++ q ++ "company" ++ q ++ ": " ++ q ++ "..." ++ q ++ "},";
      "    " ++ q ++ "summary" ++ q ++ ": " ++ q ++ "..." ++ q;
      "}";
      "" ]%string.

(** ** The world the pipeline runs in *)

(** What a regular file holds: audio, text, or a JSON document written by
    [json.dump].  Directories are not files of the model; the four working
    directories exist once [main] has made them. *)
Inductive content : Type :=
| Audio
| Text (s : string)
| Doc (j : json).

(** [pipeline_progress.json] *)
Record Progress : Type := mkProgress {
  transcribed : list string;
  tagged : list string;
  started_at : string
}.

(** The ["title"] of an entry of the metadata: not there, [null], or a
    text. *)
Inductive Title : Type :=
| NoTitle
| NullTitle
| TitleText (s : string).

(** One entry of [episodes_metadata.json]. *)
Record Episode : Type := mkEpisode {
  ep_title : Title;
  ep_local_file : option string
}.

(** The billable calls a run makes, one constructor per stage executor. *)
Inductive Call : Type :=
| Convert (src : Path.t)
| Upload (blob : string)
| Transcribe (uri : string)
| Annotate (prompt : string).

Record World : Type := mkWorld {
  fs : list (Path.t * content);      (* files, in directory order *)
  bucket : list string;              (* names of the blobs of the bucket *)
  ledger : option Progress;          (* the progress file, when it exists *)
  progress : Progress;               (* the [progress] dict of the run *)
  clock : nat;                       (* remote calls made so far *)
  calls : list Call                  (* the stage calls made so far *)
}.

(** What lives on durable storage. *)
Definition durable (w : World) : list (Path.t * content) * list string * option Progress :=
  (fs w, bucket w, ledger w).

(** A long-running recognition: the poll at which [done()] first answers
    [True], if there is one, and what [result()] gives then: the transcripts
    of the alternatives of each result, or an error. *)
Record Operation : Type := mkOperation {
  ready_after : option nat;
  outcome : option (list (list string))
}.

(** The remote services and the transcoder, as oracles on the clock. *)
Record Remote : Type := mkRemote {
  (* [subprocess.run(ffmpeg ...)]: return code zero or not; [None] raises *)
  ffmpeg : nat -> Path.t -> option bool;
  (* whether [blob.exists()] answers *)
  blob_probe : nat -> string -> bool;
  (* whether [blob.upload_from_filename] stores the blob *)
  upload_from_filename : nat -> string -> bool;
  (* [client.long_running_recognize]; [None] raises *)
  long_running_recognize : nat -> string -> option Operation;
  (* [model.generate_content(prompt).text]; [None] raises *)
  generate_content : nat -> string -> option string;
  (* [client.get_bucket] and [client.create_bucket] *)
  get_bucket : nat -> bool;
  create_bucket : nat -> bool;
  (* [datetime.now().isoformat()] *)
  now : nat -> string
}.

(** *** Files *)

Module Fs.

Definition t := list (Path.t * content).

Fixpoint read (p : Path.t) (f : t) : option content :=
  match f with
  | (q, c) :: r => if Path.eqb p q then Some c else read p r
  | [] => None
  end.

(** [p.exists()] *)
Definition exist (p : Path.t) (f : t) : bool :=
  match read p f with Some _ => true | None => false end.

(** Writing a file: in place when it is there, a new entry otherwise. *)
Fixpoint write (p : Path.t) (c : content) (f : t) : t :=
  match f with
  | (q, c') :: r =>
      if Path.eqb p q then (q, c) :: r else (q, c') :: write p c r
  | [] => [(p, c)]
  end.

(** [p.unlink()] *)
Fixpoint unlink (p : Path.t) (f : t) : t :=
  match f with
  | (q, c) :: r => if Path.eqb p q then r else (q, c) :: unlink p r
  | [] => []
  end.

(** [Str.endswith suf s] *)
Fixpoint endswith (suf s : string) : bool :=
  String.eqb s suf
  || match s with
     | String _ r => endswith suf r
     | EmptyString => false
     end.

(** [dir.glob("*" + ext)], in directory order. *)
Definition glob (dir ext : string) (f : t) : list (Path.t * content) :=
  filter (fun e => String.eqb (Path.parent (fst e)) dir
                   && endswith ext (Path.name (fst e))) f.

End Fs.

Definition EPISODES_DIR : string := "episodes".
Definition TRANSCRIPTS_DIR : string := "transcripts".
Definition TAGS_DIR : string := "tags".
Definition ANALYSIS_DIR : string := "analysis".
Definition GCS_BUCKET : string := "mlops-podcast-audio".

(** *** Outcomes and the monad of the pipeline *)

Inductive exn : Type :=
| OSError            (* the transcoder could not be started *)
| NetworkError       (* a remote call failed *)
| IndexError         (* a result without alternatives *)
| DecodeError        (* a file that is not text, or not JSON *)
| TypeError          (* a JSON value of the wrong shape *)
| AttributeError.    (* a method the value does not have *)

Inductive Outcome (A : Type) : Type :=
| Done (a : A) (w : World)
| Raised (e : exn) (w : World)
| Hangs.

Arguments Done {A} a w.
Arguments Raised {A} e w.
Arguments Hangs {A}.

Definition M (A : Type) : Type := World -> Outcome A.

Definition ret {A} (a : A) : M A := fun w => Done a w.

Definition bind {A B} (m : M A) (k : A -> M B) : M B :=
  fun w =>
    match m w with
    | Done a w' => k a w'
    | Raised e w' => Raised e w'
    | Hangs => Hangs
    end.

Definition raise {A} (e : exn) : M A := fun w => Raised e w.

(** [try: m  except Exception: h] *)
Definition try_except {A} (m : M A) (h : exn -> M A) : M A :=
  fun w =>
    match m w with
    | Done a w' => Done a w'
    | Raised e w' => h e w'
    | Hangs => Hangs
    end.

Definition get_world : M World := fun w => Done w w.

Definition modify (f : World -> World) : M unit := fun w => Done tt (f w).

Declare Scope pipeline_scope.
Delimit Scope pipeline_scope with pipeline.
Notation "x <- m ;; k" := (bind m (fun x => k))
  (at level 61, m at next level, right associativity) : pipeline_scope.
Notation "m ;;; k" := (bind m (fun _ => k))
  (at level 61, right associativity) : pipeline_scope.
Local Open Scope pipeline_scope.

Definition set_fs (f : Fs.t) (w : World) : World :=
  mkWorld f (bucket w) (ledger w) (progress w) (clock w) (calls w).
Definition set_bucket (b : list string) (w : World) : World :=
  mkWorld (fs w) b (ledger w) (progress w) (clock w) (calls w).
Definition set_ledger (l : option Progress) (w : World) : World :=
  mkWorld (fs w) (bucket w) l (progress w) (clock w) (calls w).
Definition set_progress (p : Progress) (w : World) : World :=
  mkWorld (fs w) (bucket w) (ledger w) p (clock w) (calls w).

Definition advance (w : World) : World :=
  mkWorld (fs w) (bucket w) (ledger w) (progress w) (S (clock w)) (calls w).
Definition log_call (c : Call) (w : World) : World :=
  mkWorld (fs w) (bucket w) (ledger w) (progress w) (clock w) (calls w ++ [c]).

(** One more remote call: the clock advances. *)
Definition tick : M nat := fun w => Done (clock w) (advance w).

(** A stage executor is invoked. *)
Definition invoke (c : Call) : M unit := modify (log_call c).

Definition path_exists (p : Path.t) : M bool :=
  fun w => Done (Fs.exist p (fs w)) w.

Definition write_file (p : Path.t) (c : content) : M unit :=
  modify (fun w => set_fs (Fs.write p c (fs w)) w).

Definition unlink (p : Path.t) : M unit :=
  modify (fun w => set_fs (Fs.unlink p (fs w)) w).

(** ** The polling loop of [transcribe_from_gcs] *)

(** [operation.done()] at the poll number [i]. *)
Definition op_done (op : Operation) (i : nat) : bool :=
  match ready_after op with
  | Some k => (k <=? i)%nat
  | None => false
  end.

(** Lines 130 to 133, the [while not operation.done()] loop, run for at
    most [fuel] tests of its condition from poll [i] on: the number of
    ten-second sleeps when it exits, [None] when it is still polling. *)
Fixpoint poll (fuel : nat) (op : Operation) (i : nat) : option nat :=
  match fuel with
  | O => None
  | S f => if op_done op i then Some i else poll f op (S i)
  end.

(** The loop run for as long as it takes: the sleeps it made, or [None] when
    no number of iterations ends it. *)
Definition polling_loop (op : Operation) : option nat :=
  match ready_after op with
  | Some k => poll (S k) op 0
  | None => None
  end.

(** Lines 137 to 139: every result contributes its first alternative and a
    newline; a result without alternatives raises. *)
Fixpoint concat_results (results : list (list string)) : option string :=
  match results with
  | [] => Some EmptyString
  | alternatives :: rest =>
      match alternatives, concat_results rest with
      | a :: _, Some t => Some (a ++ Str.nl ++ t)%string
      | _, _ => None
      end
  end.

(** The same loop on the segments themselves. *)
Fixpoint concat_lines (segments : list string) : string :=
  match segments with
  | [] => EmptyString
  | s :: rest => (s ++ Str.nl ++ concat_lines rest)%string
  end.

(** Lines 137 to 141 on the segments. *)
Definition assemble (segments : list string) : string :=
  Str.strip (concat_lines segments).

(** ** Stable sorting, as [sorted(..., key=...)] does it *)

Section Sorted.
Context {A : Type} (key : A -> Z).

Fixpoint insert_by (x : A) (l : list A) : list A :=
  match l with
  | y :: r => if (key x <=? key y)%Z then x :: l else y :: insert_by x r
  | [] => [x]
  end.

(** [sorted(l, key=key)]: ascending in the key, equal keys in the order they
    had in [l]. *)
Fixpoint sorted (l : list A) : list A :=
  match l with
  | x :: r => insert_by x (sorted r)
  | [] => []
  end.

(** Key order first, and a given order [before] among equal keys. *)
Definition ranked (before : A -> A -> Prop) (a b : A) : Prop :=
  (key a < key b)%Z \/ (key a = key b /\ before a b).

End Sorted.

(** ** The pipeline *)

Section Pipeline.

Variable json_loads : string -> option json.
(** [json.dumps(j, indent=2)], what [read_text] sees of a JSON file. *)
Variable json_dumps : json -> string.
Variable R : Remote.

(** Lines 44 to 49 *)
Definition load_progress : M unit :=
  fun w =>
    match ledger w with
    | Some p => Done tt (set_progress p w)
    | None => Done tt (set_progress (mkProgress [] [] (now R (clock w))) w)
    end.

(** Lines 52 to 55 *)
Definition save_progress : M unit :=
  modify (fun w => set_ledger (Some (progress w)) w).

(** Lines 58 to 67 *)
Definition ensure_bucket_exists : M unit :=
  t <- tick ;;
  if get_bucket R t then ret tt
  else
    t' <- tick ;;
    if create_bucket R t' then ret tt else raise NetworkError.

(** Lines 70 to 88: [None] is the [None] of line 87. *)
Definition convert_to_flac (mp3_path : Path.t) : M (option Path.t) :=
  let flac_path := Path.with_suffix ".flac" mp3_path in
  present <- path_exists flac_path ;;
  if present then ret (Some flac_path)
  else
    invoke (Convert mp3_path) ;;;
    t <- tick ;;
    match ffmpeg R t mp3_path with
    | None => raise OSError
    | Some true => write_file flac_path Audio ;;; ret (Some flac_path)
    | Some false => ret None
    end.

Definition gs_uri (blob_name : string) : string :=
  ("gs://" ++ GCS_BUCKET ++ "/" ++ blob_name)%string.

Definition blob_name_of (local_path : Path.t) : string :=
  ("audio/" ++ Path.name local_path)%string.

(** Lines 91 to 108 *)
Definition upload_to_gcs (local_path : Path.t) : M string :=
  let blob_name := blob_name_of local_path in
  t <- tick ;;
  if negb (blob_probe R t blob_name) then raise NetworkError
  else
    w <- get_world ;;
    if existsb (String.eqb blob_name) (bucket w) then ret (gs_uri blob_name)
    else
      invoke (Upload blob_name) ;;;
      t' <- tick ;;
      if upload_from_filename R t' blob_name
      then modify (fun w => set_bucket (bucket w ++ [blob_name]) w) ;;;
           ret (gs_uri blob_name)
      else raise NetworkError.

(** Lines 111 to 141 *)
Definition transcribe_from_gcs (gcs_uri : string) : M string :=
  invoke (Transcribe gcs_uri) ;;;
  t <- tick ;;
  match long_running_recognize R t gcs_uri with
  | None => raise NetworkError
  | Some operation =>
      match polling_loop operation with
      | None => fun _ => Hangs
      | Some _ =>
          match outcome operation with
          | None => raise NetworkError
          | Some results =>
              match concat_results results with
              | None => raise IndexError
              | Some transcript => ret (Str.strip transcript)
              end
          end
      end
  end.

(** Lines 144 to 183 *)
Definition tag_episode (transcript title : string) : M json :=
  let prompt := build_prompt transcript title in
  invoke (Annotate prompt) ;;;
  t <- tick ;;
  match generate_content R t prompt with
  | None => raise NetworkError
  | Some text => ret (parse_response json_loads text)
  end.

(** [p.read_text()] *)
Definition read_text (p : Path.t) : M string :=
  fun w =>
    match Fs.read p (fs w) with
    | Some (Text s) => Done s w
    | Some (Doc j) => Done (json_dumps j) w
    | Some Audio => Raised DecodeError w
    | None => Raised OSError w
    end.

(** [ep.get("title", "Unknown")], as a format string shows it. *)
Definition title_of (ep : Episode) : string :=
  match ep_title ep with
  | TitleText t => t
  | NoTitle => "Unknown"
  | NullTitle => "None"
  end.

(** Lines 189 to 196: the file of the metadata, or else the first MP3 of the
    episodes directory whose name holds one of the first three words of the
    title; a [null] title has no [split], which shows as soon as there is an
    MP3 to compare it with. *)
Definition resolve_local_file (ep : Episode) (f : Fs.t) : exn + option Path.t :=
  match ep_local_file ep with
  | Some (String c r) => inr (Some (Path.of_string (String c r)))
  | _ =>
      let candidates := Fs.glob EPISODES_DIR ".mp3" f in
      match ep_title ep, candidates with
      | NullTitle, _ :: _ => inl AttributeError
      | _, _ =>
          inr (option_map fst
                 (find (fun e =>
                          existsb (fun word =>
                                     Str.contains (Str.lower word)
                                       (Str.lower (Path.name (fst e))))
                                  (firstn 3 (Str.words (title_of ep))))
                       candidates))
      end
  end.

Definition transcript_path (base_name : string) : Path.t :=
  Path.child TRANSCRIPTS_DIR base_name ".txt".

Definition tags_path (base_name : string) : Path.t :=
  Path.child TAGS_DIR base_name ".json".

Definition append_transcribed (b : string) (p : Progress) : Progress :=
  mkProgress (transcribed p ++ [b]) (tagged p) (started_at p).

Definition append_tagged (b : string) (p : Progress) : Progress :=
  mkProgress (transcribed p) (tagged p ++ [b]) (started_at p).

(** Lines 219 to 245, the [try] of step 1: [None] is [return False]. *)
Definition transcribe_step (base_name : string) (flac_path : Path.t)
  : M (option string) :=
  try_except
    (gcs_uri <- upload_to_gcs flac_path ;;
     transcript <- transcribe_from_gcs gcs_uri ;;
     if Str.is_empty transcript then ret None
     else
       write_file (transcript_path base_name) (Text transcript) ;;;
       present <- path_exists flac_path ;;
       (if present then unlink flac_path else ret tt) ;;;
       modify (fun w => set_progress (append_transcribed base_name (progress w)) w) ;;;
       save_progress ;;;
       ret (Some transcript))
    (fun _ =>
       present <- path_exists flac_path ;;
       (if present then unlink flac_path else ret tt) ;;;
       ret None).

(** Lines 247 to 265, step 2 *)
Definition tag_step (base_name transcript title : string) : M unit :=
  present <- path_exists (tags_path base_name) ;;
  if present then ret tt
  else
    try_except
      (tags <- tag_episode transcript title ;;
       write_file (tags_path base_name) (Doc tags) ;;;
       modify (fun w => set_progress (append_tagged base_name (progress w)) w) ;;;
       save_progress)
      (fun _ => ret tt).

(** Lines 205 to 245, step 1: the transcript that is there, or else the one
    made now; [None] is [return False]. *)
Definition first_step (mp3_path : Path.t) (present : bool) : M (option string) :=
  let base_name := Path.stem mp3_path in
  if present
  then t <- read_text (transcript_path base_name) ;; ret (Some t)
  else
    flac <- convert_to_flac mp3_path ;;
    match flac with
    | None => ret None
    | Some flac_path => transcribe_step base_name flac_path
    end.

(** Lines 202 to 267: the two steps, once the audio file is known. *)
Definition process_resolved (ep : Episode) (mp3_path : Path.t) : M bool :=
  let base_name := Path.stem mp3_path in
  present <- path_exists (transcript_path base_name) ;;
  step1 <- first_step mp3_path present ;;
  match step1 with
  | None => ret false
  | Some transcript =>
      tag_step base_name transcript (title_of ep) ;;; ret true
  end.

(** Lines 186 to 267 *)
Definition process_episode (ep : Episode) : M bool :=
  w <- get_world ;;
  match resolve_local_file ep (fs w) with
  | inl e => raise e
  | inr None => ret false
  | inr (Some mp3_path) =>
      if negb (Fs.exist mp3_path (fs w)) then ret false
      else process_resolved ep mp3_path
  end.

(** Lines 359 to 372: the loop of [main] over the episodes.  The title is
    cut to sixty characters before the [try], so a [null] title raises out of
    the loop. *)
Fixpoint process_all (episodes : list Episode) : M unit :=
  match episodes with
  | [] => ret tt
  | ep :: rest =>
      match ep_title ep with
      | NullTitle => raise TypeError
      | _ =>
          try_except (process_episode ep ;;; ret tt) (fun _ => ret tt) ;;;
          process_all rest
      end
  end.

End Pipeline.

(** ** The aggregator *)

Module Agg.

(** One entry of [episodes_summary]. *)
Record Summary : Type := mkSummary {
  sm_file : string;
  sm_summary : json;
  sm_guest : json;
  sm_tech_tags : json
}.

(** The four accumulators of [build_analysis_index]. *)
Record Counters : Type := mkCounters {
  all_tech_tags : Dict.t Z;
  all_business_tags : Dict.t Z;
  all_topics : Dict.t Z;
  episodes_summary : list Summary
}.

Definition empty : Counters := mkCounters [] [] [] [].

(** The [analysis] dictionary. *)
Record Analysis : Type := mkAnalysis {
  generated_at : string;
  episodes_analyzed : Z;
  top_tech_themes : list (string * Z);
  top_business_themes : list (string * Z);
  top_topics : list (string * Z);
  episodes : list Summary
}.

Definition is_error_str (j : json) : bool :=
  match j with JStr s => String.eqb s "error" | _ => false end.

(** ["error" in data] *)
Definition has_error (data : json) : exn + bool :=
  match data with
  | JObj d => inr (Dict.mem "error" d)
  | JArr l => inr (existsb is_error_str l)
  | JStr s => inr (Str.contains "error" s)
  | _ => inl TypeError
  end.

(** [data.get(key, default)] *)
Definition get_or (key : string) (default : json) (data : json) : exn + json :=
  match data with
  | JObj d => inr (match Dict.get key d with Some v => v | None => default end)
  | _ => inl AttributeError
  end.

Fixpoint chars (s : string) : list json :=
  match s with
  | String c r => JStr (String c EmptyString) :: chars r
  | EmptyString => []
  end.

(** What [for tag in v] runs over. *)
Definition iterate (v : json) : exn + list json :=
  match v with
  | JArr l => inr l
  | JStr s => inr (chars s)
  | JObj d => inr (map JStr (Dict.keys d))
  | _ => inl TypeError
  end.

(** [d[k] = d.get(k, 0) + 1] *)
Definition bump (k : string) (d : Dict.t Z) : Dict.t Z :=
  Dict.set k (match Dict.get k d with Some n => n | None => 0%Z end + 1)%Z d.

(** One of the three counting loops, lines 287 to 299. *)
Fixpoint count_tags (tags : list json) (d : Dict.t Z) : exn + Dict.t Z :=
  match tags with
  | [] => inr d
  | JStr tag :: rest => count_tags rest (bump (Str.lower tag) d)
  | _ :: _ => inl AttributeError
  end.

Definition count_field (key : string) (data : json) (d : Dict.t Z)
  : exn + Dict.t Z :=
  match get_or key (JArr []) data with
  | inl e => inl e
  | inr v =>
      match iterate v with
      | inl e => inl e
      | inr tags => count_tags tags d
      end
  end.

(** The body of the loop over the tag files, lines 283 to 306, on the
    document [data] loaded from the file of stem [file]. *)
Definition visit (acc : Counters) (file : string) (data : json) : exn + Counters :=
  match has_error data with
  | inl e => inl e
  | inr true => inr acc
  | inr false =>
      match count_field "tech_tags" data (all_tech_tags acc) with
      | inl e => inl e
      | inr tech =>
          match count_field "business_tags" data (all_business_tags acc) with
          | inl e => inl e
          | inr business =>
              match count_field "key_topics" data (all_topics acc) with
              | inl e => inl e
              | inr topics =>
                  match get_or "summary" (JStr "") data,
                        get_or "guest" (JObj []) data,
                        get_or "tech_tags" (JArr []) data with
                  | inr s, inr g, inr t =>
                      inr (mkCounters tech business topics
                             (episodes_summary acc ++ [mkSummary file s g t]))
                  | _, _, _ => inl AttributeError
                  end
              end
          end
      end
  end.

(** Lines 279 to 306 over the loaded files, in scan order. *)
Fixpoint scan (files : list (string * json)) (acc : Counters) : exn + Counters :=
  match files with
  | [] => inr acc
  | (file, data) :: rest =>
      match visit acc file data with
      | inl e => inl e
      | inr acc' => scan rest acc'
      end
  end.

(** [sorted(d.items(), key=lambda x: -x[1])] *)
Definition rank (d : Dict.t Z) : list (string * Z) :=
  sorted (fun x => (- snd x)%Z) d.

(** Lines 309 to 320 *)
Definition summarise (stamp : string) (acc : Counters) : Analysis :=
  mkAnalysis stamp
    (Z.of_nat (List.length (episodes_summary acc)))
    (firstn 25 (rank (all_tech_tags acc)))
    (firstn 20 (rank (all_business_tags acc)))
    (firstn 20 (rank (all_topics acc)))
    (episodes_summary acc).

(** The aggregator on the annotation artifacts it scans. *)
Definition aggregate (stamp : string) (files : list (string * json))
  : exn + Analysis :=
  match scan files empty with
  | inl e => inl e
  | inr acc => inr (summarise stamp acc)
  end.

Definition pair_json (p : string * Z) : json := JArr [JStr (fst p); JInt (snd p)].

Definition summary_json (s : Summary) : json :=
  JObj [ ("file", JStr (sm_file s)); ("summary", sm_summary s);
         ("guest", sm_guest s); ("tech_tags", sm_tech_tags s) ].

(** What [json.dump(analysis, f)] writes. *)
Definition analysis_json (a : Analysis) : json :=
  JObj [ ("generated_at", JStr (generated_at a));
         ("episodes_analyzed", JInt (episodes_analyzed a));
         ("top_tech_themes", JArr (map pair_json (top_tech_themes a)));
         ("top_business_themes", JArr (map pair_json (top_business_themes a)));
         ("top_topics", JArr (map pair_json (top_topics a)));
         ("episodes", JArr (map summary_json (episodes a))) ].

End Agg.

Section Main.

Variable json_loads : string -> option json.
Variable json_dumps : json -> string.
Variable R : Remote.

(** [json.load(f)] on a file of the tags directory. *)
Definition load_json (c : content) : exn + json :=
  match c with
  | Doc j => inr j
  | Text s => match json_loads s with Some j => inr j | None => inl DecodeError end
  | Audio => inl DecodeError
  end.

(** Lines 279 to 306: every file of the scan is loaded, then visited. *)
Fixpoint scan_files (files : list (Path.t * content)) (acc : Agg.Counters)
  : exn + Agg.Counters :=
  match files with
  | [] => inr acc
  | (p, c) :: rest =>
      match load_json c with
      | inl e => inl e
      | inr data =>
          match Agg.visit acc (Path.stem p) data with
          | inl e => inl e
          | inr acc' => scan_files rest acc'
          end
      end
  end.

Definition index_path : Path.t := Path.child ANALYSIS_DIR "index" ".json".

(** Lines 270 to 331 *)
Definition build_analysis_index : M Agg.Analysis :=
  fun w =>
    match scan_files (Fs.glob TAGS_DIR ".json" (fs w)) Agg.empty with
    | inl e => Raised e w
    | inr acc =>
        let analysis := Agg.summarise (now R (clock w)) acc in
        Done analysis
          (set_fs (Fs.write index_path (Doc (Agg.analysis_json analysis)) (fs w)) w)
    end.

(** Lines 334 to 379; [metadata] is [episodes_metadata.json] when it
    exists. *)
Definition main (metadata : option (list Episode)) : M unit :=
  match metadata with
  | None => ret tt
  | Some episodes =>
      ensure_bucket_exists R ;;;
      load_progress R ;;;
      process_all json_loads json_dumps R episodes ;;;
      build_analysis_index ;;;
      ret tt
  end.

End Main.

(** ** What an outcome leaves behind *)

(** The world an outcome ends in, when it ends. *)
Definition final_world {A : Type} (o : Outcome A) : option World :=
  match o with
  | Done _ w => Some w
  | Raised _ w => Some w
  | Hangs => None
  end.

(** [post o Q]: if the computation ends, normally or not, then [Q] holds of
    the world it ends in. *)
Definition post {A : Type} (o : Outcome A) (Q : World -> Prop) : Prop :=
  match o with
  | Done _ w => Q w
  | Raised _ w => Q w
  | Hangs => True
  end.

(** The world after one remote call that logs the stage call [c]. *)
Definition after_call (c : Call) (w : World) : World :=
  mkWorld (fs w) (bucket w) (ledger w) (progress w) (S (clock w)) (calls w ++ [c]).

Definition is_annotate (c : Call) : bool :=
  match c with Annotate _ => true | _ => false end.

Definition is_convert (c : Call) : bool :=
  match c with Convert _ => true | _ => false end.

Definition is_upload (c : Call) : bool :=
  match c with Upload _ => true | _ => false end.

Definition is_transcribe (c : Call) : bool :=
  match c with Transcribe _ => true | _ => false end.

(** A [Transcribe] call on [uri] at time [t] ends in an exception: the
    submission fails, or the operation completes with an error, or one of its
    results has no alternative. *)
Definition transcribe_raises (R : Remote) (t : nat) (uri : string) : Prop :=
  match long_running_recognize R t uri with
  | None => True
  | Some op =>
      ready_after op <> None
      /\ match outcome op with
         | None => True
         | Some results => concat_results results = None
         end
  end.

(** A [Transcribe] call on [uri] at time [t] yields a transcript that is not
    empty. *)
Definition transcribe_succeeds (R : Remote) (t : nat) (uri : string) : Prop :=
  exists op k results text,
    long_running_recognize R t uri = Some op
    /\ ready_after op = Some k
    /\ outcome op = Some results
    /\ concat_results results = Some text
    /\ Str.strip text <> EmptyString.

(** ** Relations between the world before and after *)

(** [keeps r V m]: whenever [m] ends, the world it ends in is related by [r]
    to the world it started from, and a value it returns satisfies [V]. *)
Definition keeps {A : Type} (r : World -> World -> Prop) (V : A -> Prop)
  (m : M A) : Prop :=
  forall w,
    match m w with
    | Done a w' => V a /\ r w w'
    | Raised _ w' => r w w'
    | Hangs => True
    end.

Definition any {A : Type} : A -> Prop := fun _ => True.

(** The progress file and the [progress] dictionary are as they were. *)
Definition same_ledger (w w' : World) : Prop :=
  ledger w' = ledger w /\ progress w' = progress w.

(** No call selected by [sel] was added. *)
Definition quiet (sel : Call -> bool) (w w' : World) : Prop :=
  filter sel (calls w') = filter sel (calls w).

(** Only files of stem [b] were written or removed. *)
Definition within_stem (b : string) (w w' : World) : Prop :=
  forall p, Path.stem p <> b -> Fs.read p (fs w') = Fs.read p (fs w).

(** Only the file [q] was written or removed. *)
Definition within_file (q : Path.t) (w w' : World) : Prop :=
  forall p, p <> q -> Fs.read p (fs w') = Fs.read p (fs w).

(** Every file that is not a FLAC is still there, and none of them has
    turned into audio. *)
Definition lasting (w w' : World) : Prop :=
  forall p, Path.suffix p <> ".flac" ->
    (Fs.exist p (fs w) = true -> Fs.exist p (fs w') = true)
    /\ (Fs.read p (fs w) <> Some Audio -> Fs.read p (fs w') <> Some Audio).

(** A relation that is kept by the elementary steps of the pipeline: logging
    a call allowed by [okc], advancing the clock, writing a file allowed by
    [okw], removing one allowed by [oku], storing a blob and, when [okp]
    holds, updating the progress and its file. *)
Record frame (r : World -> World -> Prop) (okc : Call -> Prop)
  (okw : Path.t -> content -> Prop) (oku : Path.t -> Prop) (okp : Prop) : Prop :=
  mkFrame {
    f_refl : forall w, r w w;
    f_trans : forall a b c, r a b -> r b c -> r a c;
    f_log : forall c w, okc c -> r w (log_call c w);
    f_tick : forall w, r w (advance w);
    f_write : forall p c w, okw p c -> r w (set_fs (Fs.write p c (fs w)) w);
    f_unlink : forall p w, oku p -> r w (set_fs (Fs.unlink p (fs w)) w);
    f_bucket : forall b w, r w (set_bucket b w);
    f_progress : okp -> forall p w, r w (set_progress p w);
    f_ledger : okp -> forall l w, r w (set_ledger l w)
  }.

(** The world once the tags of [base_name] are saved. *)
Definition tagged_world (base_name : string) (tags : json) (c : Call) (w : World) : World :=
  let p := append_tagged base_name (progress w) in
  mkWorld (Fs.write (tags_path base_name) (Doc tags) (fs w)) (bucket w)
          (Some p) p (S (clock w)) (calls w ++ [c]).

(** ** What the aggregator is measured against *)

Module Tally.

(** The counting loops of the aggregator on the keys themselves: one [bump]
    per occurrence, in order. *)
Definition bump_all (occ : list string) (d : Dict.t Z) : Dict.t Z :=
  fold_left (fun d k => Agg.bump k d) occ d.

(** The position at which [k] is first met in [occ]. *)
Fixpoint first_seen (occ : list string) (k : string) : nat :=
  match occ with
  | [] => 0
  | x :: r => if String.eqb x k then 0 else S (first_seen r k)
  end.

(** How often [k] is met in [occ]. *)
Definition times (occ : list string) (k : string) : Z :=
  Z.of_nat (count_occ string_dec occ k).

Definition strings_of (l : list json) : list string :=
  flat_map (fun j => match j with JStr s => [s] | _ => [] end) l.

(** The tags the loop over [data.get(key, [])] runs over. *)
Definition field_tags (key : string) (data : json) : list string :=
  match Agg.get_or key (JArr []) data with
  | inr v => match Agg.iterate v with inr l => strings_of l | inl _ => [] end
  | inl _ => []
  end.

(** A document the aggregator counts: one without ["error"] in it. *)
Definition counted (data : json) : bool :=
  match Agg.has_error data with inr false => true | _ => false end.

(** Every tag of the category [key], as written, in scan order. *)
Definition raw_tags (key : string) (files : list (string * json)) : list string :=
  flat_map (fun fd => if counted (snd fd) then field_tags key (snd fd) else [])
           files.

(** The keys under which they are counted. *)
Definition occurrences (key : string) (files : list (string * json)) : list string :=
  map Str.lower (raw_tags key files).

(** A list of pairs ranked over the occurrences [occ]: the counts never
    increase along the list, and of two keys with the same count the one met
    first in [occ] comes first. *)
Definition ranked_by (occ : list string) (l : list (string * Z)) : Prop :=
  StronglySorted
    (fun a b => (snd b < snd a)%Z
                \/ (snd a = snd b /\ first_seen occ (fst a) < first_seen occ (fst b)))
    l.

End Tally.

(** The full ranking of one category, before it is cut. *)
Definition category_ranking (key : string) (files : list (string * json))
  : list (string * Z) :=
  Agg.rank (Tally.bump_all (Tally.occurrences key files) []).

(** The documents the aggregator loads from the files of a scan, under the
    stems of the files. *)
Definition loaded (json_loads : string -> option json)
  (files : list (Path.t * content)) : list (string * json) :=
  flat_map (fun e => match load_json json_loads (snd e) with
                     | inr j => [(Path.stem (fst e), j)]
                     | inl _ => []
                     end) files.

(** The annotation artifacts of a world, in scan order. *)
Definition annotations (json_loads : string -> option json) (w : World)
  : list (string * json) :=
  loaded json_loads (Fs.glob TAGS_DIR ".json" (fs w)).

(** An item is finished in a world when its audio file, if it has one
    there, has both its transcript and its tags on disk. *)
Definition finished (ep : Episode) (w : World) : Prop :=
  match resolve_local_file ep (fs w) with
  | inr (Some mp3_path) =>
      Fs.exist mp3_path (fs w) = true ->
      Fs.exist (transcript_path (Path.stem mp3_path)) (fs w) = true
      /\ Fs.exist (tags_path (Path.stem mp3_path)) (fs w) = true
  | _ => True
  end.

(** The title of an item is not [null]. *)
Definition titled (ep : Episode) : Prop := ep_title ep <> NullTitle.

(** No stage executor was invoked between two worlds. *)
Definition no_new_call (w w' : World) : Prop := calls w' = calls w.

(** ** Items that can be processed, and an item that cannot *)

(** The audio file an item names in the metadata. *)
Definition audio_of (ep : Episode) : option Path.t :=
  match ep_local_file ep with
  | Some (String c r) => Some (Path.of_string (String c r))
  | _ => None
  end.

(** Every remote call the audio file [mp3_path] may need succeeds, whenever
    it is made. *)
Definition healthy (R : Remote) (mp3_path : Path.t) : Prop :=
  let flac := Path.with_suffix ".flac" mp3_path in
  let blob := blob_name_of flac in
  (forall t, ffmpeg R t mp3_path = Some true)
  /\ (forall t, blob_probe R t blob = true)
  /\ (forall t, upload_from_filename R t blob = true)
  /\ (forall t, transcribe_succeeds R t (gs_uri blob))
  /\ (forall t prompt, generate_content R t prompt <> None).

(** The item [ep] names the audio file [mp3_path], which is there and is not
    itself a FLAC file; no audio sits where its transcript goes; and its
    remote calls succeed. *)
Definition sound (R : Remote) (w : World) (ep : Episode) (mp3_path : Path.t) : Prop :=
  audio_of ep = Some mp3_path
  /\ Fs.exist mp3_path (fs w) = true
  /\ Path.suffix mp3_path <> ".flac"
  /\ Fs.read (transcript_path (Path.stem mp3_path)) (fs w) <> Some Audio
  /\ healthy R mp3_path.

(** The item [ep] names the audio file [mp3_path], and its Transcribe call
    raises whenever it is made. *)
Definition doomed (R : Remote) (ep : Episode) (mp3_path : Path.t) : Prop :=
  audio_of ep = Some mp3_path
  /\ forall t,
       transcribe_raises R t
         (gs_uri (blob_name_of (Path.with_suffix ".flac" mp3_path))).

(** Both artifacts of the audio file [mp3_path] are on disk. *)
Definition completed (mp3_path : Path.t) (w : World) : Prop :=
  Fs.exist (transcript_path (Path.stem mp3_path)) (fs w) = true
  /\ Fs.exist (tags_path (Path.stem mp3_path)) (fs w) = true.

(** ** Notions for further properties *)

(** Every path is listed once. *)
Definition listed_once (f : Fs.t) : Prop := NoDup (map fst f).

(** Only files that satisfy [X] were written or removed. *)
Definition outside (X : Path.t -> Prop) (w w' : World) : Prop :=
  forall p, ~ X p -> Fs.read p (fs w') = Fs.read p (fs w).

(** The three files the pipeline may write or remove for the audio file
    [mp3_path]. *)
Definition artifacts_of (mp3_path : Path.t) (p : Path.t) : Prop :=
  p = Path.with_suffix ".flac" mp3_path
  \/ p = transcript_path (Path.stem mp3_path)
  \/ p = tags_path (Path.stem mp3_path).

(** [PROGRESS_FILE], the path of the progress file, whose content the world
    keeps as its [ledger]. *)
Definition PROGRESS_FILE : Path.t :=
  Path.child EmptyString "pipeline_progress" ".json".

(** [x] when [b] holds, nothing otherwise. *)
Definition pick {A : Type} (b : bool) (x : A) : list A := if b then [x] else [].

(** The stage calls made between two worlds. *)
Definition adds (l : list Call) (w w' : World) : Prop := calls w' = calls w ++ l.

(** The progress once the stem [b] is appended to the lists [i] and [j]
    select. *)
Definition recorded (b : string) (i j : bool) (p : Progress) : Progress :=
  mkProgress (transcribed p ++ pick i b) (tagged p ++ pick j b) (started_at p).

(** The lists of [p'] are those of [p] with items appended. *)
Definition extends (p p' : Progress) : Prop :=
  exists l1 l2,
    p' = mkProgress (transcribed p ++ l1) (tagged p ++ l2) (started_at p).

(** The [progress] dictionary was only appended to, and the progress file
    was rewritten to hold it whenever it changed. *)
Definition ledger_follows (w w' : World) : Prop :=
  extends (progress w) (progress w')
  /\ ((progress w' = progress w /\ ledger w' = ledger w)
      \/ ledger w' = Some (progress w')).

(** One of the first three words of the title occurs in the name of the
    file, whatever the case of the letters. *)
Definition title_matches (ep : Episode) (p : Path.t) : bool :=
  existsb (fun word => Str.contains (Str.lower word) (Str.lower (Path.name p)))
          (firstn 3 (Str.words (title_of ep))).

(** A value the counting loops accept: a list of texts, a text, or an
    object. *)
Definition tags_ok (v : json) : bool :=
  match Agg.iterate v with
  | inr l => forallb (fun j => match j with JStr _ => true | _ => false end) l
  | inl _ => false
  end.

(** An object whose tag fields, where it has them, the counting loops
    accept. *)
Definition countable (data : json) : bool :=
  match data with
  | JObj d =>
      forallb (fun key => match Dict.get key d with
                          | Some v => tags_ok v
                          | None => true
                          end)
              ["tech_tags"; "business_tags"; "key_topics"]
  | _ => false
  end.

(** A file the aggregator gets through: it loads, and what it holds is
    erroneous or countable. *)
Definition acceptable (json_loads : string -> option json) (c : content) : bool :=
  match load_json json_loads c with
  | inr data =>
      match Agg.has_error data with
      | inr true => true
      | inr false => countable data
      | inl _ => false
      end
  | inl _ => false
  end.

(** [top] holds each of its keys once, with a count of at least one, and no
    entry of the ranking [full] that it leaves out has a higher count than
    an entry it holds. *)
Definition holds_top (full top : list (string * Z)) : Prop :=
  NoDup (map fst top)
  /\ (forall k c, In (k, c) top -> (1 <= c)%Z)
  /\ (forall k c k' c',
        In (k, c) top -> In (k', c') full -> ~ In (k', c') top -> (c' <= c)%Z).

(** ** Worked examples *)

Module Examples.

Fixpoint replicate (n : nat) (c : ascii) : string :=
  match n with
  | O => EmptyString
  | S k => String c (replicate k c)
  end.

(** Services that all answer: every recognition completes at the third poll
    with [results], every annotation request is answered with [reply]. *)
Definition remote (results : list (list string)) (reply : string) : Remote :=
  mkRemote (fun _ _ => Some true) (fun _ _ => true) (fun _ _ => true)
           (fun _ _ => Some (mkOperation (Some 2) (Some results)))
           (fun _ _ => Some reply)
           (fun _ => true) (fun _ => true)
           (fun _ => "2024-05-01T10:00:00").

(** The same services, with a recognition that never completes. *)
Definition stuck_remote : Remote :=
  mkRemote (fun _ _ => Some true) (fun _ _ => true) (fun _ _ => true)
           (fun _ _ => Some (mkOperation None None))
           (fun _ _ => Some "{}")
           (fun _ => true) (fun _ => true)
           (fun _ => "2024-05-01T10:00:00").

(** The same services, where recognition fails for the audio of one item. *)
Definition flaky_remote (bad_uri : string) : Remote :=
  mkRemote (fun _ _ => Some true) (fun _ _ => true) (fun _ _ => true)
           (fun _ uri => if String.eqb uri bad_uri then None
                         else Some (mkOperation (Some 1) (Some [["hello"]; [" world"]])))
           (fun _ _ => Some "{}")
           (fun _ => true) (fun _ => true)
           (fun _ => "2024-05-01T10:00:00").

(** The same services, where every annotation request fails. *)
Definition mute_remote : Remote :=
  mkRemote (fun _ _ => Some true) (fun _ _ => true) (fun _ _ => true)
           (fun _ _ => Some (mkOperation (Some 1) (Some [["hello"]; [" world"]])))
           (fun _ _ => None)
           (fun _ => true) (fun _ => true)
           (fun _ => "2024-05-01T10:00:00").

Definition dumps (j : json) : string := "{}".

Definition mp3 (base : string) : Path.t := Path.child EPISODES_DIR base ".mp3".

Definition episode (base : string) : Episode :=
  mkEpisode (TitleText base) (Some ("episodes/" ++ base ++ ".mp3")%string).

Definition fresh_progress : Progress := mkProgress [] [] "2024-05-01T09:00:00".

(** A working tree with the audio of three episodes and nothing else. *)
Definition start : World :=
  mkWorld [ (mp3 "ep1", Audio); (mp3 "ep2", Audio); (mp3 "ep3", Audio) ]
          [] None fresh_progress 0 [].

(** An annotation as the prompt asks for it. *)
Definition annotation (tech business topics : list string) : json :=
  JObj [ ("tech_tags", JArr (map JStr tech));
         ("business_tags", JArr (map JStr business));
         ("key_topics", JArr (map JStr topics));
         ("guest", JObj [ ("name", JStr "Ada"); ("role", JStr "CTO");
                          ("company", JStr "Acme") ]);
         ("summary", JStr "A talk about platforms.") ].

(** A working tree after a run: two items are annotated, and the response
    for the second one could not be parsed. *)
Definition tagged_tree : World :=
  mkWorld [ (tags_path "ep1",
             Doc (annotation ["Kubernetes"; "MLflow"] ["ROI"] ["Serving"]));
            (tags_path "ep2", Doc (error_variant "not json"));
            (tags_path "ep3",
             Doc (annotation ["mlflow"; "Ray"] ["roi"; "Hiring"] ["Agents"])) ]
          [] None fresh_progress 0 [].

End Examples.

(** ** The download scripts

    [download_episodes.py] and [download_next_batch.py] share
    [clean_filename], [parse_rss] and [download_episode]; they differ in
    [main].  The XML reader and the network are oracles; a regular
    expression is modelled by the scan it performs on ASCII text. *)

Module Download.

(** [\w] on an ASCII character: a letter, a digit or the underscore. *)
Definition is_word (c : ascii) : bool :=
  let n := nat_of_ascii c in
  ((48 <=? n)%nat && (n <=? 57)%nat) || ((65 <=? n)%nat && (n <=? 90)%nat)
  || ((97 <=? n)%nat && (n <=? 122)%nat) || (n =? 95)%nat.

Definition is_dash (c : ascii) : bool := (nat_of_ascii c =? 45)%nat.

(** [re.sub(r'[^\w\s-]', '', s)] *)
Fixpoint drop_special (s : string) : string :=
  match s with
  | String c r =>
      if is_word c || Str.is_space c || is_dash c
      then String c (drop_special r) else drop_special r
  | EmptyString => EmptyString
  end.

(** [re.sub(r'\s+', '-', s)]: one dash for every maximal run of white
    space; [in_run] tells that the character before was white. *)
Fixpoint dash_runs (in_run : bool) (s : string) : string :=
  match s with
  | String c r =>
      if Str.is_space c
      then (if in_run then dash_runs true r else String "-"%char (dash_runs true r))
      else String c (dash_runs false r)
  | EmptyString => EmptyString
  end.

(** Lines 15 to 20 *)
Definition clean_filename (title : string) : string :=
  let clean := drop_special title in
  let clean := dash_runs false (Str.strip clean) in
  Str.lower (Str.take 80 clean).

(** A text of ASCII characters. *)
Fixpoint ascii_only (s : string) : bool :=
  match s with
  | String c r => (nat_of_ascii c <? 128)%nat && ascii_only r
  | EmptyString => true
  end.

(** A character of a cleaned name: a small letter, a digit, the underscore
    or the dash. *)
Definition is_safe (c : ascii) : bool :=
  let n := nat_of_ascii c in
  ((48 <=? n)%nat && (n <=? 57)%nat) || ((97 <=? n)%nat && (n <=? 122)%nat)
  || (n =? 95)%nat || (n =? 45)%nat.

Fixpoint all_chars (f : ascii -> bool) (s : string) : bool :=
  match s with
  | String c r => f c && all_chars f r
  | EmptyString => true
  end.

(** [re.search(r'#(\d+)', s)]: the digits behind the first [#] that has a
    digit behind it. *)
Fixpoint episode_number_in (s : string) : option string :=
  match s with
  | String c r =>
      if (nat_of_ascii c =? 35)%nat then
        match Json.span_digits r with
        | (EmptyString, _) => episode_number_in r
        | (d, _) => Some d
        end
      else episode_number_in r
  | EmptyString => None
  end.

(** What [item.find(tag)] gives: no element, or an element with its text,
    which is [None] for an element that is empty. *)
Inductive Found : Type :=
| NotFound
| Element (text : option string).

(** An [<item>] of the feed, as [parse_rss] looks at it. *)
Record Item : Type := mkItem {
  item_title : Found;
  item_enclosure : option (option string);   (* the [url] of the enclosure *)
  item_pubDate : Found;
  item_duration : Found;
  item_description : Found
}.

(** One entry of the metadata. *)
Record Entry : Type := mkEntry {
  en_title : string;
  en_episode_number : option string;
  en_audio_url : option string;
  en_pub_date : option string;
  en_duration : option string;
  en_description : option string;
  en_local_file : option string      (* [None]: the key is not there *)
}.

(** [x.text if x is not None else ''] *)
Definition text_or_empty (f : Found) : option string :=
  match f with
  | NotFound => Some EmptyString
  | Element t => t
  end.

(** Line 57: [description[:500] + '...' if len(description or '') > 500 else
    description] *)
Definition shorten (description : option string) : option string :=
  match description with
  | Some s =>
      if (500 <? String.length s)%nat then Some (Str.take 500 s ++ "...")%string
      else Some s
  | None => None
  end.

(** Lines 33 to 58, the body of the loop over the items; [None] is the
    [TypeError] of [re.search] on a title that is [None]. *)
Definition parse_item (it : Item) : option Entry :=
  match text_or_empty (item_title it) with
  | None => None
  | Some title =>
      Some (mkEntry title (episode_number_in title)
              (match item_enclosure it with Some url => url | None => None end)
              (text_or_empty (item_pubDate it))
              (text_or_empty (item_duration it))
              (shorten (text_or_empty (item_description it)))
              None)
  end.

Fixpoint parse_items (items : list Item) : option (list Entry) :=
  match items with
  | [] => Some []
  | it :: rest =>
      match parse_item it, parse_items rest with
      | Some e, Some l => Some (e :: l)
      | _, _ => None
      end
  end.

Inductive failure : Type :=
| ParseError      (* the feed is not XML *)
| NoneIsNotText.  (* [TypeError]: a title without text *)

(** What a download leaves: the file, or an error with or without a part of
    the file written. *)
Inductive Fetch : Type :=
| Fetched
| Failed (left_behind : bool).

(** The files, the metadata file when it exists, and the URLs requested so
    far. *)
Record Disk : Type := mkDisk {
  files : Fs.t;
  metadata : option (list Entry);
  requests : list string
}.

(** A value that is not [None] and not empty. *)
Definition truthy (o : option string) : option string :=
  match o with
  | Some (String c r) => Some (String c r)
  | _ => None
  end.

(** [f"{index:03d}"] *)
Definition pad3 (index : nat) : string :=
  let digits := NilEmpty.string_of_uint (Nat.to_uint index) in
  (Examples.replicate (3 - String.length digits) "0"%char ++ digits)%string.

(** Lines 67 and 68 *)
Definition file_name (ep : Entry) (index : nat) : string :=
  let ep_num :=
    match truthy (en_episode_number ep) with
    | Some n => n
    | None => ("ep" ++ pad3 index)%string
    end in
  ("ep" ++ ep_num ++ "-" ++ clean_filename (en_title ep) ++ ".mp3")%string.

Section Scripts.

(** [ET.fromstring(xml).findall('.//item')]; [None] is a parse error. *)
Variable items_of : string -> option (list Item).
(** [urllib.request.urlretrieve(url, path)] as the number of requests made
    before it and the URL decide it. *)
Variable urlretrieve : nat -> string -> Fetch.

(** Lines 22 to 60 *)
Definition parse_rss (xml_content : string) : failure + list Entry :=
  match items_of xml_content with
  | None => inl ParseError
  | Some items =>
      match parse_items items with
      | Some episodes => inr episodes
      | None => inl NoneIsNotText
      end
  end.

(** Lines 62 to 81: the path returned, if any, and the disk left. *)
Definition download_episode (ep : Entry) (index : nat) (d : Disk)
  : option string * Disk :=
  match truthy (en_audio_url ep) with
  | None => (None, d)
  | Some url =>
      let name := ("episodes/" ++ file_name ep index)%string in
      let filepath := Path.of_string name in
      if Fs.exist filepath (files d) then (Some name, d)
      else
        let asked := requests d ++ [url] in
        match urlretrieve (List.length (requests d)) url with
        | Fetched =>
            (Some name, mkDisk (Fs.write filepath Audio (files d)) (metadata d) asked)
        | Failed true =>
            (None, mkDisk (Fs.write filepath Audio (files d)) (metadata d) asked)
        | Failed false => (None, mkDisk (files d) (metadata d) asked)
        end
  end.

(** The loop [for i, ep in enumerate(...)] of both [main]s, from the index
    [index] on: the entries with [local_file] set where a path came back. *)
Fixpoint download_loop (index : nat) (eps : list Entry) (d : Disk)
  : list Entry * Disk :=
  match eps with
  | [] => ([], d)
  | ep :: rest =>
      let (filepath, d1) := download_episode ep index d in
      let ep' :=
        match filepath with
        | Some path =>
            mkEntry (en_title ep) (en_episode_number ep) (en_audio_url ep)
                    (en_pub_date ep) (en_duration ep) (en_description ep)
                    (Some path)
        | None => ep
        end in
      let (rest', d2) := download_loop (S index) rest d1 in
      (ep' :: rest', d2)
  end.

(** [main] of [download_episodes.py], lines 83 to 109, on the text of the
    feed. *)
Definition main (xml_content : string) (d : Disk) : failure + Disk :=
  match parse_rss xml_content with
  | inl e => inl e
  | inr episodes =>
      let latest := firstn 20 episodes in
      let (latest', d1) := download_loop 0 latest d in
      inr (mkDisk (files d1) (Some latest') (requests d1))
  end.

(** [main] of [download_next_batch.py], lines 81 to 118. *)
Definition main_next_batch (xml_content : string) (d : Disk) : failure + Disk :=
  match parse_rss xml_content with
  | inl e => inl e
  | inr all_episodes =>
      let existing := match metadata d with Some l => l | None => [] end in
      let batch := firstn 40 (skipn 20 all_episodes) in
      let (batch', d1) := download_loop 20 batch d in
      inr (mkDisk (files d1) (Some (existing ++ batch')) (requests d1))
  end.

End Scripts.

End Download.

(** * Facts *)

Local Open Scope nat_scope.

Module PathFacts.
Import Path.

Lemma eqb_eq (p q : t) : eqb p q = true <-> p = q.
Proof.
  destruct p as [a b c], q as [a' b' c']; unfold eqb; cbn.
  rewrite !andb_true_iff, !String.eqb_eq.
  split.
  - intros [[-> ->] ->]; reflexivity.
  - intros H; injection H as -> -> ->; auto.
Qed.

Lemma eqb_refl (p : t) : eqb p p = true.
Proof. apply eqb_eq; reflexivity. Qed.

Lemma eqb_neq (p q : t) : eqb p q = false <-> p <> q.
Proof.
  rewrite <- eqb_eq. destruct (eqb p q); split; congruence.
Qed.

End PathFacts.

(** ** Strings *)

Module StrFacts.
Import Str.

Lemma app_nil_r (s : string) : (s ++ "")%string = s.
Proof. induction s as [|c s IH]; cbn; [reflexivity | now rewrite IH]. Qed.

Lemma app_assoc (a b c : string) : ((a ++ b) ++ c)%string = (a ++ (b ++ c))%string.
Proof. induction a as [|x a IH]; cbn; [reflexivity | now rewrite IH]. Qed.

Lemma length_app (a b : string) :
  String.length (a ++ b) = String.length a + String.length b.
Proof. induction a as [|x a IH]; cbn; [reflexivity | now rewrite IH]. Qed.

Lemma is_empty_true (s : string) : is_empty s = true <-> s = EmptyString.
Proof. destruct s; cbn; split; congruence. Qed.

Lemma lstrip_all_space (w : string) : all_space w = true -> lstrip w = EmptyString.
Proof.
  induction w as [|c w IH]; cbn; [reflexivity|].
  intros H; apply andb_true_iff in H as [Hc Hw]; rewrite Hc; auto.
Qed.

Lemma rstrip_all_space (w : string) : all_space w = true -> rstrip w = EmptyString.
Proof.
  induction w as [|c w IH]; cbn; [reflexivity|].
  intros H; apply andb_true_iff in H as [Hc Hw].
  rewrite (IH Hw), Hc; reflexivity.
Qed.

Lemma lstrip_app_space (w s : string) :
  all_space w = true -> lstrip (w ++ s) = lstrip s.
Proof.
  induction w as [|c w IH]; cbn; [reflexivity|].
  intros H; apply andb_true_iff in H as [Hc Hw]; rewrite Hc; auto.
Qed.

Lemma rstrip_app_space (s w : string) :
  all_space w = true -> rstrip (s ++ w) = rstrip s.
Proof.
  intros Hw; induction s as [|c s IH]; cbn.
  - now apply rstrip_all_space.
  - now rewrite IH.
Qed.

(** A text that ends with a character that is not white keeps its end. *)
Lemma rstrip_app_solid (s t : string) :
  t <> EmptyString -> rstrip t = t -> rstrip (s ++ t) = (s ++ t)%string.
Proof.
  intros Hne Ht; induction s as [|c s IH]; cbn; [exact Ht|].
  rewrite IH.
  destruct (s ++ t)%string eqn:E.
  - destruct s; cbn in E; [congruence | discriminate].
  - cbn. now rewrite andb_false_r.
Qed.

Lemma strip_app_space (s w : string) :
  all_space w = true -> strip (s ++ w) = strip s.
Proof.
  intros Hw; unfold strip; induction s as [|c s IH]; cbn.
  - now rewrite (lstrip_all_space w Hw).
  - destruct (is_space c); [exact IH|].
    change (String c (s ++ w)) with (String c s ++ w)%string.
    now apply rstrip_app_space.
Qed.

Lemma strip_space_app (w s : string) :
  all_space w = true -> strip (w ++ s) = strip s.
Proof. intros Hw; unfold strip; now rewrite lstrip_app_space. Qed.

Lemma split_nonempty (sep : ascii) (s : string) : split sep s <> [].
Proof.
  destruct s as [|c s]; cbn; [discriminate|].
  destruct (Ascii.eqb c sep); [discriminate|].
  destruct (split sep s); discriminate.
Qed.

(** Splitting at a separator that is known to be there. *)
Lemma split_app (sep : ascii) (a b : string) :
  split sep (a ++ String sep b) = split sep a ++ split sep b.
Proof.
  induction a as [|c a IH]; cbn.
  - now rewrite Ascii.eqb_refl.
  - destruct (Ascii.eqb c sep); [now rewrite IH|].
    rewrite IH.
    destruct (split sep a) eqn:E; [now apply split_nonempty in E|].
    reflexivity.
Qed.

Lemma concat_cons_char (sep : string) (c : ascii) (h : string) (t : list string) :
  String.concat sep (String c h :: t) = String c (String.concat sep (h :: t)).
Proof. destruct t; reflexivity. Qed.

(** Joining what was split gives the text back. *)
Lemma join_split (s : string) : join nl (split newline s) = s.
Proof.
  unfold join; induction s as [|c s IH]; [reflexivity|].
  cbn [split].
  destruct (Ascii.eqb c newline) eqn:E.
  - apply Ascii.eqb_eq in E; subst c.
    destruct (split newline s) eqn:Es; [now apply split_nonempty in Es|].
    change (String.concat nl (EmptyString :: s0 :: l))
      with (EmptyString ++ nl ++ String.concat nl (s0 :: l))%string.
    rewrite IH. reflexivity.
  - destruct (split newline s) eqn:Es; [now apply split_nonempty in Es|].
    rewrite concat_cons_char, IH. reflexivity.
Qed.

Lemma slice_1_m1_frame {A : Type} (x y : A) (l : list A) :
  slice_1_m1 (x :: l ++ [y]) = l.
Proof. unfold slice_1_m1; cbn [tl]. apply removelast_last. Qed.

Lemma no_newline_cons (c : ascii) (s : string) :
  Ascii.eqb c newline = false -> no_newline s -> no_newline (String c s).
Proof.
  unfold no_newline; intros Hc Hs; cbn [split]. now rewrite Hc, Hs.
Qed.

Lemma take_short (n : nat) (s : string) :
  String.length s <= n -> take n s = s.
Proof.
  revert n; induction s as [|c s IH]; intros [|n] H; cbn in *;
    try reflexivity; try lia.
  rewrite IH; [reflexivity | lia].
Qed.

Lemma take_length (n : nat) (s : string) : String.length (take n s) <= n.
Proof.
  revert s; induction n as [|n IH]; intros [|c s]; cbn; try lia.
  specialize (IH s); lia.
Qed.

Lemma concat_lines_join (segments : list string) :
  segments <> [] ->
  concat_lines segments = (join nl segments ++ nl)%string.
Proof.
  unfold join; induction segments as [|s r IH]; [congruence|]; intros _.
  destruct r as [|s' r].
  - cbn [concat_lines String.concat]. now rewrite (app_nil_r nl).
  - cbn [concat_lines String.concat] in *.
    rewrite IH by discriminate. now rewrite !app_assoc.
Qed.

(** The transcript is the newline-joined segments, stripped. *)
Lemma assemble_join (segments : list string) :
  assemble segments = strip (join nl segments).
Proof.
  unfold assemble; destruct segments as [|s r]; [reflexivity|].
  rewrite concat_lines_join by discriminate.
  now apply strip_app_space.
Qed.

End StrFacts.

(** ** The annotation stage *)

Section AnnotationFacts.
Import Str StrFacts.

Variable json_loads : string -> option json.

Lemma fenced_block_strip (info payload : string) :
  strip (fence ++ info ++ nl ++ payload ++ nl ++ fence)
  = (fence ++ info ++ nl ++ payload ++ nl ++ fence)%string.
Proof.
  unfold strip.
  change (lstrip (fence ++ info ++ nl ++ payload ++ nl ++ fence))
    with (fence ++ info ++ nl ++ payload ++ nl ++ fence)%string.
  rewrite <- !app_assoc.
  apply rstrip_app_solid; [discriminate | reflexivity].
Qed.

Lemma fenced_block_lines (info payload : string) :
  no_newline info ->
  split newline (fence ++ info ++ nl ++ payload ++ nl ++ fence)
  = (fence ++ info)%string :: split newline payload ++ [fence].
Proof.
  intros Hinfo.
  assert (Hhead : split newline (fence ++ info) = [(fence ++ info)%string]).
  { unfold fence. cbn [append].
    repeat (apply no_newline_cons; [reflexivity|]). exact Hinfo. }
  change (fence ++ info ++ nl ++ payload ++ nl ++ fence)%string
    with (fence ++ (info ++ String newline (payload ++ String newline fence)))%string.
  rewrite <- app_assoc, !split_app, Hhead. reflexivity.
Qed.

(** The text handed to the decoder for a fenced block is its payload. *)
Lemma response_text_fenced (pre info payload post : string) :
  all_space pre = true -> all_space post = true -> no_newline info ->
  response_text (fenced pre info payload post) = payload.
Proof.
  intros Hpre Hpost Hinfo. unfold response_text, fenced.
  rewrite strip_space_app, strip_app_space, fenced_block_strip by assumption.
  replace (startswith fence (fence ++ info ++ nl ++ payload ++ nl ++ fence))
    with true by reflexivity.
  rewrite fenced_block_lines by assumption.
  rewrite slice_1_m1_frame. apply join_split.
Qed.

Lemma response_text_bare (raw : string) :
  startswith fence (strip raw) = false -> response_text raw = strip raw.
Proof. unfold response_text; intros ->; reflexivity. Qed.

End AnnotationFacts.

(** ** Files *)

Module FsFacts.
Import PathFacts.

Lemma read_write_same (p : Path.t) (c : content) (f : Fs.t) :
  Fs.read p (Fs.write p c f) = Some c.
Proof.
  induction f as [|[q c'] f IH]; cbn.
  - now rewrite eqb_refl.
  - destruct (Path.eqb p q) eqn:E; cbn; rewrite E; auto.
Qed.

Lemma read_write_other (p q : Path.t) (c : content) (f : Fs.t) :
  p <> q -> Fs.read q (Fs.write p c f) = Fs.read q f.
Proof.
  intros Hpq; induction f as [|[r c'] f IH]; cbn.
  - apply not_eq_sym, eqb_neq in Hpq. now rewrite Hpq.
  - destruct (Path.eqb p r) eqn:E; cbn.
    + apply eqb_eq in E; subst r.
      apply not_eq_sym, eqb_neq in Hpq. now rewrite Hpq.
    + destruct (Path.eqb q r); auto.
Qed.

Lemma read_unlink_other (p q : Path.t) (f : Fs.t) :
  p <> q -> Fs.read q (Fs.unlink p f) = Fs.read q f.
Proof.
  intros Hpq; induction f as [|[r c'] f IH]; cbn; [reflexivity|].
  destruct (Path.eqb p r) eqn:E; cbn.
  - apply eqb_eq in E; subst r.
    apply not_eq_sym, eqb_neq in Hpq. now rewrite Hpq.
  - destruct (Path.eqb q r); auto.
Qed.

Lemma exist_write_same (p : Path.t) (c : content) (f : Fs.t) :
  Fs.exist p (Fs.write p c f) = true.
Proof. unfold Fs.exist; now rewrite read_write_same. Qed.

Lemma exist_read (p : Path.t) (f : Fs.t) :
  Fs.exist p f = true <-> exists c, Fs.read p f = Some c.
Proof.
  unfold Fs.exist; destruct (Fs.read p f); split; eauto; try discriminate.
  intros [c H]; discriminate.
Qed.

Lemma exist_false (p : Path.t) (f : Fs.t) :
  Fs.exist p f = false <-> Fs.read p f = None.
Proof. unfold Fs.exist; destruct (Fs.read p f); split; congruence. Qed.

End FsFacts.

(** ** The polling loop *)

Section Polling.

(** An operation that completes is seen complete at the poll it completes
    at, however much fuel is left beyond that. *)
Lemma poll_exits (op : Operation) (k : nat) :
  ready_after op = Some k ->
  forall d i fuel, i + d = k -> d < fuel -> poll fuel op i = Some k.
Proof.
  intros Hk; induction d as [|d IH]; intros i fuel Hi Hf;
    (destruct fuel as [|fuel]; [lia|]); cbn; unfold op_done; rewrite Hk.
  - replace i with k by lia. now rewrite Nat.leb_refl.
  - destruct (k <=? i) eqn:E; [apply Nat.leb_le in E; lia|].
    apply IH; lia.
Qed.

(** An operation that never completes keeps the loop polling. *)
Lemma poll_never (op : Operation) :
  ready_after op = None -> forall fuel i, poll fuel op i = None.
Proof.
  intros Hn; induction fuel as [|fuel IH]; intros i; cbn; [reflexivity|].
  unfold op_done; rewrite Hn. apply IH.
Qed.

Lemma polling_loop_exits (op : Operation) (k : nat) :
  ready_after op = Some k -> polling_loop op = Some k.
Proof.
  intros Hk; unfold polling_loop; rewrite Hk.
  apply (poll_exits op k Hk k 0); lia.
Qed.

(** The loop run to its end agrees with the loop run on fuel: it exits after
    [n] sleeps exactly when some amount of fuel lets it exit there. *)
Lemma polling_loop_spec (op : Operation) (n : nat) :
  polling_loop op = Some n <-> exists fuel, poll fuel op 0 = Some n.
Proof.
  split.
  - unfold polling_loop; destruct (ready_after op) as [k|]; [|discriminate].
    intros H; now exists (S k).
  - intros [fuel H]. destruct (ready_after op) as [k|] eqn:E.
    + rewrite (polling_loop_exits op k E).
      destruct (Nat.lt_ge_cases k fuel) as [Hlt|Hge].
      * rewrite (poll_exits op k E k 0 fuel) in H by lia. exact H.
      * exfalso. clear - E H Hge.
        assert (G : forall f i, i + f <= k -> poll f op i = None).
        { induction f as [|f IH]; intros i Hi; cbn; [reflexivity|].
          unfold op_done; rewrite E.
          destruct (k <=? i) eqn:L; [apply Nat.leb_le in L; lia|].
          apply IH; lia. }
        rewrite G in H by lia. discriminate.
    + rewrite poll_never in H by assumption. discriminate.
Qed.

End Polling.

(** ** Rules for [keeps] *)

Section Keeps.

Variable r : World -> World -> Prop.
Hypothesis r_refl : forall w, r w w.
Hypothesis r_trans : forall a b c, r a b -> r b c -> r a c.

Lemma keeps_ret {A} (V : A -> Prop) (a : A) : V a -> keeps r V (ret a).
Proof. intros Ha w; cbn; auto. Qed.

Lemma keeps_raise {A} (V : A -> Prop) (e : exn) : keeps r V (@raise A e).
Proof. intros w; cbn; auto. Qed.

Lemma keeps_hang {A} (V : A -> Prop) : keeps r V (fun _ => @Hangs A).
Proof. intros w; exact I. Qed.

Lemma keeps_bind {A B} (V : A -> Prop) (V' : B -> Prop) (m : M A) (k : A -> M B) :
  keeps r V m -> (forall a, V a -> keeps r V' (k a)) -> keeps r V' (bind m k).
Proof.
  intros Hm Hk w; unfold bind. specialize (Hm w).
  destruct (m w) as [a w1|e w1|]; auto.
  destruct Hm as [Ha Hr]. specialize (Hk a Ha w1).
  destruct (k a w1) as [b w2|e w2|]; auto.
  - destruct Hk; split; eauto.
  - eauto.
Qed.

Lemma keeps_try {A} (V V' : A -> Prop) (m : M A) (h : exn -> M A) :
  keeps r V m -> (forall a, V a -> V' a) -> (forall e, keeps r V' (h e)) ->
  keeps r V' (try_except m h).
Proof.
  intros Hm HV Hh w; unfold try_except. specialize (Hm w).
  destruct (m w) as [a w1|e w1|]; auto.
  - destruct Hm; auto.
  - specialize (Hh e w1). destruct (h e w1) as [b w2|e' w2|]; auto.
    + destruct Hh; split; eauto.
    + eauto.
Qed.

Lemma keeps_weaken {A} (V V' : A -> Prop) (m : M A) :
  keeps r V m -> (forall a, V a -> V' a) -> keeps r V' m.
Proof.
  intros Hm HV w. specialize (Hm w).
  destruct (m w); auto. destruct Hm; auto.
Qed.

Lemma keeps_get_world : keeps r any get_world.
Proof. intros w; cbn; unfold any; auto. Qed.

Lemma keeps_path_exists (p : Path.t) : keeps r any (path_exists p).
Proof. intros w; cbn; unfold any; auto. Qed.

Lemma keeps_modify (f : World -> World) :
  (forall w, r w (f w)) -> keeps r any (modify f).
Proof. intros Hf w; cbn; unfold any; auto. Qed.

End Keeps.

(** ** What each stage keeps *)

Section Frames.

Variable json_loads : string -> option json.
Variable json_dumps : json -> string.
Variable R : Remote.

Variable r : World -> World -> Prop.
Variable okc : Call -> Prop.
Variable okw : Path.t -> content -> Prop.
Variable oku : Path.t -> Prop.
Variable okp : Prop.
Hypothesis F : frame r okc okw oku okp.

Let r_refl := f_refl _ _ _ _ _ F.
Let r_trans := f_trans _ _ _ _ _ F.

Lemma keeps_invoke (c : Call) : okc c -> keeps r any (invoke c).
Proof. intros Hc; apply keeps_modify; intros; now apply (f_log _ _ _ _ _ F). Qed.

Lemma keeps_tick : keeps r any tick.
Proof. intros w; cbn; split; [exact I | apply (f_tick _ _ _ _ _ F)]. Qed.

Lemma keeps_write_file (p : Path.t) (c : content) :
  okw p c -> keeps r any (write_file p c).
Proof. intros H; apply keeps_modify; intros; now apply (f_write _ _ _ _ _ F). Qed.

Lemma keeps_unlink (p : Path.t) : oku p -> keeps r any (unlink p).
Proof. intros H; apply keeps_modify; intros; now apply (f_unlink _ _ _ _ _ F). Qed.

Lemma keeps_unlink_if_present (p : Path.t) :
  oku p ->
  keeps r any (bind (path_exists p)
                 (fun present => if present then unlink p else ret tt)).
Proof.
  intros H. eapply (keeps_bind r r_trans); auto using keeps_path_exists.
  intros [|] _; [now apply keeps_unlink | now apply keeps_ret].
Qed.

Lemma keeps_save_progress : okp -> keeps r any save_progress.
Proof. intros H; apply keeps_modify; intros; now apply (f_ledger _ _ _ _ _ F). Qed.

Lemma keeps_read_text (p : Path.t) : keeps r any (read_text json_dumps p).
Proof.
  intros w; unfold read_text.
  destruct (Fs.read p (fs w)) as [[| |]|]; unfold any; auto.
Qed.

(** [convert_to_flac] returns the FLAC path or [None] and nothing else. *)
Lemma keeps_convert (mp3_path : Path.t) :
  okc (Convert mp3_path) ->
  okw (Path.with_suffix ".flac" mp3_path) Audio ->
  keeps r (fun a => a = None \/ a = Some (Path.with_suffix ".flac" mp3_path))
    (convert_to_flac R mp3_path).
Proof.
  intros Hc Hw. unfold convert_to_flac.
  eapply (keeps_bind r r_trans); auto using keeps_path_exists.
  intros [|] _; [apply keeps_ret; auto|].
  eapply (keeps_bind r r_trans); auto using keeps_invoke.
  intros _ _. eapply (keeps_bind r r_trans); auto using keeps_tick.
  intros t _. destruct (ffmpeg R t mp3_path) as [[|]|].
  - eapply (keeps_bind r r_trans); auto using keeps_write_file.
    intros; apply keeps_ret; auto.
  - apply keeps_ret; auto.
  - now apply keeps_raise.
Qed.

Lemma keeps_upload (local_path : Path.t) :
  okc (Upload (blob_name_of local_path)) ->
  keeps r (fun uri => uri = gs_uri (blob_name_of local_path))
    (upload_to_gcs R local_path).
Proof.
  intros Hc. unfold upload_to_gcs.
  eapply (keeps_bind r r_trans); auto using keeps_tick.
  intros t _. destruct (negb _); [now apply keeps_raise|].
  eapply (keeps_bind r r_trans); auto using keeps_get_world.
  intros w _. destruct (existsb _ _); [now apply keeps_ret|].
  eapply (keeps_bind r r_trans); auto using keeps_invoke.
  intros _ _. eapply (keeps_bind r r_trans); auto using keeps_tick.
  intros t' _. destruct (upload_from_filename R t' _); [|now apply keeps_raise].
  eapply (keeps_bind r r_trans) with (V := any).
  - apply keeps_modify. intros; apply (f_bucket _ _ _ _ _ F).
  - intros; now apply keeps_ret.
Qed.

Lemma keeps_transcribe (uri : string) :
  okc (Transcribe uri) -> keeps r any (transcribe_from_gcs R uri).
Proof.
  intros Hc. unfold transcribe_from_gcs.
  eapply (keeps_bind r r_trans); auto using keeps_invoke.
  intros _ _. eapply (keeps_bind r r_trans); auto using keeps_tick.
  intros t _. destruct (long_running_recognize R t uri) as [op|];
    [|now apply keeps_raise].
  destruct (polling_loop op); [|now apply keeps_hang].
  destruct (outcome op) as [results|]; [|now apply keeps_raise].
  destruct (concat_results results); [|now apply keeps_raise].
  now apply keeps_ret.
Qed.

Lemma keeps_tag_episode (transcript title : string) :
  okc (Annotate (build_prompt transcript title)) ->
  keeps r any (tag_episode json_loads R transcript title).
Proof.
  intros Hc. unfold tag_episode.
  eapply (keeps_bind r r_trans); auto using keeps_invoke.
  intros _ _. eapply (keeps_bind r r_trans); auto using keeps_tick.
  intros t _. destruct (generate_content R t _); [|now apply keeps_raise].
  now apply keeps_ret.
Qed.

(** The exception handler of step 1. *)
Lemma keeps_cleanup {A} (flac_path : Path.t) (a : A) :
  oku flac_path ->
  keeps r any
    (present <- path_exists flac_path ;;
     (if present then unlink flac_path else ret tt) ;;; ret a).
Proof.
  intros Hu. eapply (keeps_bind r r_trans); auto using keeps_path_exists.
  intros present _. eapply (keeps_bind r r_trans) with (V := any).
  - destruct present; [now apply keeps_unlink | now apply keeps_ret].
  - intros; now apply keeps_ret.
Qed.

Lemma keeps_transcribe_step (base_name : string) (flac_path : Path.t) :
  okc (Upload (blob_name_of flac_path)) ->
  okc (Transcribe (gs_uri (blob_name_of flac_path))) ->
  (forall t, okw (transcript_path base_name) (Text t)) ->
  oku flac_path -> okp ->
  keeps r any (transcribe_step R base_name flac_path).
Proof.
  intros Hu Ht Hw Hd Hp. unfold transcribe_step.
  eapply (keeps_try r r_trans) with (V := any); auto.
  - eapply (keeps_bind r r_trans); auto using keeps_upload.
    intros uri ->. eapply (keeps_bind r r_trans); auto using keeps_transcribe.
    intros transcript _. destruct (Str.is_empty transcript); [now apply keeps_ret|].
    eapply (keeps_bind r r_trans); auto using keeps_write_file.
    intros _ _. eapply (keeps_bind r r_trans); auto using keeps_path_exists.
    intros present _. eapply (keeps_bind r r_trans) with (V := any).
    { destruct present; [now apply keeps_unlink | now apply keeps_ret]. }
    intros _ _. eapply (keeps_bind r r_trans) with (V := any).
    { apply keeps_modify; auto. intros; now apply (f_progress _ _ _ _ _ F). }
    intros _ _. eapply (keeps_bind r r_trans); auto using keeps_save_progress.
    intros; now apply keeps_ret.
  - intros e. now apply keeps_cleanup.
Qed.

Lemma keeps_tag_step (base_name transcript title : string) :
  okc (Annotate (build_prompt transcript title)) ->
  (forall j, okw (tags_path base_name) (Doc j)) -> okp ->
  keeps r any (tag_step json_loads R base_name transcript title).
Proof.
  intros Hc Hw Hp. unfold tag_step.
  eapply (keeps_bind r r_trans); auto using keeps_path_exists.
  intros [|] _; [now apply keeps_ret|].
  eapply (keeps_try r r_trans) with (V := any); auto.
  - eapply (keeps_bind r r_trans); auto using keeps_tag_episode.
    intros tags _. eapply (keeps_bind r r_trans); auto using keeps_write_file.
    intros _ _. eapply (keeps_bind r r_trans) with (V := any).
    { apply keeps_modify; auto. intros; now apply (f_progress _ _ _ _ _ F). }
    intros _ _. now apply keeps_save_progress.
  - intros; now apply keeps_ret.
Qed.

Lemma process_episode_unfold (ep : Episode) (w : World) :
  process_episode json_loads json_dumps R ep w
  = match resolve_local_file ep (fs w) with
    | inl e => Raised e w
    | inr None => Done false w
    | inr (Some mp3_path) =>
        if Fs.exist mp3_path (fs w)
        then process_resolved json_loads json_dumps R ep mp3_path w
        else Done false w
    end.
Proof.
  unfold process_episode, bind at 1, get_world.
  destruct (resolve_local_file ep (fs w)) as [e|[mp3|]]; try reflexivity.
  destruct (Fs.exist mp3 (fs w)); reflexivity.
Qed.

Lemma keeps_first_step (mp3_path : Path.t) (present : bool) :
  let flac := Path.with_suffix ".flac" mp3_path in
  okc (Convert mp3_path) ->
  okc (Upload (blob_name_of flac)) ->
  okc (Transcribe (gs_uri (blob_name_of flac))) ->
  okw flac Audio ->
  (forall t, okw (transcript_path (Path.stem mp3_path)) (Text t)) ->
  oku flac -> okp ->
  keeps r any (first_step json_dumps R mp3_path present).
Proof.
  intros flac Hc1 Hc2 Hc3 Hwf Hwt Hu Hp. unfold first_step.
  destruct present.
  - eapply (keeps_bind r r_trans); auto using keeps_read_text.
    intros; now apply keeps_ret.
  - eapply (keeps_bind r r_trans); auto using keeps_convert.
    intros a [-> | ->]; [now apply keeps_ret|].
    now apply keeps_transcribe_step.
Qed.

Lemma keeps_process_resolved (ep : Episode) (mp3_path : Path.t) :
  let flac := Path.with_suffix ".flac" mp3_path in
  (forall c, okc c) ->
  okw flac Audio ->
  (forall t, okw (transcript_path (Path.stem mp3_path)) (Text t)) ->
  (forall j, okw (tags_path (Path.stem mp3_path)) (Doc j)) ->
  oku flac -> okp ->
  keeps r any (process_resolved json_loads json_dumps R ep mp3_path).
Proof.
  intros flac Hc Hwf Hwt Hwg Hu Hp. unfold process_resolved.
  eapply (keeps_bind r r_trans); auto using keeps_path_exists.
  intros present _. eapply (keeps_bind r r_trans) with (V := any).
  - now apply keeps_first_step.
  - intros [transcript|] _; [|now apply keeps_ret].
    eapply (keeps_bind r r_trans); auto using keeps_tag_step.
    intros; now apply keeps_ret.
Qed.

Lemma keeps_process_episode (ep : Episode) :
  (forall c, okc c) ->
  (forall mp3, okw (Path.with_suffix ".flac" mp3) Audio) ->
  (forall mp3 f, resolve_local_file ep f = inr (Some mp3) ->
     (forall t, okw (transcript_path (Path.stem mp3)) (Text t))
     /\ (forall j, okw (tags_path (Path.stem mp3)) (Doc j))
     /\ oku (Path.with_suffix ".flac" mp3)) ->
  okp ->
  keeps r any (process_episode json_loads json_dumps R ep).
Proof.
  intros Hc Hwf Hres Hp w. rewrite process_episode_unfold.
  destruct (resolve_local_file ep (fs w)) as [e|[mp3|]] eqn:E;
    [apply r_refl| |split; [exact I | apply r_refl]].
  destruct (Fs.exist mp3 (fs w)); [|split; [exact I | apply r_refl]].
  destruct (Hres mp3 (fs w) E) as (Ht & Hg & Hu).
  now apply keeps_process_resolved.
Qed.

End Frames.

(** ** The relations the pipeline keeps *)

Section FrameInstances.
Import PathFacts FsFacts.

Lemma path_eq_dec (p q : Path.t) : p = q \/ p <> q.
Proof.
  destruct (Path.eqb p q) eqn:E; [left; now apply eqb_eq | right; now apply eqb_neq].
Qed.

Lemma frame_same_ledger :
  frame same_ledger (fun _ => True) (fun _ _ => True) (fun _ => True) False.
Proof.
  constructor; unfold same_ledger; cbn; try tauto; auto.
  intros a b c [H1 H2] [H3 H4]; split; congruence.
Qed.

Lemma frame_quiet (sel : Call -> bool) :
  frame (quiet sel) (fun c => sel c = false) (fun _ _ => True) (fun _ => True) True.
Proof.
  constructor; unfold quiet; cbn; auto.
  - intros a b c H1 H2; congruence.
  - intros c w Hc. rewrite filter_app; cbn. rewrite Hc. apply app_nil_r.
Qed.

Lemma frame_within_stem (b : string) :
  frame (within_stem b) (fun _ => True)
    (fun p _ => Path.stem p = b) (fun p => Path.stem p = b) True.
Proof.
  constructor; unfold within_stem; cbn; auto.
  - intros x y z H1 H2 p Hp. rewrite H2, H1; auto.
  - intros p c w Hp q Hq. apply read_write_other. congruence.
  - intros p w Hp q Hq. apply read_unlink_other. congruence.
Qed.

Lemma frame_within_file (q : Path.t) :
  frame (within_file q) (fun _ => True)
    (fun p _ => p = q) (fun p => p = q) True.
Proof.
  constructor; unfold within_file; cbn; auto.
  - intros x y z H1 H2 p Hp. rewrite H2, H1; auto.
  - intros p c w -> x Hx. apply read_write_other. congruence.
  - intros p w -> x Hx. apply read_unlink_other. congruence.
Qed.

Lemma frame_lasting :
  frame lasting (fun _ => True)
    (fun p c => Path.suffix p = ".flac" \/ c <> Audio)
    (fun p => Path.suffix p = ".flac") True.
Proof.
  constructor; unfold lasting; cbn; auto.
  - intros x y z H1 H2 p Hp.
    destruct (H1 p Hp) as [E1 A1], (H2 p Hp) as [E2 A2]. split; auto.
  - intros p c w Hc x Hx.
    destruct (path_eq_dec p x) as [->|Hne].
    + destruct Hc as [Hc|Hc]; [contradiction|].
      rewrite exist_write_same, read_write_same. split; congruence.
    + unfold Fs.exist. rewrite read_write_other by assumption. auto.
  - intros p w Hp x Hx.
    assert (Hne : p <> x) by congruence.
    unfold Fs.exist. rewrite read_unlink_other by assumption. auto.
Qed.

End FrameInstances.

(** ** The remote stages, evaluated *)

Section Stages.

Variable json_loads : string -> option json.
Variable json_dumps : json -> string.
Variable R : Remote.

Lemma transcribe_eval (uri : string) (w : World) :
  transcribe_from_gcs R uri w
  = let w1 := after_call (Transcribe uri) w in
    match long_running_recognize R (clock w) uri with
    | None => Raised NetworkError w1
    | Some op =>
        match polling_loop op with
        | None => Hangs
        | Some _ =>
            match outcome op with
            | None => Raised NetworkError w1
            | Some results =>
                match concat_results results with
                | None => Raised IndexError w1
                | Some transcript => Done (Str.strip transcript) w1
                end
            end
        end
    end.
Proof.
  unfold transcribe_from_gcs, bind, invoke, modify, tick; cbn.
  destruct (long_running_recognize R (clock w) uri) as [op|]; [|reflexivity].
  destruct (polling_loop op); [|reflexivity].
  destruct (outcome op) as [results|]; [|reflexivity].
  destruct (concat_results results); reflexivity.
Qed.

Lemma transcribe_raised (uri : string) (w : World) :
  transcribe_raises R (clock w) uri ->
  exists e, transcribe_from_gcs R uri w = Raised e (after_call (Transcribe uri) w).
Proof.
  unfold transcribe_raises; rewrite transcribe_eval; cbn.
  destruct (long_running_recognize R (clock w) uri) as [op|]; [|eauto].
  intros [Hready Hout].
  destruct (ready_after op) as [k|] eqn:Ek; [|congruence].
  rewrite (polling_loop_exits op k Ek).
  destruct (outcome op) as [results|]; [|eauto].
  rewrite Hout; eauto.
Qed.

Lemma transcribe_succeeded (uri : string) (w : World) :
  transcribe_succeeds R (clock w) uri ->
  exists t, t <> EmptyString
    /\ transcribe_from_gcs R uri w = Done t (after_call (Transcribe uri) w).
Proof.
  intros (op & k & results & text & Hop & Hk & Hout & Hcat & Hne).
  rewrite transcribe_eval; cbn.
  rewrite Hop, (polling_loop_exits op k Hk), Hout, Hcat. eauto.
Qed.

(** The first alternatives of the results are the segments. *)
Lemma concat_results_segments (results : list (list string)) (segments : list string) :
  Forall2 (fun alternatives s => hd_error alternatives = Some s) results segments ->
  concat_results results = Some (concat_lines segments).
Proof.
  induction 1 as [|alts s results segments Hhd _ IH]; [reflexivity|].
  cbn. destruct alts as [|a alts]; [discriminate|].
  cbn in Hhd; injection Hhd as ->. now rewrite IH.
Qed.

Lemma tag_episode_eval (transcript title : string) (w : World) :
  tag_episode json_loads R transcript title w
  = let prompt := build_prompt transcript title in
    match generate_content R (clock w) prompt with
    | Some text => Done (parse_response json_loads text) (after_call (Annotate prompt) w)
    | None => Raised NetworkError (after_call (Annotate prompt) w)
    end.
Proof.
  unfold tag_episode, bind, invoke, modify, tick; cbn.
  destruct (generate_content R (clock w) _); reflexivity.
Qed.

Lemma tag_step_eval (base_name transcript title : string) (w : World) :
  tag_step json_loads R base_name transcript title w
  = if Fs.exist (tags_path base_name) (fs w) then Done tt w
    else
      let prompt := build_prompt transcript title in
      match generate_content R (clock w) prompt with
      | Some text =>
          Done tt (tagged_world base_name (parse_response json_loads text)
                     (Annotate prompt) w)
      | None => Done tt (after_call (Annotate prompt) w)
      end.
Proof.
  unfold tag_step, bind at 1, path_exists.
  destruct (Fs.exist (tags_path base_name) (fs w)); [reflexivity|].
  unfold try_except, bind at 1. rewrite tag_episode_eval; cbv zeta.
  destruct (generate_content R (clock w) _); reflexivity.
Qed.

End Stages.

(** * The claims *)

(** ** Transcription *)

(** C2.  The polling loop of the Transcribe executor has no ceiling: for an
    operation that never completes, no number of iterations ends the loop, so
    the executor never returns and never fails.  (The thirty-minute timeout
    of the source is passed to [operation.result], which is only reached once
    the loop has exited.) *)
Theorem transcribe_polls_without_ceiling :
  forall (R : Remote) (uri : string) (w : World) (op : Operation),
    long_running_recognize R (clock w) uri = Some op ->
    ready_after op = None ->
    (forall fuel, poll fuel op 0 = None)
    /\ transcribe_from_gcs R uri w = Hangs.
Proof.
  intros R uri w op Hop Hnever. split.
  - intros fuel. now apply poll_never.
  - rewrite transcribe_eval; cbn. rewrite Hop.
    unfold polling_loop. now rewrite Hnever.
Qed.

Lemma transcribe_polls_without_ceiling_witness :
  long_running_recognize Examples.stuck_remote (clock Examples.start) "gs://b/a.flac"
    = Some (mkOperation None None)
  /\ ready_after (mkOperation None None) = None
  /\ (forall fuel, poll fuel (mkOperation None None) 0 = None)
  /\ transcribe_from_gcs Examples.stuck_remote "gs://b/a.flac" Examples.start = Hangs.
Proof.
  split; [reflexivity|]. split; [reflexivity|].
  apply (transcribe_polls_without_ceiling Examples.stuck_remote "gs://b/a.flac"
           Examples.start (mkOperation None None)); reflexivity.
Defined.

(** The loop does exit for an operation that completes: after as many sleeps
    as it takes the operation to be done. *)
Lemma transcribe_polls_until_done (op : Operation) (k : nat) :
  ready_after op = Some k ->
  forall fuel, k < fuel -> poll fuel op 0 = Some k.
Proof. intros Hk fuel Hf. apply (poll_exits op k Hk k 0 fuel); lia. Qed.

(** C9, as the code has it.  The result of the Transcribe executor is the
    ordered first alternatives of the recognition results joined with
    newlines, with the white space at both ends of the whole removed; and
    when that result is empty the item fails: [process_episode] returns
    [False], no transcript file is written, the progress file is untouched
    and no annotation is requested. *)
Theorem transcript_is_stripped_join :
  forall (json_loads : string -> option json) (json_dumps : json -> string)
         (R : Remote),
    (forall uri w op k results segments,
        long_running_recognize R (clock w) uri = Some op ->
        ready_after op = Some k ->
        outcome op = Some results ->
        Forall2 (fun alternatives s => hd_error alternatives = Some s)
                results segments ->
        transcribe_from_gcs R uri w
        = Done (Str.strip (Str.join Str.nl segments))
               (after_call (Transcribe uri) w))
    /\
    (forall ep mp3 flac uri w w1 w2 w3,
        resolve_local_file ep (fs w) = inr (Some mp3) ->
        Fs.exist mp3 (fs w) = true ->
        Fs.exist (transcript_path (Path.stem mp3)) (fs w) = false ->
        convert_to_flac R mp3 w = Done (Some flac) w1 ->
        upload_to_gcs R flac w1 = Done uri w2 ->
        transcribe_from_gcs R uri w2 = Done EmptyString w3 ->
        process_episode json_loads json_dumps R ep w = Done false w3
        /\ Fs.exist (transcript_path (Path.stem mp3)) (fs w3) = false
        /\ ledger w3 = ledger w
        /\ filter is_annotate (calls w3) = filter is_annotate (calls w)).
Proof.
  intros json_loads json_dumps R. split.
  - intros uri w op k results segments Hop Hk Hout Hseg.
    rewrite transcribe_eval; cbn.
    rewrite Hop, (polling_loop_exits op k Hk), Hout.
    rewrite (concat_results_segments results segments Hseg).
    f_equal. apply StrFacts.assemble_join.
  - intros ep mp3 flac uri w w1 w2 w3 Hres Hmp3 Hno Hconv Hup Htr.
    assert (Hrun : process_episode json_loads json_dumps R ep w = Done false w3).
    { rewrite process_episode_unfold, Hres, Hmp3.
      unfold process_resolved, bind at 1, path_exists. rewrite Hno.
      unfold first_step, bind at 1. unfold bind at 1. rewrite Hconv.
      unfold transcribe_step, try_except, bind at 1. rewrite Hup.
      unfold bind at 1. rewrite Htr. reflexivity. }
    split; [exact Hrun|].
    set (tp := transcript_path (Path.stem mp3)) in *.
    assert (Hflac : flac = Path.with_suffix ".flac" mp3).
    { pose proof (keeps_convert R _ _ _ _ _ frame_same_ledger mp3 I I w) as H.
      rewrite Hconv in H. destruct H as [[H|H] _]; congruence. }
    assert (Hne : tp <> flac) by (subst flac; unfold tp; intros E; discriminate E).
    pose proof (keeps_convert R _ _ _ _ _ (frame_within_file flac) mp3 I
                  (eq_sym Hflac) w) as K1.
    pose proof (keeps_upload R _ _ _ _ _ (frame_within_file flac) flac I w1) as K2.
    pose proof (keeps_transcribe R _ _ _ _ _ (frame_within_file flac) uri I w2) as K3.
    rewrite Hconv in K1; rewrite Hup in K2; rewrite Htr in K3.
    destruct K1 as [_ K1], K2 as [_ K2], K3 as [_ K3].
    split.
    { apply FsFacts.exist_false. apply FsFacts.exist_false in Hno.
      rewrite (K3 tp Hne), (K2 tp Hne), (K1 tp Hne). exact Hno. }
    pose proof (keeps_convert R _ _ _ _ _ frame_same_ledger mp3 I I w) as L1.
    pose proof (keeps_upload R _ _ _ _ _ frame_same_ledger flac I w1) as L2.
    pose proof (keeps_transcribe R _ _ _ _ _ frame_same_ledger uri I w2) as L3.
    rewrite Hconv in L1; rewrite Hup in L2; rewrite Htr in L3.
    destruct L1 as [_ [L1 _]], L2 as [_ [L2 _]], L3 as [_ [L3 _]].
    split; [congruence|].
    pose proof (keeps_convert R _ _ _ _ _ (frame_quiet is_annotate) mp3
                  eq_refl I w) as Q1.
    pose proof (keeps_upload R _ _ _ _ _ (frame_quiet is_annotate) flac
                  eq_refl w1) as Q2.
    pose proof (keeps_transcribe R _ _ _ _ _ (frame_quiet is_annotate) uri
                  eq_refl w2) as Q3.
    rewrite Hconv in Q1; rewrite Hup in Q2; rewrite Htr in Q3.
    destruct Q1 as [_ Q1], Q2 as [_ Q2], Q3 as [_ Q3].
    unfold quiet in *. congruence.
Qed.

Lemma transcript_is_stripped_join_witness :
  let R := Examples.remote [["hello"; "hallo"]; [" world "]] "{}" in
  let quiet_R := Examples.remote [[" "]] "{}" in
  transcribe_from_gcs R "gs://b/a.flac" Examples.start
  = Done ("hello" ++ Str.nl ++ " world")%string
         (after_call (Transcribe "gs://b/a.flac") Examples.start)
  /\ exists w3,
       process_episode Json.loads Examples.dumps quiet_R (Examples.episode "ep1")
         Examples.start = Done false w3
       /\ Fs.exist (transcript_path "ep1") (fs w3) = false
       /\ ledger w3 = None
       /\ filter is_annotate (calls w3) = [].
Proof.
  intros R quiet_R. split.
  - destruct (transcript_is_stripped_join Json.loads Examples.dumps R) as [H _].
    apply (H "gs://b/a.flac" Examples.start
             (mkOperation (Some 2) (Some [["hello"; "hallo"]; [" world "]])) 2
             [["hello"; "hallo"]; [" world "]] ["hello"; " world "]);
      try reflexivity.
    repeat constructor.
  - destruct (transcript_is_stripped_join Json.loads Examples.dumps quiet_R) as [_ H].
    eexists.
    eapply (H (Examples.episode "ep1") (Examples.mp3 "ep1")); reflexivity.
Defined.

(** C9, as the claim words it, fails: the white space that opens the first
    segment and closes the last one is not in the result. *)
Lemma transcript_loses_outer_space :
  let segments := [" hello"; "world "] in
  let R := Examples.remote [[" hello"]; ["world "]] "{}" in
  exists t w',
    transcribe_from_gcs R "gs://b/a.flac" Examples.start = Done t w'
    /\ t = ("hello" ++ Str.nl ++ "world")%string
    /\ t <> Str.join Str.nl segments.
Proof.
  intros segments R. eexists; eexists. split; [reflexivity|].
  split; [reflexivity|]. intros H; discriminate H.
Qed.

(** ** Annotation *)



(** The truncation at work: of a response of 501 characters the record
    holds the first 500. *)
Lemma long_response_is_cut :
  let raw := Examples.replicate 501 "x" in
  Json.loads (response_text raw) = None
  /\ parse_response Json.loads raw
     = JObj [ ("error", JStr "Failed to parse response");
              ("raw", JStr (Examples.replicate 500 "x")) ]
  /\ Examples.replicate 500 "x" <> raw.
Proof.
  intros raw. split; [vm_compute; reflexivity|]. split; [vm_compute; reflexivity|].
  intros H. apply (f_equal String.length) in H. vm_compute in H. discriminate H.
Qed.

(** ** Dictionaries *)

Module DictFacts.
Import Dict.

Section WithValue.
Context {V : Type}.
Implicit Types (d : Dict.t V) (k : string) (v : V).

Lemma get_set_same k v d : get k (set k v d) = Some v.
Proof.
  induction d as [|[k' v'] d IH]; cbn.
  - now rewrite String.eqb_refl.
  - destruct (String.eqb k k') eqn:E; cbn; rewrite E; auto.
Qed.

Lemma get_set_other k k' v d : k <> k' -> get k' (set k v d) = get k' d.
Proof.
  intros Hne; induction d as [|[x v'] d IH]; cbn.
  - apply not_eq_sym, String.eqb_neq in Hne. now rewrite Hne.
  - destruct (String.eqb k x) eqn:E; cbn.
    + apply String.eqb_eq in E; subst x.
      apply not_eq_sym, String.eqb_neq in Hne. now rewrite Hne.
    + destruct (String.eqb k' x); auto.
Qed.

Lemma mem_keys k d : mem k d = true <-> In k (keys d).
Proof.
  unfold mem, keys; induction d as [|[x v'] d IH]; cbn.
  - split; [discriminate | tauto].
  - destruct (String.eqb k x) eqn:E.
    + apply String.eqb_eq in E; subst x. tauto.
    + apply String.eqb_neq in E. rewrite IH. split; [tauto|].
      intros [H|H]; [congruence | exact H].
Qed.

Lemma mem_false_get k d : mem k d = false <-> get k d = None.
Proof. unfold mem; destruct (get k d); split; congruence. Qed.

(** Assigning keeps the keys where they are, and puts a new key last. *)
Lemma keys_set k v d :
  keys (set k v d) = if mem k d then keys d else keys d ++ [k].
Proof.
  unfold mem, keys; induction d as [|[x v'] d IH]; cbn; [reflexivity|].
  destruct (String.eqb k x) eqn:E; cbn; [reflexivity|].
  rewrite IH. destruct (get k d); reflexivity.
Qed.

End WithValue.

End DictFacts.

(** ** Stable sorting *)

Section SortedFacts.
Context {A : Type} (key : A -> Z).

Lemma insert_by_perm (x : A) (l : list A) : Permutation (insert_by key x l) (x :: l).
Proof.
  induction l as [|y l IH]; cbn; [reflexivity|].
  destruct (key x <=? key y)%Z; [reflexivity|].
  rewrite IH. apply perm_swap.
Qed.

(** Sorting loses nothing and adds nothing. *)
Lemma sorted_perm (l : list A) : Permutation (sorted key l) l.
Proof.
  induction l as [|x l IH]; cbn; [reflexivity|].
  rewrite insert_by_perm. now apply perm_skip.
Qed.

Lemma sorted_length (l : list A) : List.length (sorted key l) = List.length l.
Proof. apply Permutation_length, sorted_perm. Qed.

(** [before] is any order the input already has; [ranked] puts the key first
    and [before] second. *)
Variable before : A -> A -> Prop.

Lemma insert_by_ranked (x : A) (l : list A) :
  StronglySorted (ranked key before) l -> Forall (before x) l ->
  StronglySorted (ranked key before) (insert_by key x l).
Proof.
  induction 1 as [|y l Hl IH Hy]; intros Hx; cbn.
  - constructor; constructor.
  - apply Forall_cons_iff in Hx as [Hxy Hxl].
    destruct (key x <=? key y)%Z eqn:E.
    + apply Z.leb_le in E.
      constructor; [constructor; assumption|].
      constructor.
      * unfold ranked. destruct (Z.eq_dec (key x) (key y)); [right | left]; auto. lia.
      * rewrite Forall_forall in *. intros z Hz.
        specialize (Hy z Hz). specialize (Hxl z Hz).
        unfold ranked in *.
        destruct (Z.eq_dec (key x) (key z)); [right; auto | left]. lia.
    + apply Z.leb_gt in E.
      constructor; [now apply IH|].
      rewrite (insert_by_perm x l).
      constructor; [left; exact E | exact Hy].
Qed.

(** The sort is stable: on a list that is in [before] order, the result is in
    key order, and in [before] order among equal keys. *)
Lemma sorted_ranked (l : list A) :
  StronglySorted before l -> StronglySorted (ranked key before) (sorted key l).
Proof.
  induction 1 as [|x l Hl IH Hx]; cbn; [constructor|].
  apply insert_by_ranked; [exact IH|].
  now rewrite (sorted_perm l).
Qed.

End SortedFacts.

Lemma In_firstn {A : Type} (x : A) (n : nat) (l : list A) :
  In x (firstn n l) -> In x l.
Proof.
  revert l; induction n as [|n IH]; intros [|y l]; cbn; try tauto.
  intros [H|H]; auto.
Qed.

Lemma StronglySorted_firstn {A : Type} (R : A -> A -> Prop) (n : nat) (l : list A) :
  StronglySorted R l -> StronglySorted R (firstn n l).
Proof.
  intros H; revert n; induction H as [|x l Hl IH Hx]; intros [|n]; cbn;
    try constructor; auto.
  rewrite Forall_forall in *. intros y Hy. apply Hx.
  now apply (In_firstn y n l).
Qed.

Lemma StronglySorted_map {A B : Type} (f : A -> B) (R : B -> B -> Prop) (l : list A) :
  StronglySorted R (map f l) -> StronglySorted (fun a b => R (f a) (f b)) l.
Proof.
  induction l as [|x l IH]; cbn; intros H; [constructor|].
  inversion H as [|? ? Hl Hx]; subst. constructor; auto.
  now rewrite Forall_map in Hx.
Qed.

Lemma StronglySorted_snoc {A : Type} (R : A -> A -> Prop) (l : list A) (x : A) :
  StronglySorted R l -> Forall (fun a => R a x) l -> StronglySorted R (l ++ [x]).
Proof.
  induction 1 as [|y l Hl IH Hy]; intros Hx; cbn.
  - constructor; constructor.
  - apply Forall_cons_iff in Hx as [Hyx Hlx].
    constructor; auto. apply Forall_app; auto.
Qed.

Lemma StronglySorted_impl {A : Type} (R R' : A -> A -> Prop) (l : list A) :
  (forall a b, In a l -> In b l -> R a b -> R' a b) ->
  StronglySorted R l -> StronglySorted R' l.
Proof.
  intros Himp H; induction H as [|x l Hl IH Hx]; [constructor|].
  constructor.
  - apply IH. intros a b Ha Hb; apply Himp; now right.
  - rewrite Forall_forall in *. intros y Hy.
    apply Himp; [now left | now right | auto].
Qed.

(** ** Counting *)

Module TallyFacts.
Import Dict DictFacts Tally.

Lemma first_seen_lt (occ : list string) (k : string) :
  In k occ -> first_seen occ k < List.length occ.
Proof.
  induction occ as [|x occ IH]; cbn; [tauto|].
  destruct (String.eqb x k) eqn:E; [lia|].
  apply String.eqb_neq in E. intros [H|H]; [congruence|].
  specialize (IH H); lia.
Qed.

Lemma first_seen_app_in (occ more : list string) (k : string) :
  In k occ -> first_seen (occ ++ more) k = first_seen occ k.
Proof.
  induction occ as [|x occ IH]; cbn; [tauto|].
  destruct (String.eqb x k) eqn:E; [reflexivity|].
  apply String.eqb_neq in E. intros [H|H]; [congruence | now rewrite IH].
Qed.

Lemma first_seen_app_new (occ : list string) (k : string) :
  ~ In k occ -> first_seen (occ ++ [k]) k = List.length occ.
Proof.
  induction occ as [|x occ IH]; cbn.
  - now rewrite String.eqb_refl.
  - intros H. destruct (String.eqb x k) eqn:E.
    + apply String.eqb_eq in E. tauto.
    + rewrite IH; tauto.
Qed.

Lemma bump_all_app (a b : list string) (d : Dict.t Z) :
  bump_all (a ++ b) d = bump_all b (bump_all a d).
Proof. apply fold_left_app. Qed.

Lemma keys_bump (x : string) (d : Dict.t Z) :
  keys (Agg.bump x d) = if mem x d then keys d else keys d ++ [x].
Proof. apply keys_set. Qed.

(** The keys of the tally are the keys met. *)
Lemma keys_in (occ : list string) (k : string) :
  In k (keys (bump_all occ [])) <-> In k occ.
Proof.
  induction occ as [|x occ IH] using rev_ind; [cbn; tauto|].
  rewrite bump_all_app; cbn [bump_all fold_left]. rewrite keys_bump.
  rewrite in_app_iff; cbn.
  destruct (mem x (bump_all occ [])) eqn:E.
  - apply mem_keys in E. split; [tauto|].
    intros [H|[<-|[]]]; [tauto|assumption].
  - rewrite in_app_iff; cbn. tauto.
Qed.

(** They stand in the order in which they were first met. *)
Lemma keys_sorted (occ : list string) :
  StronglySorted (fun a b => first_seen occ a < first_seen occ b)
    (keys (bump_all occ [])).
Proof.
  induction occ as [|x occ IH] using rev_ind; [constructor|].
  rewrite bump_all_app; cbn [bump_all fold_left]. rewrite keys_bump.
  destruct (mem x (bump_all occ [])) eqn:E.
  - eapply StronglySorted_impl; [|exact IH].
    intros a b Ha Hb Hab.
    apply (proj1 (keys_in _ _)) in Ha. apply (proj1 (keys_in _ _)) in Hb.
    rewrite (first_seen_app_in occ [x] a Ha), (first_seen_app_in occ [x] b Hb).
    exact Hab.
  - assert (Hx : ~ In x occ).
    { rewrite <- keys_in, <- mem_keys. congruence. }
    apply StronglySorted_snoc.
    + eapply StronglySorted_impl; [|exact IH].
      intros a b Ha Hb Hab.
    apply (proj1 (keys_in _ _)) in Ha. apply (proj1 (keys_in _ _)) in Hb.
      rewrite (first_seen_app_in occ [x] a Ha), (first_seen_app_in occ [x] b Hb).
    exact Hab.
    + apply Forall_forall. intros a Ha. apply (proj1 (keys_in _ _)) in Ha.
      rewrite (first_seen_app_in occ [x] a Ha), (first_seen_app_new occ x Hx).
      now apply first_seen_lt.
Qed.

Lemma keys_nodup (occ : list string) : NoDup (keys (bump_all occ [])).
Proof.
  induction occ as [|x occ IH] using rev_ind; [constructor|].
  rewrite bump_all_app; cbn [bump_all fold_left]. rewrite keys_bump.
  destruct (mem x (bump_all occ [])) eqn:E; [exact IH|].
  apply NoDup_app; [exact IH | repeat constructor; tauto|].
  intros a Ha [<-|[]]. apply mem_keys in Ha. congruence.
Qed.

Lemma get_bump (x k : string) (d : Dict.t Z) :
  get k (Agg.bump x d)
  = if String.eqb x k
    then Some (match get k d with Some n => n | None => 0%Z end + 1)%Z
    else get k d.
Proof.
  unfold Agg.bump. destruct (String.eqb x k) eqn:E.
  - apply String.eqb_eq in E; subst. apply get_set_same.
  - apply String.eqb_neq in E. now apply get_set_other.
Qed.

(** Every key holds the number of times it was met. *)
Lemma get_bump_all (occ : list string) (d : Dict.t Z) (k : string) :
  get k (bump_all occ d)
  = match count_occ string_dec occ k with
    | O => get k d
    | S n => Some (match get k d with Some z => z | None => 0%Z end
                   + Z.of_nat (S n))%Z
    end.
Proof.
  revert d; induction occ as [|x occ IH]; intros d; [reflexivity|].
  cbn [bump_all fold_left count_occ].
  change (fold_left (fun d k => Agg.bump k d) occ (Agg.bump x d))
    with (bump_all occ (Agg.bump x d)).
  rewrite IH, get_bump.
  destruct (string_dec x k) as [->|Hne].
  - rewrite String.eqb_refl.
    destruct (count_occ string_dec occ k); f_equal; lia.
  - apply String.eqb_neq in Hne. rewrite Hne. reflexivity.
Qed.

Lemma In_get {V : Type} (k : string) (v : V) (d : Dict.t V) :
  NoDup (keys d) -> In (k, v) d -> get k d = Some v.
Proof.
  unfold keys; induction d as [|[x y] d IH]; cbn; [tauto|].
  intros Hnd [H|H].
  - injection H as -> ->. now rewrite String.eqb_refl.
  - inversion Hnd as [|? ? Hx Hd]; subst.
    destruct (String.eqb k x) eqn:E.
    + apply String.eqb_eq in E; subst x. exfalso. apply Hx.
      now apply (in_map fst) in H.
    + auto.
Qed.

(** An entry of the tally holds its key's count, which is positive. *)
Lemma entry_times (occ : list string) (k : string) (n : Z) :
  In (k, n) (bump_all occ []) -> n = times occ k /\ In k occ.
Proof.
  intros H. pose proof (in_map fst _ _ H) as Hk. cbn in Hk.
  apply (In_get k n _ (keys_nodup occ)) in H.
  rewrite get_bump_all in H. unfold times. cbn in H.
  split.
  - destruct (count_occ string_dec occ k); [discriminate|].
    injection H as <-. lia.
  - now apply keys_in.
Qed.

End TallyFacts.

(** ** The scan of the aggregator *)

Module AggFacts.
Import Dict DictFacts Tally TallyFacts Agg.

Lemma count_tags_bump (tags : list json) (d d' : Dict.t Z) :
  count_tags tags d = inr d' ->
  d' = bump_all (map Str.lower (strings_of tags)) d.
Proof.
  revert d; induction tags as [|j tags IH]; intros d; cbn.
  - intros H; now injection H as <-.
  - destruct j; try discriminate. intros H. apply IH in H. exact H.
Qed.

Lemma count_field_bump (key : string) (data : json) (d d' : Dict.t Z) :
  count_field key data d = inr d' ->
  d' = bump_all (map Str.lower (field_tags key data)) d.
Proof.
  unfold count_field, field_tags.
  destruct (get_or key (JArr []) data) as [e|v]; [discriminate|].
  destruct (iterate v) as [e|tags]; [discriminate|].
  apply count_tags_bump.
Qed.

(** A document with ["error"] in it leaves the accumulators as they are. *)
Lemma visit_error (acc : Counters) (file : string) (data : json) :
  has_error data = inr true -> visit acc file data = inr acc.
Proof. unfold visit; intros ->; reflexivity. Qed.

Lemma visit_counted (acc acc' : Counters) (file : string) (data : json) :
  visit acc file data = inr acc' ->
  if counted data
  then all_tech_tags acc'
       = bump_all (map Str.lower (field_tags "tech_tags" data)) (all_tech_tags acc)
       /\ all_business_tags acc'
          = bump_all (map Str.lower (field_tags "business_tags" data))
                     (all_business_tags acc)
       /\ all_topics acc'
          = bump_all (map Str.lower (field_tags "key_topics" data)) (all_topics acc)
       /\ map sm_file (episodes_summary acc')
          = map sm_file (episodes_summary acc) ++ [file]
  else acc' = acc.
Proof.
  unfold visit, counted.
  destruct (has_error data) as [e|[|]]; [discriminate | congruence |].
  destruct (count_field "tech_tags" data _) as [e|tech] eqn:E1; [discriminate|].
  destruct (count_field "business_tags" data _) as [e|biz] eqn:E2; [discriminate|].
  destruct (count_field "key_topics" data _) as [e|top] eqn:E3; [discriminate|].
  apply count_field_bump in E1, E2, E3.
  destruct (get_or "summary" _ data) as [e|s]; [discriminate|].
  destruct (get_or "guest" _ data) as [e|g]; [discriminate|].
  destruct (get_or "tech_tags" _ data) as [e|t]; [discriminate|].
  intros H; injection H as <-; cbn.
  rewrite map_app. auto.
Qed.

(** What the scan has counted and listed when it ends. *)
Lemma scan_tally (files : list (string * json)) (acc acc' : Counters) :
  scan files acc = inr acc' ->
  all_tech_tags acc' = bump_all (occurrences "tech_tags" files) (all_tech_tags acc)
  /\ all_business_tags acc'
     = bump_all (occurrences "business_tags" files) (all_business_tags acc)
  /\ all_topics acc' = bump_all (occurrences "key_topics" files) (all_topics acc)
  /\ map sm_file (episodes_summary acc')
     = map sm_file (episodes_summary acc)
       ++ map fst (filter (fun fd => counted (snd fd)) files).
Proof.
  revert acc; induction files as [|[file data] files IH]; intros acc; cbn.
  - intros H; injection H as <-. now rewrite app_nil_r.
  - destruct (visit acc file data) as [e|acc1] eqn:V; [discriminate|].
    intros H. apply IH in H. apply visit_counted in V.
    unfold occurrences, raw_tags in *; cbn [flat_map snd].
    destruct H as (H1 & H2 & H3 & H4).
    destruct (counted data).
    + destruct V as (V1 & V2 & V3 & V4).
      rewrite !map_app, !bump_all_app, <- V1, <- V2, <- V3, H4, V4.
      cbn. now rewrite <- app_assoc.
    + subst acc1. auto.
Qed.

(** An erroneous document anywhere in the scan changes nothing. *)
Lemma scan_skips_error (before after : list (string * json)) (file : string)
  (data : json) (acc : Counters) :
  has_error data = inr true ->
  scan (before ++ (file, data) :: after) acc = scan (before ++ after) acc.
Proof.
  intros Herr; revert acc; induction before as [|[f d] before IH]; intros acc; cbn.
  - now rewrite visit_error.
  - destruct (visit acc f d); [reflexivity | apply IH].
Qed.

Lemma aggregate_tops (stamp : string) (files : list (string * json)) (a : Analysis) :
  aggregate stamp files = inr a ->
  top_tech_themes a = firstn 25 (category_ranking "tech_tags" files)
  /\ top_business_themes a = firstn 20 (category_ranking "business_tags" files)
  /\ top_topics a = firstn 20 (category_ranking "key_topics" files)
  /\ map sm_file (episodes a) = map fst (filter (fun fd => counted (snd fd)) files)
  /\ episodes_analyzed a = Z.of_nat (List.length (episodes a)).
Proof.
  unfold aggregate. destruct (scan files empty) as [e|acc] eqn:E; [discriminate|].
  intros H; injection H as <-. apply scan_tally in E.
  destruct E as (E1 & E2 & E3 & E4). cbn in *.
  unfold category_ranking. now rewrite E1, E2, E3, E4.
Qed.

(** The full ranking of a category is ranked: counts first, first met
    second. *)
Lemma category_ranking_ranked (key : string) (files : list (string * json)) :
  ranked_by (occurrences key files) (category_ranking key files).
Proof.
  unfold ranked_by, category_ranking, rank.
  set (occ := occurrences key files).
  eapply StronglySorted_impl;
    [|apply (sorted_ranked (fun x : string * Z => (- snd x)%Z)
               (fun a b => first_seen occ (fst a) < first_seen occ (fst b)))].
  - intros a b _ _ [H|[H1 H2]]; [left; lia | right; split; [lia | exact H2]].
  - apply StronglySorted_map with (f := fst) (R := fun a b => first_seen occ a < first_seen occ b).
    apply keys_sorted.
Qed.

(** It lists every key met, once, with the number of times it was met. *)
Lemma category_ranking_counts (key : string) (files : list (string * json))
  (k : string) (n : Z) :
  In (k, n) (category_ranking key files)
  <-> In k (occurrences key files) /\ n = times (occurrences key files) k.
Proof.
  unfold category_ranking, rank.
  set (occ := occurrences key files).
  split.
  - intros H. apply (Permutation_in _ (sorted_perm _ _)) in H.
    apply entry_times in H. tauto.
  - intros [Hk ->]. apply keys_in in Hk. unfold keys in Hk.
    apply in_map_iff in Hk as ([k' v] & Hfst & Hin). cbn in Hfst; subst k'.
    destruct (entry_times occ k v Hin) as [-> _].
    apply (Permutation_in _ (Permutation_sym (sorted_perm _ _))). exact Hin.
Qed.

End AggFacts.

(** ** The aggregator on the files *)

Section IndexFacts.
Import PathFacts FsFacts.

Variable json_loads : string -> option json.
Variable R : Remote.

Lemma scan_files_loaded (files : list (Path.t * content)) (acc acc' : Agg.Counters) :
  scan_files json_loads files acc = inr acc' ->
  Agg.scan (loaded json_loads files) acc = inr acc'.
Proof.
  revert acc; induction files as [|[p c] files IH]; intros acc; cbn; [auto|].
  destruct (load_json json_loads c) as [e|data]; [discriminate|]. cbn.
  destruct (Agg.visit acc (Path.stem p) data); [discriminate | apply IH].
Qed.

Lemma glob_write_elsewhere (dir ext : string) (p : Path.t) (c : content) (f : Fs.t) :
  Path.parent p <> dir -> Fs.glob dir ext (Fs.write p c f) = Fs.glob dir ext f.
Proof.
  intros Hp. apply String.eqb_neq in Hp.
  unfold Fs.glob; induction f as [|[q c'] f IH]; cbn.
  - now rewrite Hp.
  - destruct (Path.eqb p q) eqn:E; cbn.
    + apply eqb_eq in E; subst q. now rewrite Hp.
    + now rewrite IH.
Qed.

(** Writing the index leaves the annotation artifacts as they are. *)
Lemma annotations_after_index (j : json) (w : World) :
  annotations json_loads (set_fs (Fs.write index_path (Doc j) (fs w)) w)
  = annotations json_loads w.
Proof.
  unfold annotations, set_fs; cbn [fs].
  now rewrite glob_write_elsewhere by discriminate.
Qed.

(** A run of the aggregator that ends is [Agg.aggregate] on the annotation
    artifacts. *)
Lemma build_analysis_index_done (w w' : World) (a : Agg.Analysis) :
  build_analysis_index json_loads R w = Done a w' ->
  Agg.aggregate (now R (clock w)) (annotations json_loads w) = inr a
  /\ w' = set_fs (Fs.write index_path (Doc (Agg.analysis_json a)) (fs w)) w.
Proof.
  unfold build_analysis_index, Agg.aggregate, annotations.
  destruct (scan_files _ _ _) as [e|acc] eqn:E; [discriminate|].
  apply scan_files_loaded in E. rewrite E.
  intros H; injection H as <- <-. auto.
Qed.

End IndexFacts.

(** ** Aggregation *)

Section AggregationClaims.
Import Agg Tally AggFacts.

Lemma scan_files_skips_error (json_loads : string -> option json)
  (before after : list (Path.t * content)) (p : Path.t) (c : content)
  (data : json) (acc : Counters) :
  load_json json_loads c = inr data -> has_error data = inr true ->
  scan_files json_loads (before ++ (p, c) :: after) acc
  = scan_files json_loads (before ++ after) acc.
Proof.
  intros Hload Herr; revert acc.
  induction before as [|[q c'] before IH]; intros acc; cbn.
  - now rewrite Hload, visit_error.
  - destruct (load_json json_loads c'); [reflexivity|].
    destruct (visit acc (Path.stem q) j); [reflexivity | apply IH].
Qed.

(** C5.  Two runs of the aggregator over the same annotation files yield the
    same ranked lists (and the same per-item list), whatever the time of the
    run; and every ranked list is in descending order of count, two keys
    with the same count standing in the order in which they were first met
    in the scan. *)
Theorem aggregation_is_deterministic :
  forall (json_loads : string -> option json) (R R' : Remote)
         (w w1 w2 : World) (a : Analysis),
    build_analysis_index json_loads R w = Done a w1 ->
    fs w2 = fs w1 ->
    (exists a' w3,
        build_analysis_index json_loads R' w2 = Done a' w3
        /\ top_tech_themes a' = top_tech_themes a
        /\ top_business_themes a' = top_business_themes a
        /\ top_topics a' = top_topics a
        /\ episodes a' = episodes a)
    /\ ranked_by (occurrences "tech_tags" (annotations json_loads w))
                 (top_tech_themes a)
    /\ ranked_by (occurrences "business_tags" (annotations json_loads w))
                 (top_business_themes a)
    /\ ranked_by (occurrences "key_topics" (annotations json_loads w))
                 (top_topics a).
Proof.
  intros json_loads R R' w w1 w2 a Hrun Hfs. split.
  - destruct (build_analysis_index_done json_loads R w w1 a Hrun) as [_ Hw1].
    revert Hrun. unfold build_analysis_index. rewrite Hfs, Hw1.
    unfold set_fs; cbn [fs]. rewrite glob_write_elsewhere by discriminate.
    destruct (scan_files json_loads _ empty) as [e|acc]; [discriminate|].
    intros H; injection H as <- _. eexists; eexists.
    split; [reflexivity|]. cbn. auto.
  - apply build_analysis_index_done in Hrun as [Hagg _].
    apply aggregate_tops in Hagg as (-> & -> & -> & _).
    repeat split; apply StronglySorted_firstn, category_ranking_ranked.
Qed.

Lemma aggregation_is_deterministic_witness :
  let R := Examples.remote [] "{}" in
  let R' := Examples.stuck_remote in
  match build_analysis_index Json.loads R Examples.tagged_tree with
  | Done a w1 =>
      top_tech_themes a = [("mlflow", 2%Z); ("kubernetes", 1%Z); ("ray", 1%Z)]
      /\ (exists a' w3,
            build_analysis_index Json.loads R' (advance w1) = Done a' w3
            /\ top_tech_themes a' = top_tech_themes a
            /\ top_business_themes a' = top_business_themes a
            /\ top_topics a' = top_topics a
            /\ episodes a' = episodes a)
      /\ ranked_by (occurrences "tech_tags"
                      (annotations Json.loads Examples.tagged_tree))
                   (top_tech_themes a)
  | _ => False
  end.
Proof.
  intros R R'.
  destruct (build_analysis_index Json.loads R Examples.tagged_tree)
    as [a w1|e w1|] eqn:E; [|discriminate E|discriminate E].
  pose proof (aggregation_is_deterministic Json.loads R R' Examples.tagged_tree
                w1 (advance w1) a E eq_refl) as H.
  destruct H as (H1 & H2 & _).
  split; [|split; [exact H1 | exact H2]].
  vm_compute in E. injection E as <- _. reflexivity.
Defined.

(** C6.  The aggregator counts every tag and topic under its lower-cased
    text, one count per occurrence over all the documents it counts, and
    cuts the ranking of technology tags to 25 entries and those of business
    tags and of topics to 20 entries each. *)
Theorem tags_are_counted_case_folded :
  forall (json_loads : string -> option json) (R : Remote)
         (w w' : World) (a : Analysis),
    build_analysis_index json_loads R w = Done a w' ->
    let files := annotations json_loads w in
    top_tech_themes a = firstn 25 (category_ranking "tech_tags" files)
    /\ top_business_themes a = firstn 20 (category_ranking "business_tags" files)
    /\ top_topics a = firstn 20 (category_ranking "key_topics" files)
    /\ List.length (top_tech_themes a) <= 25
    /\ List.length (top_business_themes a) <= 20
    /\ List.length (top_topics a) <= 20
    /\ forall key k n,
         In (k, n) (category_ranking key files)
         <-> In k (map Str.lower (raw_tags key files))
             /\ n = Z.of_nat (count_occ string_dec
                                (map Str.lower (raw_tags key files)) k).
Proof.
  intros json_loads R w w' a Hrun files.
  apply build_analysis_index_done in Hrun as [Hagg _].
  apply aggregate_tops in Hagg as (-> & -> & -> & _).
  repeat (split; [reflexivity || apply firstn_le_length|]).
  intros key k n. apply category_ranking_counts.
Qed.

Lemma tags_are_counted_case_folded_witness :
  let R := Examples.remote [] "{}" in
  match build_analysis_index Json.loads R Examples.tagged_tree with
  | Done a w' =>
      raw_tags "tech_tags" (annotations Json.loads Examples.tagged_tree)
      = ["Kubernetes"; "MLflow"; "mlflow"; "Ray"]
      /\ top_tech_themes a = [("mlflow", 2%Z); ("kubernetes", 1%Z); ("ray", 1%Z)]
      /\ top_tech_themes a
         = firstn 25 (category_ranking "tech_tags"
                        (annotations Json.loads Examples.tagged_tree))
      /\ List.length (top_tech_themes a) <= 25
  | _ => False
  end.
Proof.
  intros R.
  destruct (build_analysis_index Json.loads R Examples.tagged_tree)
    as [a w1|e w1|] eqn:E; [|discriminate E|discriminate E].
  pose proof (tags_are_counted_case_folded Json.loads R Examples.tagged_tree
                w1 a E) as H.
  cbv zeta in H. destruct H as (H1 & _ & _ & H4 & _).
  split; [reflexivity|]. split; [|split; [exact H1 | exact H4]].
  vm_compute in E. injection E as <- _. reflexivity.
Defined.

(** C8, as the code has it.  An annotation file that holds an erroneous
    document (one with ["error"] in it) changes nothing in the run of the
    aggregator: the run ends as the run over the other files ends, with the
    same counts and the same number of items analysed, and the per-item list
    holds the other counted files only. *)
Theorem erroneous_annotation_is_skipped :
  forall (json_loads : string -> option json) (R : Remote) (w : World)
         (before after : list (Path.t * content)) (p : Path.t) (data : json),
    Fs.glob TAGS_DIR ".json" (fs w) = before ++ (p, Doc data) :: after ->
    has_error data = inr true ->
    build_analysis_index json_loads R w
    = match scan_files json_loads (before ++ after) empty with
      | inl e => Raised e w
      | inr acc =>
          let analysis := summarise (now R (clock w)) acc in
          Done analysis
            (set_fs (Fs.write index_path (Doc (analysis_json analysis)) (fs w)) w)
      end
    /\ forall a w',
         build_analysis_index json_loads R w = Done a w' ->
         let others := loaded json_loads (before ++ after) in
         top_tech_themes a = firstn 25 (category_ranking "tech_tags" others)
         /\ top_business_themes a = firstn 20 (category_ranking "business_tags" others)
         /\ top_topics a = firstn 20 (category_ranking "key_topics" others)
         /\ map sm_file (episodes a)
            = map fst (filter (fun fd => counted (snd fd)) others)
         /\ episodes_analyzed a = Z.of_nat (List.length (episodes a)).
Proof.
  intros json_loads R w before after p data Hglob Herr.
  assert (Hscan : scan_files json_loads (Fs.glob TAGS_DIR ".json" (fs w)) empty
                  = scan_files json_loads (before ++ after) empty).
  { rewrite Hglob. now apply scan_files_skips_error with (data := data). }
  split.
  - unfold build_analysis_index. now rewrite Hscan.
  - intros a w'. unfold build_analysis_index. rewrite Hscan.
    destruct (scan_files json_loads (before ++ after) empty) as [e|acc] eqn:E;
      [discriminate|].
    intros H; injection H as <- _. cbv zeta.
    apply scan_files_loaded in E.
    apply (aggregate_tops (now R (clock w))).
    unfold aggregate. now rewrite E.
Qed.

Lemma erroneous_annotation_is_skipped_witness :
  let R := Examples.remote [] "{}" in
  match build_analysis_index Json.loads R Examples.tagged_tree with
  | Done a w' =>
      has_error (error_variant "not json") = inr true
      /\ map sm_file (episodes a)
         = map fst (filter (fun fd => counted (snd fd))
                      [ ("ep1", Examples.annotation ["Kubernetes"; "MLflow"]
                                  ["ROI"] ["Serving"]);
                        ("ep3", Examples.annotation ["mlflow"; "Ray"]
                                  ["roi"; "Hiring"] ["Agents"]) ])
      /\ episodes_analyzed a = Z.of_nat (List.length (episodes a))
  | _ => False
  end.
Proof.
  intros R.
  destruct (build_analysis_index Json.loads R Examples.tagged_tree)
    as [a w1|e w1|] eqn:E; [|discriminate E|discriminate E].
  pose proof (erroneous_annotation_is_skipped Json.loads R Examples.tagged_tree
       [(tags_path "ep1",
         Doc (Examples.annotation ["Kubernetes"; "MLflow"] ["ROI"] ["Serving"]))]
       [(tags_path "ep3",
         Doc (Examples.annotation ["mlflow"; "Ray"] ["roi"; "Hiring"] ["Agents"]))]
       (tags_path "ep2") (error_variant "not json") eq_refl eq_refl) as H.
  destruct H as [_ H]. specialize (H a w1 E). cbv zeta in H.
  destruct H as (_ & _ & _ & H4 & H5).
  split; [reflexivity|]. split; [exact H4 | exact H5].
Defined.

(** C8, as the claim words it, fails: the erroneous annotation of the item
    [ep2] is not in the per-item list of the index. *)
Lemma erroneous_annotation_is_not_listed :
  exists a w',
    build_analysis_index Json.loads (Examples.remote [] "{}") Examples.tagged_tree
    = Done a w'
    /\ Fs.read (tags_path "ep2") (fs Examples.tagged_tree)
       = Some (Doc (error_variant "not json"))
    /\ map sm_file (episodes a) = ["ep1"; "ep3"]
    /\ ~ In "ep2" (map sm_file (episodes a)).
Proof.
  eexists; eexists. split; [reflexivity|]. split; [reflexivity|].
  split; [reflexivity|].
  cbn. intros [H|[H|[]]]; discriminate H.
Qed.

End AggregationClaims.

(** ** Running the steps of an item *)

Section Running.

Lemma bind_done {A B} (m : M A) (k : A -> M B) (w w1 : World) (a : A) :
  m w = Done a w1 -> bind m k w = k a w1.
Proof. unfold bind; now intros ->. Qed.

Lemma bind_raised {A B} (m : M A) (k : A -> M B) (w w1 : World) (e : exn) :
  m w = Raised e w1 -> bind m k w = Raised e w1.
Proof. unfold bind; now intros ->. Qed.

Lemma bind_hangs {A B} (m : M A) (k : A -> M B) (w : World) :
  m w = Hangs -> bind m k w = Hangs.
Proof. unfold bind; now intros ->. Qed.

Lemma try_done {A} (m : M A) (h : exn -> M A) (w w1 : World) (a : A) :
  m w = Done a w1 -> try_except m h w = Done a w1.
Proof. unfold try_except; now intros ->. Qed.

Lemma try_raised {A} (m : M A) (h : exn -> M A) (w w1 : World) (e : exn) :
  m w = Raised e w1 -> try_except m h w = h e w1.
Proof. unfold try_except; now intros ->. Qed.

Lemma try_hangs {A} (m : M A) (h : exn -> M A) (w : World) :
  m w = Hangs -> try_except m h w = Hangs.
Proof. unfold try_except; now intros ->. Qed.

Variable json_loads : string -> option json.
Variable json_dumps : json -> string.
Variable R : Remote.

(** Step 2 always ends, and normally. *)
Lemma tag_step_ends (base_name transcript title : string) (w : World) :
  exists w', tag_step json_loads R base_name transcript title w = Done tt w'.
Proof.
  rewrite tag_step_eval.
  destruct (Fs.exist _ _); [eauto|]. cbv zeta.
  destruct (generate_content R (clock w) _); eauto.
Qed.

(** The exception handler of step 1 ends normally, having touched the FLAC
    file only. *)
Lemma cleanup_eval (flac_path : Path.t) (w : World) :
  (present <- path_exists flac_path ;;
   (if present then unlink flac_path else ret tt) ;;; ret (@None string)) w
  = Done None (if Fs.exist flac_path (fs w)
               then set_fs (Fs.unlink flac_path (fs w)) w else w).
Proof.
  unfold bind, path_exists. destruct (Fs.exist flac_path (fs w)); reflexivity.
Qed.

(** What is left of step 1 once the transcript [t] is there. *)
Lemma save_transcript_eval (base_name : string) (flac_path : Path.t)
  (t : string) (w : World) :
  exists w',
    (write_file (transcript_path base_name) (Text t) ;;;
     present <- path_exists flac_path ;;
     (if present then unlink flac_path else ret tt) ;;;
     modify (fun w => set_progress (append_transcribed base_name (progress w)) w) ;;;
     save_progress ;;;
     ret (Some t)) w = Done (Some t) w'
    /\ (flac_path <> transcript_path base_name ->
        Fs.exist (transcript_path base_name) (fs w') = true).
Proof.
  unfold bind, write_file, modify, path_exists; cbn.
  destruct (Fs.exist flac_path _); cbn; eexists; (split; [reflexivity|]);
    intros Hne; cbn; unfold Fs.exist;
    try rewrite FsFacts.read_unlink_other by assumption;
    now rewrite FsFacts.read_write_same.
Qed.

(** Step 1 of an item that fails leaves the progress and its file alone. *)
Lemma transcribe_step_ledger (base_name : string) (flac_path : Path.t) (w : World) :
  match transcribe_step R base_name flac_path w with
  | Done None w' => same_ledger w w'
  | Done (Some _) _ => True
  | Raised _ w' => same_ledger w w'
  | Hangs => True
  end.
Proof.
  pose proof frame_same_ledger as F.
  pose proof (f_trans _ _ _ _ _ F) as Tr.
  unfold transcribe_step.
  pose proof (keeps_upload R _ _ _ _ _ F flac_path I w) as Hu.
  destruct (upload_to_gcs R flac_path w) as [uri w1|e w1|] eqn:Eu.
  - destruct Hu as [_ Hu].
    pose proof (keeps_transcribe R _ _ _ _ _ F uri I w1) as Ht.
    destruct (transcribe_from_gcs R uri w1) as [t w2|e w2|] eqn:Et.
    + destruct Ht as [_ Ht].
      destruct (Str.is_empty t) eqn:Em.
      * erewrite try_done; [|erewrite bind_done; [|exact Eu];
                             erewrite bind_done; [|exact Et]; rewrite Em; reflexivity].
        exact (Tr _ _ _ Hu Ht).
      * destruct (save_transcript_eval base_name flac_path t w2) as [w3 [E3 _]].
        erewrite try_done; [|erewrite bind_done; [|exact Eu];
                             erewrite bind_done; [|exact Et]; rewrite Em; exact E3].
        exact I.
    + erewrite try_raised; [|erewrite bind_done; [|exact Eu];
                             erewrite bind_raised; [|exact Et]; reflexivity].
      rewrite cleanup_eval.
      apply (Tr _ w2); [exact (Tr _ _ _ Hu Ht)|].
      destruct (Fs.exist flac_path (fs w2)); [|apply (f_refl _ _ _ _ _ F)].
      apply (f_unlink _ _ _ _ _ F). exact I.
    + erewrite try_hangs; [exact I|].
      erewrite bind_done; [|exact Eu]. apply bind_hangs; exact Et.
  - erewrite try_raised; [|apply bind_raised; exact Eu].
    rewrite cleanup_eval.
    apply (Tr _ w1); [exact Hu|].
    destruct (Fs.exist flac_path (fs w1)); [|apply (f_refl _ _ _ _ _ F)].
    apply (f_unlink _ _ _ _ _ F). exact I.
  - erewrite try_hangs; [exact I | apply bind_hangs; exact Eu].
Qed.

(** Step 1 with its outcome spelled out. *)
Lemma transcribe_step_unfold (base_name : string) (flac_path : Path.t) (w : World) :
  transcribe_step R base_name flac_path w
  = let cleanup w0 :=
      Done None (if Fs.exist flac_path (fs w0)
                 then set_fs (Fs.unlink flac_path (fs w0)) w0 else w0) in
    match upload_to_gcs R flac_path w with
    | Done uri w1 =>
        match transcribe_from_gcs R uri w1 with
        | Done t w2 =>
            if Str.is_empty t then Done None w2
            else
              let f1 := Fs.write (transcript_path base_name) (Text t) (fs w2) in
              let f2 := if Fs.exist flac_path f1 then Fs.unlink flac_path f1 else f1 in
              let p := append_transcribed base_name (progress w2) in
              Done (Some t) (mkWorld f2 (bucket w2) (Some p) p (clock w2) (calls w2))
        | Raised _ w2 => cleanup w2
        | Hangs => Hangs
        end
    | Raised _ w1 => cleanup w1
    | Hangs => Hangs
    end.
Proof.
  cbv zeta. unfold transcribe_step.
  destruct (upload_to_gcs R flac_path w) as [uri w1|e w1|] eqn:Eu.
  - destruct (transcribe_from_gcs R uri w1) as [t w2|e w2|] eqn:Et.
    + destruct (Str.is_empty t) eqn:Em.
      * erewrite try_done; [reflexivity|].
        erewrite bind_done; [|exact Eu]. erewrite bind_done; [|exact Et].
        now rewrite Em.
      * erewrite try_done; [reflexivity|].
        erewrite bind_done; [|exact Eu]. erewrite bind_done; [|exact Et].
        rewrite Em.
        unfold bind, write_file, modify, path_exists, save_progress, unlink, ret; cbn.
        destruct (Fs.exist flac_path _); reflexivity.
    + erewrite try_raised;
        [|erewrite bind_done; [|exact Eu]; apply bind_raised; exact Et].
      apply cleanup_eval.
    + apply try_hangs. erewrite bind_done; [|exact Eu]. now apply bind_hangs.
  - erewrite try_raised; [|apply bind_raised; exact Eu]. apply cleanup_eval.
  - apply try_hangs. now apply bind_hangs.
Qed.

End Running.

(** ** The progress ledger *)

Section LedgerClaims.

Lemma read_text_cases (json_dumps : json -> string) (p : Path.t) (w : World) :
  (exists s, read_text json_dumps p w = Done s w)
  \/ (exists e, read_text json_dumps p w = Raised e w).
Proof.
  unfold read_text. destruct (Fs.read p (fs w)) as [[| |]|]; eauto.
Qed.

(** Step 1, when it yields a transcript: nothing has changed when the
    transcript was on disk; otherwise the transcript is on disk now, the stem
    was appended to the transcribed items and the progress file holds the
    dictionary. *)
Lemma first_step_ledger (json_dumps : json -> string) (R : Remote)
  (mp3_path : Path.t) (t : string) (w w1 : World) :
  let b := Path.stem mp3_path in
  first_step json_dumps R mp3_path (Fs.exist (transcript_path b) (fs w)) w
  = Done (Some t) w1 ->
  if Fs.exist (transcript_path b) (fs w)
  then w1 = w
  else Fs.exist (transcript_path b) (fs w1) = true
       /\ progress w1 = append_transcribed b (progress w)
       /\ ledger w1 = Some (progress w1).
Proof.
  intros b. unfold first_step. fold b.
  destruct (Fs.exist (transcript_path b) (fs w)) eqn:Ep.
  - destruct (read_text_cases json_dumps (transcript_path b) w) as [[s Hs]|[e He]].
    + erewrite bind_done by exact Hs. intros H; now injection H.
    + erewrite bind_raised by exact He. discriminate.
  - pose proof (keeps_convert R _ _ _ _ _ frame_same_ledger mp3_path I I w) as Hc.
    destruct (convert_to_flac R mp3_path w) as [[fl|] w0|e w0|] eqn:Ec.
    + destruct Hc as [[Hv|Hv] [Hl Hp]]; [discriminate|]. injection Hv as ->.
      erewrite bind_done by exact Ec. cbv beta iota.
      set (flac := Path.with_suffix ".flac" mp3_path).
      rewrite transcribe_step_unfold; cbv zeta.
      pose proof (keeps_upload R _ _ _ _ _ frame_same_ledger flac I w0) as K1.
      destruct (upload_to_gcs R flac w0) as [uri w2|e w2|]; [|discriminate..].
      destruct K1 as [_ [_ K1]].
      pose proof (keeps_transcribe R _ _ _ _ _ frame_same_ledger uri I w2) as K2.
      destruct (transcribe_from_gcs R uri w2) as [t' w3|e w3|]; [|discriminate..].
      destruct K2 as [_ [_ K2]].
      destruct (Str.is_empty t'); [discriminate|].
      intros H. injection H as _ <-. cbn [fs progress ledger].
      split; [|split; [congruence | reflexivity]].
      assert (Hne : flac <> transcript_path b) by discriminate.
      unfold Fs.exist.
      destruct (match Fs.read flac _ with Some _ => true | None => false end);
        [rewrite FsFacts.read_unlink_other by exact Hne|];
        now rewrite FsFacts.read_write_same.
    + erewrite bind_done by exact Ec. discriminate.
    + erewrite bind_raised by exact Ec. discriminate.
    + erewrite bind_hangs by exact Ec. discriminate.
Qed.

(** C4, as the code has it.  The progress ledger has no record of a failure:
    it lists the items whose transcript was saved and the items whose tags
    were saved, and when a stage fails nothing is appended for the failure.
    An item that is given up in step 1 (it returns [False] or raises) leaves
    the [progress] dictionary and the progress file as they were before the
    item.  When the annotation call raises, the item returns [True] with no
    tags file and no new entry among the tagged items, and the dictionary and
    the file are as step 1 left them: as before the item when the transcript
    was on disk, and with the stem of the item appended to the transcribed
    items, and saved, when the transcript was made in this item.  In every
    case the loop goes on with the next item, from the world the item left;
    only a [null] title, which is read outside the [try], stops it. *)
Theorem failed_stage_appends_no_record :
  forall (json_loads : string -> option json) (json_dumps : json -> string)
         (R : Remote),
    (forall ep w,
        match process_episode json_loads json_dumps R ep w with
        | Done false w' | Raised _ w' =>
            ledger w' = ledger w /\ progress w' = progress w
        | Done true _ | Hangs => True
        end)
    /\ (forall ep mp3_path transcript w w1,
          let base_name := Path.stem mp3_path in
          resolve_local_file ep (fs w) = inr (Some mp3_path) ->
          Fs.exist mp3_path (fs w) = true ->
          first_step json_dumps R mp3_path
            (Fs.exist (transcript_path base_name) (fs w)) w
          = Done (Some transcript) w1 ->
          Fs.exist (tags_path base_name) (fs w1) = false ->
          generate_content R (clock w1) (build_prompt transcript (title_of ep))
          = None ->
          exists w',
            process_episode json_loads json_dumps R ep w = Done true w'
            /\ Fs.exist (tags_path base_name) (fs w') = false
            /\ tagged (progress w') = tagged (progress w)
            /\ started_at (progress w') = started_at (progress w)
            /\ (if Fs.exist (transcript_path base_name) (fs w)
                then progress w' = progress w /\ ledger w' = ledger w
                else Fs.exist (transcript_path base_name) (fs w') = true
                     /\ transcribed (progress w')
                        = transcribed (progress w) ++ [base_name]
                     /\ ledger w' = Some (progress w')))
    /\ (forall ep rest w,
          titled ep ->
          match process_episode json_loads json_dumps R ep w with
          | Done _ w' | Raised _ w' =>
              process_all json_loads json_dumps R (ep :: rest) w
              = process_all json_loads json_dumps R rest w'
          | Hangs => process_all json_loads json_dumps R (ep :: rest) w = Hangs
          end).
Proof.
  intros json_loads json_dumps R. split; [|split].
  - intros ep w. rewrite process_episode_unfold.
    destruct (resolve_local_file ep (fs w)) as [e|[mp3|]];
      [now split| |now split].
    destruct (Fs.exist mp3 (fs w)); [|now split].
    unfold process_resolved.
    erewrite bind_done; [|reflexivity]. unfold first_step.
    destruct (Fs.exist (transcript_path (Path.stem mp3)) (fs w)).
    + destruct (read_text_cases json_dumps (transcript_path (Path.stem mp3)) w)
        as [[s Hs]|[e He]].
      * erewrite bind_done; [|erewrite bind_done; [|exact Hs]; reflexivity].
        destruct (tag_step_ends json_loads R (Path.stem mp3) s (title_of ep) w)
          as [w' E].
        erewrite bind_done; [|exact E]. exact I.
      * erewrite bind_raised; [|erewrite bind_raised; [|exact He]; reflexivity].
        now split.
    + pose proof (keeps_convert R _ _ _ _ _ frame_same_ledger mp3 I I w) as Hc.
      destruct (convert_to_flac R mp3 w) as [[flac|] w1|e w1|] eqn:Ec.
      * destruct Hc as [_ Hc].
        pose proof (transcribe_step_ledger R (Path.stem mp3) flac w1) as Ht.
        destruct (transcribe_step R (Path.stem mp3) flac w1)
          as [[t|] w2|e w2|] eqn:Et.
        -- erewrite bind_done;
             [|erewrite bind_done; [|exact Ec]; exact Et].
           destruct (tag_step_ends json_loads R (Path.stem mp3) t (title_of ep) w2)
             as [w' E].
           erewrite bind_done; [|exact E]. exact I.
        -- erewrite bind_done;
             [|erewrite bind_done; [|exact Ec]; exact Et].
           exact (f_trans _ _ _ _ _ frame_same_ledger _ _ _ Hc Ht).
        -- erewrite bind_raised;
             [|erewrite bind_done; [|exact Ec]; exact Et].
           exact (f_trans _ _ _ _ _ frame_same_ledger _ _ _ Hc Ht).
        -- erewrite bind_hangs; [exact I|].
           erewrite bind_done; [|exact Ec]. exact Et.
      * erewrite bind_done; [|erewrite bind_done; [|exact Ec]; reflexivity].
        exact (proj2 Hc).
      * erewrite bind_raised; [|erewrite bind_raised; [|exact Ec]; reflexivity].
        exact Hc.
      * erewrite bind_hangs; [exact I|]. apply bind_hangs; exact Ec.
  - intros ep mp3 t w w1 b Hr Hm H1 Hno Hgen.
    pose proof (first_step_ledger json_dumps R mp3 t w w1 H1) as HL.
    cbv zeta in HL. fold b in HL.
    rewrite process_episode_unfold, Hr, Hm.
    unfold process_resolved, bind, path_exists; cbv zeta. fold b.
    rewrite H1, tag_step_eval, Hno; cbv zeta. rewrite Hgen.
    eexists. split; [reflexivity|].
    cbn [after_call fs progress ledger]. split; [exact Hno|].
    destruct (Fs.exist (transcript_path b) (fs w)).
    + subst w1. repeat split.
    + destruct HL as (Hex & Hp & Hl). rewrite Hp. cbn.
      repeat split; auto. now rewrite Hl, Hp.
  - intros ep rest w Ht. cbn [process_all]. unfold titled in Ht.
    destruct (ep_title ep); try contradiction;
      unfold bind, try_except;
      destruct (process_episode json_loads json_dumps R ep w) as [b w'|e w'|];
      reflexivity.
Qed.

Lemma failed_stage_appends_no_record_witness :
  let R := Examples.mute_remote in
  let ep1 := Examples.episode "ep1" in
  let ep2 := Examples.episode "ep2" in
  exists w',
    process_episode Json.loads Examples.dumps R ep1 Examples.start = Done true w'
    /\ Fs.exist (tags_path "ep1") (fs w') = false
    /\ progress w' = mkProgress ["ep1"] [] "2024-05-01T09:00:00"
    /\ ledger w' = Some (progress w')
    /\ process_all Json.loads Examples.dumps R [ep1; ep2] Examples.start
       = process_all Json.loads Examples.dumps R [ep2] w'.
Proof.
  intros R ep1 ep2.
  destruct (failed_stage_appends_no_record Json.loads Examples.dumps R)
    as (_ & HB & HC).
  destruct (first_step Examples.dumps R (Examples.mp3 "ep1")
              (Fs.exist (transcript_path "ep1") (fs Examples.start)) Examples.start)
    as [[t|] w1|e w1|] eqn:E1; [|discriminate E1..].
  assert (Hw1 : Fs.exist (tags_path "ep1") (fs w1) = false).
  { vm_compute in E1. injection E1 as _ <-. reflexivity. }
  destruct (HB ep1 (Examples.mp3 "ep1") t Examples.start w1
              eq_refl eq_refl E1 Hw1 eq_refl)
    as (w' & E & Hno & Htag & Hst & Hl).
  exists w'. split; [exact E|]. split; [exact Hno|].
  change (Fs.exist (transcript_path (Path.stem (Examples.mp3 "ep1")))
            (fs Examples.start)) with false in Hl.
  destruct Hl as (_ & Htr & Hl).
  split; [destruct (progress w'); cbn in *; congruence|].
  split; [exact Hl|].
  specialize (HC ep1 [ep2] Examples.start). rewrite E in HC.
  apply HC. discriminate.
Defined.

(** C4, as the claim words it, fails: the Transcribe call of the item [ep2]
    raises, the item is given up, and the ledger has no record of it; the
    progress file is not even written. *)
Lemma failed_transcription_is_not_recorded :
  let R := Examples.flaky_remote "gs://mlops-podcast-audio/audio/ep2.flac" in
  exists w',
    process_episode Json.loads Examples.dumps R (Examples.episode "ep2")
      Examples.start = Done false w'
    /\ calls w' = [ Convert (Examples.mp3 "ep2"); Upload "audio/ep2.flac";
                    Transcribe "gs://mlops-podcast-audio/audio/ep2.flac" ]
    /\ ledger w' = None
    /\ progress w' = Examples.fresh_progress.
Proof.
  intros R. eexists. repeat split; reflexivity.
Qed.

End LedgerClaims.

(** ** Running again *)

Section Idempotence.

Variable json_loads : string -> option json.
Variable json_dumps : json -> string.
Variable R : Remote.

Lemma frame_both (r1 r2 : World -> World -> Prop)
  (okc1 okc2 : Call -> Prop) (okw1 okw2 : Path.t -> content -> Prop)
  (oku1 oku2 : Path.t -> Prop) (okp1 okp2 : Prop) :
  frame r1 okc1 okw1 oku1 okp1 -> frame r2 okc2 okw2 oku2 okp2 ->
  frame (fun w w' => r1 w w' /\ r2 w w')
        (fun c => okc1 c /\ okc2 c) (fun p c => okw1 p c /\ okw2 p c)
        (fun p => oku1 p /\ oku2 p) (okp1 /\ okp2).
Proof.
  intros F1 F2. constructor.
  - intros w; split; [apply (f_refl _ _ _ _ _ F1) | apply (f_refl _ _ _ _ _ F2)].
  - intros a b c [H1 H2] [H3 H4]; split;
      [exact (f_trans _ _ _ _ _ F1 _ _ _ H1 H3)
      | exact (f_trans _ _ _ _ _ F2 _ _ _ H2 H4)].
  - intros c w [H1 H2]; split;
      [now apply (f_log _ _ _ _ _ F1) | now apply (f_log _ _ _ _ _ F2)].
  - intros w; split; [apply (f_tick _ _ _ _ _ F1) | apply (f_tick _ _ _ _ _ F2)].
  - intros p c w [H1 H2]; split;
      [now apply (f_write _ _ _ _ _ F1) | now apply (f_write _ _ _ _ _ F2)].
  - intros p w [H1 H2]; split;
      [now apply (f_unlink _ _ _ _ _ F1) | now apply (f_unlink _ _ _ _ _ F2)].
  - intros b w; split;
      [apply (f_bucket _ _ _ _ _ F1) | apply (f_bucket _ _ _ _ _ F2)].
  - intros [H1 H2] p w; split;
      [now apply (f_progress _ _ _ _ _ F1) | now apply (f_progress _ _ _ _ _ F2)].
  - intros [H1 H2] l w; split;
      [now apply (f_ledger _ _ _ _ _ F1) | now apply (f_ledger _ _ _ _ _ F2)].
Qed.

(** The two steps of an item, one after the other. *)
Lemma process_resolved_eval (ep : Episode) (mp3_path : Path.t) (w : World) :
  process_resolved json_loads json_dumps R ep mp3_path w
  = let base_name := Path.stem mp3_path in
    match first_step json_dumps R mp3_path
            (Fs.exist (transcript_path base_name) (fs w)) w with
    | Done (Some transcript) w1 =>
        match tag_step json_loads R base_name transcript (title_of ep) w1 with
        | Done _ w2 => Done true w2
        | Raised e w2 => Raised e w2
        | Hangs => Hangs
        end
    | Done None w1 => Done false w1
    | Raised e w1 => Raised e w1
    | Hangs => Hangs
    end.
Proof.
  unfold process_resolved, bind, path_exists; cbv zeta.
  destruct (first_step _ _ _ _ w) as [[t|] w1|e w1|]; reflexivity.
Qed.

(** A FLAC file that is there is not made again. *)
Lemma convert_skips (mp3_path : Path.t) (w : World) :
  Fs.exist (Path.with_suffix ".flac" mp3_path) (fs w) = true ->
  convert_to_flac R mp3_path w = Done (Some (Path.with_suffix ".flac" mp3_path)) w.
Proof.
  intros H. unfold convert_to_flac, bind, path_exists. now rewrite H.
Qed.

(** A blob that is there is not uploaded again. *)
Lemma upload_skips (local_path : Path.t) (w : World) :
  blob_probe R (clock w) (blob_name_of local_path) = true ->
  existsb (String.eqb (blob_name_of local_path)) (bucket w) = true ->
  upload_to_gcs R local_path w
  = Done (gs_uri (blob_name_of local_path)) (advance w).
Proof.
  intros Hp Hb. unfold upload_to_gcs, bind, tick, get_world.
  cbv beta iota zeta. rewrite Hp. cbn [negb]. cbv beta iota.
  change (bucket (advance w)) with (bucket w). now rewrite Hb.
Qed.

(** With its transcript and its tags there, an item leaves the world as it
    is. *)
Lemma process_resolved_finished (ep : Episode) (mp3_path : Path.t) (w : World) :
  Fs.exist (transcript_path (Path.stem mp3_path)) (fs w) = true ->
  Fs.exist (tags_path (Path.stem mp3_path)) (fs w) = true ->
  (exists b, process_resolved json_loads json_dumps R ep mp3_path w = Done b w)
  \/ (exists e, process_resolved json_loads json_dumps R ep mp3_path w = Raised e w).
Proof.
  intros Ht Hg. rewrite process_resolved_eval; cbv zeta. rewrite Ht.
  unfold first_step.
  destruct (read_text_cases json_dumps (transcript_path (Path.stem mp3_path)) w)
    as [[s Hs]|[e He]].
  - erewrite bind_done; [|exact Hs]. unfold ret.
    rewrite tag_step_eval, Hg. eauto.
  - erewrite bind_raised; [|exact He]. eauto.
Qed.

Lemma process_episode_finished (ep : Episode) (w : World) :
  finished ep w ->
  (exists b, process_episode json_loads json_dumps R ep w = Done b w)
  \/ (exists e, process_episode json_loads json_dumps R ep w = Raised e w).
Proof.
  unfold finished. rewrite process_episode_unfold.
  destruct (resolve_local_file ep (fs w)) as [e|[mp3|]]; [eauto| |eauto].
  destruct (Fs.exist mp3 (fs w)); [|eauto].
  intros H; destruct (H eq_refl) as [Ht Hg].
  now apply process_resolved_finished.
Qed.

(** The loop over one more item whose title is not [null]. *)
Lemma process_all_cons (ep : Episode) (rest : list Episode) :
  titled ep ->
  process_all json_loads json_dumps R (ep :: rest)
  = (try_except (process_episode json_loads json_dumps R ep ;;; ret tt)
       (fun _ => ret tt) ;;;
     process_all json_loads json_dumps R rest).
Proof.
  unfold titled. cbn [process_all].
  destruct (ep_title ep); [reflexivity | congruence | reflexivity].
Qed.

(** An item whose title is [null] ends the loop where it stands. *)
Lemma process_all_null_title (ep : Episode) (rest : list Episode) (w : World) :
  ep_title ep = NullTitle ->
  process_all json_loads json_dumps R (ep :: rest) w = Raised TypeError w.
Proof. intros H. cbn [process_all]. now rewrite H. Qed.

(** Over finished items the loop leaves the world as it is, whether it ends
    or is cut short by a [null] title. *)
Lemma process_all_unchanged (episodes : list Episode) (w : World) :
  (forall ep, In ep episodes -> finished ep w) ->
  match process_all json_loads json_dumps R episodes w with
  | Done _ w' | Raised _ w' => w' = w
  | Hangs => False
  end.
Proof.
  induction episodes as [|ep rest IH]; intros H; [reflexivity|].
  assert (E : try_except (process_episode json_loads json_dumps R ep ;;; ret tt)
                (fun _ => ret tt) w = Done tt w).
  { destruct (process_episode_finished ep w (H ep (or_introl eq_refl)))
      as [[b Hb]|[e He]].
    - erewrite try_done; [reflexivity|]. erewrite bind_done; [|exact Hb]. reflexivity.
    - erewrite try_raised; [reflexivity|]. apply bind_raised; exact He. }
  cbn [process_all].
  destruct (ep_title ep); [|reflexivity|];
    (erewrite bind_done; [|exact E]); apply IH; intros ep' Hin; apply H; now right.
Qed.

Lemma process_all_finished (episodes : list Episode) (w : World) :
  (forall ep, In ep episodes -> titled ep) ->
  (forall ep, In ep episodes -> finished ep w) ->
  process_all json_loads json_dumps R episodes w = Done tt w.
Proof.
  induction episodes as [|ep rest IH]; intros Ht H; [reflexivity|].
  rewrite process_all_cons by (apply Ht; now left).
  assert (E : try_except (process_episode json_loads json_dumps R ep ;;; ret tt)
                (fun _ => ret tt) w = Done tt w).
  { destruct (process_episode_finished ep w (H ep (or_introl eq_refl)))
      as [[b Hb]|[e He]].
    - erewrite try_done; [reflexivity|]. erewrite bind_done; [|exact Hb]. reflexivity.
    - erewrite try_raised; [reflexivity|]. apply bind_raised; exact He. }
  erewrite bind_done; [|exact E].
  apply IH; intros ep' Hin; [apply Ht | apply H]; now right.
Qed.

Lemma finished_fs (ep : Episode) (w w' : World) :
  fs w' = fs w -> finished ep w -> finished ep w'.
Proof. unfold finished; now intros ->. Qed.

(** With the transcript there, step 1 invokes no executor at all. *)
Lemma first_step_present (mp3_path : Path.t) (w : World) :
  match first_step json_dumps R mp3_path true w with
  | Done _ w' => w' = w
  | Raised _ w' => w' = w
  | Hangs => False
  end.
Proof.
  unfold first_step.
  destruct (read_text_cases json_dumps (transcript_path (Path.stem mp3_path)) w)
    as [[s Hs]|[e He]].
  - erewrite bind_done; [|exact Hs]. reflexivity.
  - erewrite bind_raised; [|exact He]. reflexivity.
Qed.

End Idempotence.

Section IdempotenceClaim.

Variable json_loads : string -> option json.
Variable json_dumps : json -> string.
Variable R : Remote.

Lemma ensure_bucket_cases (w : World) :
  exists w1,
    (ensure_bucket_exists R w = Done tt w1
     \/ ensure_bucket_exists R w = Raised NetworkError w1)
    /\ fs w1 = fs w /\ bucket w1 = bucket w /\ ledger w1 = ledger w
    /\ calls w1 = calls w.
Proof.
  unfold ensure_bucket_exists, bind, tick, ret, raise.
  destruct (get_bucket R (clock w)); [exists (advance w); cbn; auto 6|].
  destruct (create_bucket R (clock (advance w)));
    exists (advance (advance w)); cbn; auto 6.
Qed.

Lemma load_progress_eval (w : World) :
  exists p, load_progress R w = Done tt (set_progress p w).
Proof. unfold load_progress; destruct (ledger w); eauto. Qed.

(** With the transcript there, an item invokes none of the executors of
    step 1. *)
Lemma transcript_skips_step1 (ep : Episode) (mp3_path : Path.t) (w : World)
  (sel : Call -> bool) :
  (forall prompt, sel (Annotate prompt) = false) ->
  Fs.exist (transcript_path (Path.stem mp3_path)) (fs w) = true ->
  match process_resolved json_loads json_dumps R ep mp3_path w with
  | Done _ w' => filter sel (calls w') = filter sel (calls w)
  | Raised _ w' => filter sel (calls w') = filter sel (calls w)
  | Hangs => False
  end.
Proof.
  intros Hsel Ht. rewrite process_resolved_eval; cbv zeta. rewrite Ht.
  pose proof (first_step_present json_dumps R mp3_path w) as H1.
  destruct (first_step json_dumps R mp3_path true w) as [[t|] w1|e w1|];
    try (subst w1; reflexivity); [|contradiction].
  subst w1.
  pose proof (keeps_tag_step json_loads R _ _ _ _ _ (frame_quiet sel)
                (Path.stem mp3_path) t (title_of ep) (Hsel _) (fun _ => I) I w) as H2.
  destruct (tag_step_ends json_loads R (Path.stem mp3_path) t (title_of ep) w)
    as [w2 E2].
  rewrite E2 in *. exact (proj2 H2).
Qed.

(** With the tags there, an item does not invoke the annotation executor. *)
Lemma tags_skip_annotate (ep : Episode) (mp3_path : Path.t) (w : World) :
  Fs.exist (tags_path (Path.stem mp3_path)) (fs w) = true ->
  match process_resolved json_loads json_dumps R ep mp3_path w with
  | Done _ w' => filter is_annotate (calls w') = filter is_annotate (calls w)
  | Raised _ w' => filter is_annotate (calls w') = filter is_annotate (calls w)
  | Hangs => True
  end.
Proof.
  intros Hg. rewrite process_resolved_eval; cbv zeta.
  pose proof (frame_both _ _ _ _ _ _ _ _ _ _ (frame_quiet is_annotate) frame_lasting)
    as F.
  assert (H1 : keeps (fun a b => quiet is_annotate a b /\ lasting a b) any
                 (first_step json_dumps R mp3_path
                    (Fs.exist (transcript_path (Path.stem mp3_path)) (fs w)))).
  { apply (keeps_first_step json_dumps R _ _ _ _ _ F); cbv zeta;
      repeat split; try reflexivity; try (left; reflexivity);
      try (right; discriminate). }
  specialize (H1 w).
  destruct (first_step json_dumps R mp3_path _ w) as [[t|] w1|e w1|];
    try tauto.
  destruct H1 as [_ [Hq Hl]].
  assert (Hg1 : Fs.exist (tags_path (Path.stem mp3_path)) (fs w1) = true).
  { apply (Hl (tags_path (Path.stem mp3_path))); [discriminate | exact Hg]. }
  rewrite tag_step_eval, Hg1. exact Hq.
Qed.

(** C1.  A stage whose artifact is on durable storage is not invoked again:
    a FLAC file that is there is not converted again, a blob that is there is
    not uploaded again, an item whose transcript is there invokes neither
    Convert nor Upload nor Transcribe, and an item whose tags are there does
    not invoke Annotate.  So a run over items whose transcripts and tags are
    all there invokes no stage executor and leaves every artifact, the
    bucket and the progress file as they are; [main] then only rewrites the
    index. *)
Theorem rerun_skips_finished_stages :
  (forall mp3_path w,
      Fs.exist (Path.with_suffix ".flac" mp3_path) (fs w) = true ->
      convert_to_flac R mp3_path w
      = Done (Some (Path.with_suffix ".flac" mp3_path)) w)
  /\ (forall local_path w,
        blob_probe R (clock w) (blob_name_of local_path) = true ->
        existsb (String.eqb (blob_name_of local_path)) (bucket w) = true ->
        upload_to_gcs R local_path w
        = Done (gs_uri (blob_name_of local_path)) (advance w))
  /\ (forall ep mp3_path w sel,
        resolve_local_file ep (fs w) = inr (Some mp3_path) ->
        (forall prompt, sel (Annotate prompt) = false) ->
        Fs.exist (transcript_path (Path.stem mp3_path)) (fs w) = true ->
        match process_episode json_loads json_dumps R ep w with
        | Done _ w' => filter sel (calls w') = filter sel (calls w)
        | Raised _ w' => filter sel (calls w') = filter sel (calls w)
        | Hangs => False
        end)
  /\ (forall ep mp3_path w,
        resolve_local_file ep (fs w) = inr (Some mp3_path) ->
        Fs.exist (tags_path (Path.stem mp3_path)) (fs w) = true ->
        match process_episode json_loads json_dumps R ep w with
        | Done _ w' => filter is_annotate (calls w') = filter is_annotate (calls w)
        | Raised _ w' => filter is_annotate (calls w') = filter is_annotate (calls w)
        | Hangs => True
        end)
  /\ (forall episodes w,
        (forall ep, In ep episodes -> finished ep w) ->
        match process_all json_loads json_dumps R episodes w with
        | Done _ w' | Raised _ w' => w' = w
        | Hangs => False
        end)
  /\ (forall episodes w,
        (forall ep, In ep episodes -> titled ep) ->
        (forall ep, In ep episodes -> finished ep w) ->
        process_all json_loads json_dumps R episodes w = Done tt w)
  /\ (forall episodes w,
        (forall ep, In ep episodes -> finished ep w) ->
        match main json_loads json_dumps R (Some episodes) w with
        | Done _ w' | Raised _ w' =>
            calls w' = calls w /\ bucket w' = bucket w /\ ledger w' = ledger w
            /\ forall p, p <> index_path -> Fs.read p (fs w') = Fs.read p (fs w)
        | Hangs => False
        end).
Proof.
  split; [exact (convert_skips R)|].
  split; [exact (upload_skips R)|].
  split.
  { intros ep mp3 w sel Hres Hsel Ht.
    rewrite process_episode_unfold, Hres.
    destruct (Fs.exist mp3 (fs w)); [|reflexivity].
    now apply transcript_skips_step1. }
  split.
  { intros ep mp3 w Hres Hg.
    rewrite process_episode_unfold, Hres.
    destruct (Fs.exist mp3 (fs w)); [|reflexivity].
    now apply tags_skip_annotate. }
  split; [exact (process_all_unchanged json_loads json_dumps R)|].
  split; [exact (process_all_finished json_loads json_dumps R)|].
  intros episodes w Hfin. unfold main.
  destruct (ensure_bucket_cases w) as (w1 & [E1|E1] & Hfs & Hb & Hl & Hc).
  - erewrite bind_done; [|exact E1].
    destruct (load_progress_eval w1) as [p E2].
    erewrite bind_done; [|exact E2].
    assert (Hrun : match process_all json_loads json_dumps R episodes
                           (set_progress p w1) with
                   | Done _ w' | Raised _ w' => w' = set_progress p w1
                   | Hangs => False
                   end).
    { apply process_all_unchanged. intros ep Hin. apply (finished_fs ep w);
        [rewrite <- Hfs; reflexivity | now apply Hfin]. }
    destruct (process_all json_loads json_dumps R episodes (set_progress p w1))
      as [u w2|e w2|] eqn:E3; [| |contradiction].
    + erewrite bind_done; [|exact E3]. rewrite Hrun.
      unfold bind, build_analysis_index.
      destruct (scan_files json_loads _ Agg.empty) as [e|acc]; cbn.
      * rewrite Hc, Hb, Hl, Hfs. auto.
      * rewrite Hc, Hb, Hl. repeat split.
        intros q Hq. rewrite FsFacts.read_write_other by congruence.
        now rewrite Hfs.
    + erewrite bind_raised; [|exact E3]. rewrite Hrun. cbn.
      rewrite Hc, Hb, Hl, Hfs. auto.
  - erewrite bind_raised; [|exact E1].
    rewrite Hc, Hb, Hl, Hfs. auto.
Qed.

End IdempotenceClaim.

Lemma rerun_skips_finished_stages_witness :
  let R0 := Examples.remote [["hello"]; ["world"]] "{}" in
  let eps := [Examples.episode "ep1"; Examples.episode "ep2"; Examples.episode "ep3"] in
  match process_all Json.loads Examples.dumps R0 eps Examples.start with
  | Done _ w1 =>
      (forall ep, In ep eps -> finished ep w1)
      /\ process_all Json.loads Examples.dumps Examples.stuck_remote eps w1
         = Done tt w1
  | _ => False
  end.
Proof.
  intros R0 eps.
  destruct (process_all Json.loads Examples.dumps R0 eps Examples.start)
    as [u w1|e w1|] eqn:E; [|discriminate E|discriminate E].
  assert (Hfin : forall ep, In ep eps -> finished ep w1).
  { vm_compute in E. injection E as _ <-.
    intros ep [<-|[<-|[<-|[]]]]; intros _; split; reflexivity. }
  split; [exact Hfin|].
  destruct (rerun_skips_finished_stages Json.loads Examples.dumps
              Examples.stuck_remote) as (_ & _ & _ & _ & _ & H & _).
  apply H; [|exact Hfin].
  intros ep [<-|[<-|[<-|[]]]]; intros H0; discriminate H0.
Defined.

(** ** One item at a time *)

Section Isolation.
Import FsFacts.

Variable json_loads : string -> option json.
Variable json_dumps : json -> string.
Variable R : Remote.

Lemma resolve_explicit (ep : Episode) (mp3_path : Path.t) (f : Fs.t) :
  audio_of ep = Some mp3_path ->
  resolve_local_file ep f = inr (Some mp3_path).
Proof.
  unfold audio_of, resolve_local_file.
  destruct (ep_local_file ep) as [[|c r]|]; congruence.
Qed.

Lemma convert_ends (mp3_path : Path.t) (w : World) :
  convert_to_flac R mp3_path w <> Hangs.
Proof.
  unfold convert_to_flac, bind, path_exists, invoke, modify, tick, write_file.
  destruct (Fs.exist _ (fs w)); [discriminate|]. cbn.
  destruct (ffmpeg R (clock w) mp3_path) as [[|]|]; discriminate.
Qed.

Lemma convert_succeeds (mp3_path : Path.t) (w : World) :
  (forall t, ffmpeg R t mp3_path = Some true) ->
  exists w', convert_to_flac R mp3_path w
             = Done (Some (Path.with_suffix ".flac" mp3_path)) w'.
Proof.
  intros H.
  unfold convert_to_flac, bind, path_exists, invoke, modify, tick, write_file.
  destruct (Fs.exist _ (fs w)); [eauto|]. cbn. rewrite H. eauto.
Qed.

Lemma upload_ends (local_path : Path.t) (w : World) :
  upload_to_gcs R local_path w <> Hangs.
Proof.
  unfold upload_to_gcs, bind, tick, get_world, invoke, modify.
  cbv beta iota zeta.
  destruct (negb _); [discriminate|]. cbv beta iota.
  destruct (existsb _ _); [discriminate|]. cbv beta iota.
  destruct (upload_from_filename R _ _); discriminate.
Qed.

Lemma upload_succeeds (local_path : Path.t) (w : World) :
  (forall t, blob_probe R t (blob_name_of local_path) = true) ->
  (forall t, upload_from_filename R t (blob_name_of local_path) = true) ->
  exists w', upload_to_gcs R local_path w
             = Done (gs_uri (blob_name_of local_path)) w'.
Proof.
  intros Hp Hu.
  unfold upload_to_gcs, bind, tick, get_world, invoke, modify.
  cbv beta iota zeta. rewrite Hp. cbn [negb]. cbv beta iota.
  destruct (existsb _ _); [eauto|]. cbv beta iota. rewrite Hu. eauto.
Qed.

(** Step 1 ends, with a transcript on disk, when every call succeeds. *)
Lemma transcribe_step_succeeds (base_name : string) (flac_path : Path.t) (w : World) :
  Path.suffix flac_path = ".flac" ->
  (forall t, blob_probe R t (blob_name_of flac_path) = true) ->
  (forall t, upload_from_filename R t (blob_name_of flac_path) = true) ->
  (forall t, transcribe_succeeds R t (gs_uri (blob_name_of flac_path))) ->
  exists t w',
    transcribe_step R base_name flac_path w = Done (Some t) w'
    /\ Fs.exist (transcript_path base_name) (fs w') = true.
Proof.
  intros Hsuf Hp Hu Ht.
  destruct (upload_succeeds flac_path w Hp Hu) as [w1 E1].
  destruct (transcribe_succeeded R _ w1 (Ht (clock w1))) as (t & Hne & E2).
  assert (Hem : Str.is_empty t = false) by (destruct t; [congruence | reflexivity]).
  assert (Hne' : flac_path <> transcript_path base_name).
  { intros E. rewrite E in Hsuf. discriminate Hsuf. }
  destruct (save_transcript_eval base_name flac_path t
              (after_call (Transcribe (gs_uri (blob_name_of flac_path))) w1))
    as (w2 & E3 & Hex).
  exists t, w2. split; [|now apply Hex].
  unfold transcribe_step. erewrite try_done; [reflexivity|].
  erewrite bind_done; [|exact E1]. erewrite bind_done; [|exact E2].
  rewrite Hem. exact E3.
Qed.

(** Step 1 ends without a transcript, having touched the FLAC file only, when
    the Transcribe call raises. *)
Lemma transcribe_step_fails (base_name : string) (flac_path : Path.t) (w : World) :
  (forall t, transcribe_raises R t (gs_uri (blob_name_of flac_path))) ->
  exists w',
    transcribe_step R base_name flac_path w = Done None w'
    /\ within_file flac_path w w'.
Proof.
  intros Hr.
  pose proof (frame_within_file flac_path) as F.
  pose proof (f_trans _ _ _ _ _ F) as Tr.
  assert (Hclean : forall w0,
             within_file flac_path w0
               (if Fs.exist flac_path (fs w0)
                then set_fs (Fs.unlink flac_path (fs w0)) w0 else w0)).
  { intros w0. destruct (Fs.exist flac_path (fs w0));
      [now apply (f_unlink _ _ _ _ _ F) | apply (f_refl _ _ _ _ _ F)]. }
  unfold transcribe_step.
  pose proof (keeps_upload R _ _ _ _ _ F flac_path I w) as Hu.
  pose proof (upload_ends flac_path w) as Hend.
  destruct (upload_to_gcs R flac_path w) as [uri w1|e w1|] eqn:Eu; [| |congruence].
  - destruct Hu as [-> Hu].
    destruct (transcribe_raised R _ w1 (Hr (clock w1))) as [e Et].
    erewrite try_raised;
      [|erewrite bind_done; [|exact Eu]; apply bind_raised; exact Et].
    rewrite cleanup_eval. eexists; split; [reflexivity|].
    apply (Tr _ w1); [exact Hu|].
    apply (Tr _ (after_call (Transcribe (gs_uri (blob_name_of flac_path))) w1));
      [|apply Hclean].
    intros p _. reflexivity.
  - erewrite try_raised; [|apply bind_raised; exact Eu].
    rewrite cleanup_eval. eexists; split; [reflexivity|].
    apply (Tr _ w1); [exact Hu | apply Hclean].
Qed.

(** Step 2 ends with the tags on disk when the annotation call answers. *)
Lemma tag_step_succeeds (base_name transcript title : string) (w : World) :
  (forall t prompt, generate_content R t prompt <> None) ->
  exists w',
    tag_step json_loads R base_name transcript title w = Done tt w'
    /\ Fs.exist (tags_path base_name) (fs w') = true.
Proof.
  intros Hg. rewrite tag_step_eval.
  destruct (Fs.exist (tags_path base_name) (fs w)) eqn:E; [eauto|]. cbv zeta.
  destruct (generate_content R (clock w) _) as [text|] eqn:G;
    [|now apply Hg in G].
  eexists; split; [reflexivity|]. apply exist_write_same.
Qed.

End Isolation.

Section IsolationClaim.
Import FsFacts.

Variable json_loads : string -> option json.
Variable json_dumps : json -> string.
Variable R : Remote.

Lemma within_file_lasting (q : Path.t) (w w' : World) :
  Path.suffix q = ".flac" -> within_file q w w' -> lasting w w'.
Proof.
  intros Hq H p Hp.
  assert (Hne : p <> q) by congruence.
  unfold Fs.exist. rewrite (H p Hne). auto.
Qed.

Lemma sound_lasting (w w' : World) (ep : Episode) (mp3_path : Path.t) :
  lasting w w' -> sound R w ep mp3_path -> sound R w' ep mp3_path.
Proof.
  intros Hl (Ha & He & Hs & Ht & Hh). repeat split; auto.
  - now apply (Hl mp3_path Hs).
  - apply (Hl (transcript_path (Path.stem mp3_path))); [discriminate | exact Ht].
  - apply Hh.
  - apply Hh.
  - apply Hh.
  - apply Hh.
  - apply Hh.
Qed.

Lemma completed_lasting (w w' : World) (mp3_path : Path.t) :
  lasting w w' -> completed mp3_path w -> completed mp3_path w'.
Proof.
  intros Hl [Ht Hg]. split.
  - apply (Hl (transcript_path (Path.stem mp3_path))); [discriminate | exact Ht].
  - apply (Hl (tags_path (Path.stem mp3_path))); [discriminate | exact Hg].
Qed.

(** What an item may touch: FLAC files, and files of its own stem. *)
Lemma resolved_footprint (ep : Episode) (mp3_path : Path.t) :
  keeps (fun w w' => lasting w w' /\ within_stem (Path.stem mp3_path) w w') any
    (process_resolved json_loads json_dumps R ep mp3_path).
Proof.
  pose proof (frame_both _ _ _ _ _ _ _ _ _ _
                frame_lasting (frame_within_stem (Path.stem mp3_path))) as F.
  apply (keeps_process_resolved json_loads json_dumps R _ _ _ _ _ F);
    cbv zeta; repeat split; try reflexivity; try (left; reflexivity);
    try (right; discriminate).
Qed.

(** Step 1 of a sound item yields a transcript that is on disk. *)
Lemma first_step_sound (ep : Episode) (mp3_path : Path.t) (w : World) :
  sound R w ep mp3_path ->
  exists t w1,
    first_step json_dumps R mp3_path
      (Fs.exist (transcript_path (Path.stem mp3_path)) (fs w)) w
    = Done (Some t) w1
    /\ Fs.exist (transcript_path (Path.stem mp3_path)) (fs w1) = true.
Proof.
  intros (Ha & He & Hs & Ht & Hf & Hp & Hu & Hr & Hg).
  destruct (Fs.exist (transcript_path (Path.stem mp3_path)) (fs w)) eqn:E;
    unfold first_step.
  - unfold read_text, bind.
    apply exist_read in E as [c Hc]. rewrite Hc.
    destruct c as [|s|j]; [congruence| |]; eexists; eexists;
      (split; [reflexivity|]); apply exist_read; eauto.
  - destruct (convert_succeeds R mp3_path w Hf) as [w1 E1].
    destruct (transcribe_step_succeeds R (Path.stem mp3_path)
                (Path.with_suffix ".flac" mp3_path) w1 eq_refl Hp Hu Hr)
      as (t & w2 & E2 & Hex).
    exists t, w2. split; [|exact Hex].
    erewrite bind_done; [|exact E1]. exact E2.
Qed.

(** A sound item is processed to the end. *)
Lemma process_sound (ep : Episode) (mp3_path : Path.t) (w : World) :
  sound R w ep mp3_path ->
  exists w',
    process_episode json_loads json_dumps R ep w = Done true w'
    /\ completed mp3_path w'
    /\ lasting w w' /\ within_stem (Path.stem mp3_path) w w'.
Proof.
  intros Hsound.
  destruct (first_step_sound ep mp3_path w Hsound) as (t & w1 & E1 & Hex).
  destruct Hsound as (Ha & He & Hs & Ht & Hf & Hp & Hu & Hr & Hg).
  destruct (tag_step_succeeds json_loads R (Path.stem mp3_path) t (title_of ep)
              w1 Hg) as (w2 & E2 & Hex2).
  assert (Hl : keeps lasting any
                 (tag_step json_loads R (Path.stem mp3_path) t (title_of ep))).
  { apply (keeps_tag_step json_loads R _ _ _ _ _ frame_lasting);
      [exact I | intros j; right; discriminate | exact I]. }
  specialize (Hl w1). rewrite E2 in Hl. destruct Hl as [_ Hl].
  assert (Erun : process_resolved json_loads json_dumps R ep mp3_path w = Done true w2).
  { rewrite process_resolved_eval; cbv zeta. now rewrite E1, E2. }
  pose proof (resolved_footprint ep mp3_path w) as Hfoot.
  rewrite Erun in Hfoot. destruct Hfoot as [_ [Hl2 Hst]].
  exists w2. rewrite process_episode_unfold, (resolve_explicit ep mp3_path _ Ha), He.
  split; [exact Erun|]. split; [|split; [exact Hl2 | exact Hst]].
  split; [|exact Hex2].
  apply (Hl (transcript_path (Path.stem mp3_path))); [discriminate | exact Hex].
Qed.

(** An item whose Transcribe call raises is given up: it ends, without a
    transcript, having touched its FLAC file only. *)
Lemma process_doomed (ep : Episode) (mp3_path : Path.t) (w : World) :
  doomed R ep mp3_path ->
  Fs.exist (transcript_path (Path.stem mp3_path)) (fs w) = false ->
  exists w',
    (process_episode json_loads json_dumps R ep w = Done false w'
     \/ exists e, process_episode json_loads json_dumps R ep w = Raised e w')
    /\ within_file (Path.with_suffix ".flac" mp3_path) w w'.
Proof.
  intros [Ha Hr] Hno.
  set (flac := Path.with_suffix ".flac" mp3_path).
  pose proof (frame_within_file flac) as F.
  rewrite process_episode_unfold, (resolve_explicit ep mp3_path _ Ha).
  destruct (Fs.exist mp3_path (fs w));
    [|exists w; split; [now left | apply (f_refl _ _ _ _ _ F)]].
  rewrite process_resolved_eval; cbv zeta. rewrite Hno. unfold first_step.
  pose proof (keeps_convert R _ _ _ _ _ F mp3_path I eq_refl w) as Hc.
  pose proof (convert_ends R mp3_path w) as Hend.
  destruct (convert_to_flac R mp3_path w) as [[fl|] w1|e w1|] eqn:Ec;
    [| | |congruence].
  - destruct Hc as [[Hfl|Hfl] Hc]; [discriminate|]. injection Hfl as ->.
    destruct (transcribe_step_fails R (Path.stem mp3_path) flac w1 Hr)
      as (w2 & E2 & H2).
    exists w2. split; [|exact (f_trans _ _ _ _ _ F _ _ _ Hc H2)].
    left. erewrite bind_done; [|exact Ec]. cbv beta iota.
    unfold flac in E2. now rewrite E2.
  - exists w1. split; [|exact (proj2 Hc)].
    left. erewrite bind_done; [|exact Ec]. reflexivity.
  - exists w1. split; [|exact Hc].
    right. exists e. erewrite bind_raised; [|exact Ec]. reflexivity.
Qed.

(** The loop over the items, when each item is either sound or doomed on the
    audio file [bad]. *)
Lemma process_all_isolated (bad : Path.t) (episodes : list Episode) :
  (forall ep, In ep episodes -> titled ep) ->
  forall w,
    (forall ep, In ep episodes ->
       doomed R ep bad
       \/ exists mp3_path, sound R w ep mp3_path /\ Path.stem mp3_path <> Path.stem bad) ->
    Fs.exist (transcript_path (Path.stem bad)) (fs w) = false ->
    exists w',
      process_all json_loads json_dumps R episodes w = Done tt w'
      /\ lasting w w'
      /\ (forall ep mp3_path,
            In ep episodes -> sound R w ep mp3_path ->
            Path.stem mp3_path <> Path.stem bad -> completed mp3_path w')
      /\ Fs.exist (transcript_path (Path.stem bad)) (fs w') = false
      /\ Fs.read (tags_path (Path.stem bad)) (fs w')
         = Fs.read (tags_path (Path.stem bad)) (fs w).
Proof.
  induction episodes as [|ep rest IH]; intros Htitled w Hall Hno.
  - exists w. split; [reflexivity|].
    split; [apply (f_refl _ _ _ _ _ frame_lasting)|].
    split; [intros ep mp3 []|]. split; [exact Hno | reflexivity].
  - assert (Hstep : exists w1,
               try_except (process_episode json_loads json_dumps R ep ;;; ret tt)
                 (fun _ => ret tt) w = Done tt w1
               /\ lasting w w1
               /\ (forall mp3_path, sound R w ep mp3_path ->
                     Path.stem mp3_path <> Path.stem bad -> completed mp3_path w1)
               /\ Fs.read (transcript_path (Path.stem bad)) (fs w1)
                  = Fs.read (transcript_path (Path.stem bad)) (fs w)
               /\ Fs.read (tags_path (Path.stem bad)) (fs w1)
                  = Fs.read (tags_path (Path.stem bad)) (fs w)).
    { destruct (Hall ep (or_introl eq_refl)) as [Hbad | (mp3 & Hs & Hne)].
      - destruct (process_doomed ep bad w Hbad Hno) as (w1 & Hrun & Hw).
        exists w1. split; [|split; [|split; [|split]]].
        + destruct Hrun as [E | [e E]].
          * erewrite try_done; [reflexivity|].
            erewrite bind_done; [|exact E]. reflexivity.
          * erewrite try_raised; [reflexivity|]. apply bind_raised; exact E.
        + now apply (within_file_lasting (Path.with_suffix ".flac" bad)).
        + intros mp3 (Ha & _) Hne. destruct Hbad as [Ha' _]. congruence.
        + apply Hw. discriminate.
        + apply Hw. discriminate.
      - destruct (process_sound ep mp3 w Hs) as (w1 & E & Hc & Hl & Hst).
        exists w1. split; [|split; [|split; [|split]]].
        + erewrite try_done; [reflexivity|].
          erewrite bind_done; [|exact E]. reflexivity.
        + exact Hl.
        + intros mp3' (Ha' & _) _. destruct Hs as (Ha & _).
          assert (mp3' = mp3) by congruence. now subst.
        + apply Hst. cbn. congruence.
        + apply Hst. cbn. congruence. }
    destruct Hstep as (w1 & E1 & Hl1 & Hc1 & Ht1 & Hg1).
    destruct (IH (fun ep' Hin => Htitled ep' (or_intror Hin)) w1)
      as (w' & E' & Hl' & Hc' & Ht' & Hg').
    + intros ep' Hin. destruct (Hall ep' (or_intror Hin)) as [Hbad | (mp3 & Hs & Hne)];
        [now left | right].
      exists mp3. split; [now apply (sound_lasting w) | exact Hne].
    + apply exist_false. rewrite Ht1. now apply exist_false.
    + exists w'. split; [|split; [|split; [|split]]].
      * rewrite (process_all_cons json_loads json_dumps R)
          by (apply Htitled; now left).
        erewrite bind_done; [|exact E1]. exact E'.
      * exact (f_trans _ _ _ _ _ frame_lasting _ _ _ Hl1 Hl').
      * intros ep' mp3 [<-|Hin] Hs Hne.
        -- apply (completed_lasting w1); [exact Hl' | now apply Hc1].
        -- apply (Hc' ep'); [exact Hin | now apply (sound_lasting w) | exact Hne].
      * exact Ht'.
      * now rewrite Hg', Hg1.
Qed.

(** C3.  When the Transcribe call of one item raises, and the other items
    are sound (they name an audio file that is there, and their remote calls
    succeed), no title of the metadata being [null], the loop of [main] over
    the items ends normally; every other item has its transcript and its tags
    on disk at the end; and the item that failed has no transcript, its tags
    being as they were. *)
Theorem one_failure_does_not_stop_the_batch :
  forall (before after : list Episode) (failing : Episode) (bad : Path.t)
         (w : World),
    (forall ep, In ep (before ++ failing :: after) -> titled ep) ->
    doomed R failing bad ->
    Fs.exist (transcript_path (Path.stem bad)) (fs w) = false ->
    (forall ep, In ep (before ++ after) ->
       exists mp3_path,
         sound R w ep mp3_path /\ Path.stem mp3_path <> Path.stem bad) ->
    exists w',
      process_all json_loads json_dumps R (before ++ failing :: after) w
      = Done tt w'
      /\ (forall ep mp3_path,
            In ep (before ++ after) -> audio_of ep = Some mp3_path ->
            completed mp3_path w')
      /\ Fs.exist (transcript_path (Path.stem bad)) (fs w') = false
      /\ Fs.read (tags_path (Path.stem bad)) (fs w')
         = Fs.read (tags_path (Path.stem bad)) (fs w).
Proof.
  intros before after failing bad w Htitled Hbad Hno Hothers.
  destruct (process_all_isolated bad (before ++ failing :: after) Htitled w)
    as (w' & E & _ & Hc & Ht & Hg).
  - intros ep Hin. apply in_app_iff in Hin as [Hin|[<-|Hin]].
    + right. apply Hothers, in_app_iff. now left.
    + now left.
    + right. apply Hothers, in_app_iff. now right.
  - exact Hno.
  - exists w'. split; [exact E|]. split; [|split; [exact Ht | exact Hg]].
    intros ep mp3 Hin Ha.
    destruct (Hothers ep Hin) as (mp3' & Hs & Hne).
    assert (mp3' = mp3) by (destruct Hs as [Ha' _]; congruence). subst mp3'.
    apply (Hc ep); [|exact Hs | exact Hne].
    apply in_app_iff in Hin as [Hin|Hin]; apply in_app_iff; [now left|].
    right; now right.
Qed.

End IsolationClaim.

Lemma one_failure_does_not_stop_the_batch_witness :
  let R := Examples.flaky_remote "gs://mlops-podcast-audio/audio/ep2.flac" in
  doomed R (Examples.episode "ep2") (Examples.mp3 "ep2")
  /\ sound R Examples.start (Examples.episode "ep1") (Examples.mp3 "ep1")
  /\ sound R Examples.start (Examples.episode "ep3") (Examples.mp3 "ep3")
  /\ exists w',
       process_all Json.loads Examples.dumps R
         [Examples.episode "ep1"; Examples.episode "ep2"; Examples.episode "ep3"]
         Examples.start = Done tt w'
       /\ completed (Examples.mp3 "ep1") w'
       /\ completed (Examples.mp3 "ep3") w'
       /\ Fs.exist (transcript_path "ep2") (fs w') = false.
Proof.
  intros R.
  assert (Hbad : doomed R (Examples.episode "ep2") (Examples.mp3 "ep2")).
  { split; [reflexivity|]. intros t. vm_compute. exact I. }
  assert (Hsound : forall base,
             base = "ep1" \/ base = "ep3" ->
             sound R Examples.start (Examples.episode base) (Examples.mp3 base)).
  { intros base [-> | ->].
    - split; [reflexivity|]. split; [reflexivity|].
      split; [intros H; discriminate H|]. split; [intros H; discriminate H|].
      split; [reflexivity|]. split; [reflexivity|]. split; [reflexivity|].
      split; [|intros t prompt H; discriminate H].
      intros t. eexists; eexists; eexists; eexists.
      split; [reflexivity|]. split; [reflexivity|]. split; [reflexivity|].
      split; [reflexivity|]. intros H; discriminate H.
    - split; [reflexivity|]. split; [reflexivity|].
      split; [intros H; discriminate H|]. split; [intros H; discriminate H|].
      split; [reflexivity|]. split; [reflexivity|]. split; [reflexivity|].
      split; [|intros t prompt H; discriminate H].
      intros t. eexists; eexists; eexists; eexists.
      split; [reflexivity|]. split; [reflexivity|]. split; [reflexivity|].
      split; [reflexivity|]. intros H; discriminate H. }
  split; [exact Hbad|].
  split; [apply Hsound; now left|]. split; [apply Hsound; now right|].
  assert (Htitled : forall ep,
             In ep ([Examples.episode "ep1"]
                    ++ Examples.episode "ep2" :: [Examples.episode "ep3"]) ->
             titled ep).
  { intros ep [<-|[<-|[<-|[]]]]; intros H; discriminate H. }
  destruct (one_failure_does_not_stop_the_batch Json.loads Examples.dumps R
              [Examples.episode "ep1"] [Examples.episode "ep3"]
              (Examples.episode "ep2") (Examples.mp3 "ep2") Examples.start
              Htitled Hbad eq_refl) as (w' & E & Hc & Ht & _).
  - intros ep [<-|[<-|[]]].
    + exists (Examples.mp3 "ep1"). split; [apply Hsound; now left|].
      intros H; discriminate H.
    + exists (Examples.mp3 "ep3"). split; [apply Hsound; now right|].
      intros H; discriminate H.
  - exists w'. split; [exact E|].
    split; [apply (Hc (Examples.episode "ep1")); [now left | reflexivity]|].
    split; [apply (Hc (Examples.episode "ep3")); [right; now left | reflexivity]|].
    exact Ht.
Defined.

(** ** The decoder and white space *)

Module JsonFacts.
Import Json StrFacts.

Lemma is_ws_space (c : ascii) : is_ws c = true -> Str.is_space c = true.
Proof.
  destruct c as [[] [] [] [] [] [] [] []]; cbn; intros H;
    try discriminate H; reflexivity.
Qed.

Lemma all_ws_space (w : string) : all_ws w = true -> Str.all_space w = true.
Proof.
  induction w as [|c w IH]; cbn; [reflexivity|].
  intros H; apply andb_true_iff in H as [Hc Hw].
  now rewrite (is_ws_space c Hc), IH.
Qed.

Lemma skip_ws_all_ws (w : string) : all_ws w = true -> skip_ws w = EmptyString.
Proof.
  induction w as [|c w IH]; cbn; [reflexivity|].
  intros H; apply andb_true_iff in H as [Hc Hw]. now rewrite Hc, IH.
Qed.

Lemma skip_ws_empty (s : string) : skip_ws s = EmptyString -> all_ws s = true.
Proof.
  induction s as [|c s IH]; cbn; [reflexivity|].
  destruct (is_ws c); [exact IH | discriminate].
Qed.

(** Skipping white space in front of a text that is followed by white
    space. *)
Lemma skip_ws_app (s w : string) :
  all_ws w = true ->
  skip_ws (s ++ w)
  = match skip_ws s with
    | EmptyString => EmptyString
    | String c r => String c (r ++ w)
    end.
Proof.
  intros Hw; induction s as [|c s IH]; cbn.
  - now apply skip_ws_all_ws.
  - destruct (is_ws c); [exact IH | reflexivity].
Qed.

Lemma skip_ws_length (s : string) : String.length (skip_ws s) <= String.length s.
Proof.
  induction s as [|c s IH]; cbn; [lia|].
  destruct (is_ws c); cbn; lia.
Qed.

(** What [skip_ws] leaves does not start with white space. *)
Lemma skip_ws_head (s : string) (c : ascii) (r : string) :
  skip_ws s = String c r -> is_ws c = false.
Proof.
  induction s as [|a s IH]; cbn; [discriminate|].
  destruct (is_ws a) eqn:E; [exact IH|].
  intros H; injection H as <- _. exact E.
Qed.

Lemma ws_head_cases (w : string) :
  all_ws w = true ->
  w = EmptyString \/ exists c r, w = String c r /\ is_ws c = true.
Proof.
  destruct w as [|c r]; cbn; [now left|].
  intros H; apply andb_true_iff in H as [Hc _]. right; eauto.
Qed.

End JsonFacts.

(** ** The decoder does not mind white space around the text *)

Module DecoderFacts.
Import Json JsonFacts StrFacts.

Section Suffix.

Variable w : string.
Hypothesis Hw : all_ws w = true.

Lemma ws_not_digit (c : ascii) : is_ws c = true -> is_digit c = false.
Proof.
  destruct c as [[] [] [] [] [] [] [] []]; cbn; intros H;
    try discriminate H; reflexivity.
Qed.

Lemma span_digits_ws : span_digits w = (EmptyString, w).
Proof.
  destruct (ws_head_cases w Hw) as [-> | (c & r & -> & Hc)]; [reflexivity|].
  cbn. now rewrite (ws_not_digit c Hc).
Qed.

Lemma span_digits_app (s : string) :
  span_digits (s ++ w) = let (d, rest) := span_digits s in (d, (rest ++ w)%string).
Proof.
  induction s as [|c s IH]; cbn; [apply span_digits_ws|].
  destruct (is_digit c); [|reflexivity].
  rewrite IH. now destruct (span_digits s).
Qed.

Lemma ws_not_code (n : nat) (c : ascii) :
  is_ws c = true -> n <> 32 -> n <> 9 -> n <> 10 -> n <> 13 ->
  (nat_of_ascii c =? n) = false.
Proof.
  unfold is_ws. intros H H1 H2 H3 H4. apply Nat.eqb_neq. intros E.
  rewrite E in H.
  repeat (apply orb_true_iff in H as [H|H]);
    apply Nat.eqb_eq in H; congruence.
Qed.

Lemma scan_frac_app (s : string) :
  scan_frac (s ++ w) = let (f, rest) := scan_frac s in (f, (rest ++ w)%string).
Proof.
  destruct s as [|c r]; cbn.
  - destruct (ws_head_cases w Hw) as [-> | (c & r & -> & Hc)]; [reflexivity|].
    cbn. now rewrite (ws_not_code 46 c Hc) by lia.
  - destruct (nat_of_ascii c =? 46); [|reflexivity].
    rewrite span_digits_app. destruct (span_digits r) as [[|d ds] rest]; reflexivity.
Qed.

Lemma scan_exp_app (s : string) :
  scan_exp (s ++ w) = let (e, rest) := scan_exp s in (e, (rest ++ w)%string).
Proof.
  destruct s as [|c r]; cbn.
  - destruct (ws_head_cases w Hw) as [-> | (c & r & -> & Hc)]; [reflexivity|].
    cbn. now rewrite (ws_not_code 101 c Hc), (ws_not_code 69 c Hc) by lia.
  - destruct ((nat_of_ascii c =? 101) || (nat_of_ascii c =? 69)); [|reflexivity].
    destruct r as [|g r']; cbn.
    + destruct (ws_head_cases w Hw) as [-> | (a & r & -> & Ha)]; [reflexivity|].
      rewrite (ws_not_code 43 a Ha), (ws_not_code 45 a Ha) by lia. cbn.
      now rewrite (ws_not_digit a Ha).
    + destruct ((nat_of_ascii g =? 43) || (nat_of_ascii g =? 45)).
      * rewrite span_digits_app. destruct (span_digits r') as [[|d ds] rest]; reflexivity.
      * change (String g (r' ++ w)) with (String g r' ++ w)%string.
        rewrite span_digits_app.
        destruct (span_digits (String g r')) as [[|d ds] rest]; reflexivity.
Qed.

Lemma scan_unsigned_app (neg : bool) (s : string) :
  scan_unsigned neg (s ++ w) = shift w (scan_unsigned neg s).
Proof.
  unfold scan_unsigned. destruct s as [|c r].
  - cbn [append].
    destruct (ws_head_cases w Hw) as [-> | (c & r & -> & Hc)]; [reflexivity|].
    now rewrite (ws_not_digit c Hc).
  - cbn [append]. destruct (is_digit c) eqn:Ed; [|reflexivity].
    destruct (nat_of_ascii c =? 48).
    + rewrite scan_frac_app. destruct (scan_frac r) as [fp r2].
      rewrite scan_exp_app. destruct (scan_exp r2) as [ep r3].
      destruct (Str.is_empty fp && Str.is_empty ep); reflexivity.
    + change (String c (r ++ w)) with (String c r ++ w)%string.
      rewrite span_digits_app. destruct (span_digits (String c r)) as [ip r1].
      rewrite scan_frac_app. destruct (scan_frac r1) as [fp r2].
      rewrite scan_exp_app. destruct (scan_exp r2) as [ep r3].
      destruct (Str.is_empty fp && Str.is_empty ep); reflexivity.
Qed.

Lemma scan_number_app (s : string) :
  scan_number (s ++ w) = shift w (scan_number s).
Proof.
  unfold scan_number. destruct s as [|c r].
  - cbn [append].
    pose proof (scan_unsigned_app false EmptyString) as Hu. cbn in Hu.
    destruct (ws_head_cases w Hw) as [E | (c & r & E & Hc)];
      rewrite E in *; [reflexivity|].
    now rewrite (ws_not_code 45 c Hc) by lia.
  - cbn [append]. destruct (nat_of_ascii c =? 45).
    + apply scan_unsigned_app.
    + apply (scan_unsigned_app false (String c r)).
Qed.

End Suffix.

Section Suffix2.

Variable w : string.
Hypothesis Hw : all_ws w = true.

Lemma startswith_app (lit : string) :
  solid lit = true -> forall s, Str.startswith lit (s ++ w) = Str.startswith lit s.
Proof.
  induction lit as [|a lit IH]; intros Hs s; [reflexivity|].
  cbn in Hs. apply andb_true_iff in Hs as [Ha Hl].
  destruct s as [|b s]; cbn.
  - destruct (ws_head_cases w Hw) as [E | (c & r & E & Hc)]; rewrite E;
      [reflexivity|].
    cbn. destruct (Ascii.eqb a c) eqn:Eq; [|reflexivity].
    apply Ascii.eqb_eq in Eq; subst c. rewrite Hc in Ha. discriminate Ha.
  - now rewrite IH.
Qed.

Lemma drop_app (lit s : string) :
  Str.startswith lit s = true ->
  drop (String.length lit) (s ++ w) = (drop (String.length lit) s ++ w)%string.
Proof.
  revert s; induction lit as [|a lit IH]; intros s; cbn.
  - intros _. now destruct s.
  - destruct s as [|b s]; [discriminate|]. cbn.
    intros H; apply andb_true_iff in H as [_ H]. now apply IH.
Qed.

Lemma scan_literal_app (ls : list (string * json)) (s : string) :
  forallb (fun p => solid (fst p)) ls = true ->
  scan_literal ls (s ++ w) = shift w (scan_literal ls s).
Proof.
  induction ls as [|[lit v] ls IH]; cbn; [reflexivity|].
  intros H; apply andb_true_iff in H as [Hl Hls].
  rewrite startswith_app by assumption.
  destruct (Str.startswith lit s) eqn:E; [|now apply IH].
  cbn. now rewrite drop_app.
Qed.

Lemma scan_atom_app (s : string) : scan_atom (s ++ w) = shift w (scan_atom s).
Proof.
  unfold scan_atom. rewrite scan_literal_app by reflexivity.
  destruct (scan_literal literals s) as [[v r]|]; [reflexivity|].
  cbn. now apply scan_number_app.
Qed.

Lemma hex_value_ws (c : ascii) : is_ws c = true -> hex_value c = None.
Proof.
  destruct c as [[] [] [] [] [] [] [] []]; cbn; intros H;
    try discriminate H; reflexivity.
Qed.

Lemma escape_ws (c : ascii) : is_ws c = true -> escape c = None.
Proof.
  destruct c as [[] [] [] [] [] [] [] []]; cbn; intros H;
    try discriminate H; reflexivity.
Qed.

Lemma scan_string_ws (v : string) : all_ws v = true -> scan_string v = None.
Proof.
  induction v as [|c v IH]; [reflexivity|].
  cbn [all_ws]. intros H; apply andb_true_iff in H as [Hc Hv].
  specialize (IH Hv). cbn [scan_string].
  rewrite (ws_not_code 34 c Hc), (ws_not_code 92 c Hc) by lia.
  rewrite IH. now destruct (nat_of_ascii c <? 32).
Qed.

Lemma all_ws_tail (c : ascii) (r : string) :
  all_ws (String c r) = true -> is_ws c = true /\ all_ws r = true.
Proof. cbn; intros H; now apply andb_true_iff in H. Qed.

Lemma hex4_ws (a b c d : ascii) :
  is_ws a = true \/ is_ws b = true \/ is_ws c = true \/ is_ws d = true ->
  hex4 a b c d = None.
Proof.
  unfold hex4. intros [H|[H|[H|H]]]; rewrite (hex_value_ws _ H);
    repeat match goal with |- context [hex_value ?x] => destruct (hex_value x) end;
    reflexivity.
Qed.

(** A [\u] escape that runs into white space is refused. *)
Lemma unicode_escape_ws (pre v : string) :
  String.length pre < 4 -> all_ws v = true ->
  match (pre ++ v)%string with
  | String h1 (String h2 (String h3 (String h4 r2))) =>
      match hex4 h1 h2 h3 h4, scan_string r2 with
      | Some u, Some (t, rest) => Some ((utf8 u ++ t)%string, rest)
      | _, _ => None
      end
  | _ => None
  end = None.
Proof.
  intros Hlen Hv.
  destruct pre as [|p1 [|p2 [|p3 [|p4 pre]]]]; cbn in Hlen; try lia;
    cbn [append];
    destruct v as [|a1 [|a2 [|a3 [|a4 v]]]]; try reflexivity;
    cbn in Hv; repeat (apply andb_true_iff in Hv as [? Hv]);
    rewrite hex4_ws by auto; reflexivity.
Qed.

Lemma scan_string_app_n (n : nat) :
  forall r, String.length r <= n ->
  scan_string (r ++ w) = shift w (scan_string r).
Proof.
  induction n as [|n IH]; intros r Hlen.
  - destruct r; [|cbn in Hlen; lia]. cbn [append].
    now rewrite scan_string_ws.
  - destruct r as [|c r]; [cbn [append]; now rewrite scan_string_ws|].
    cbn in Hlen. cbn [append scan_string].
    destruct (nat_of_ascii c =? 34); [reflexivity|].
    destruct (nat_of_ascii c =? 92).
    + destruct r as [|e r1].
      * cbn [append].
        destruct (ws_head_cases w Hw) as [E | (a & w' & E & Ha)]; rewrite E;
          [reflexivity|].
        rewrite (ws_not_code 117 a Ha) by lia.
        now rewrite (escape_ws a Ha).
      * cbn in Hlen. cbn [append]. destruct (nat_of_ascii e =? 117).
        -- destruct (Nat.lt_ge_cases (String.length r1) 4) as [Hs|Hs].
           ++ rewrite (unicode_escape_ws r1 w Hs Hw).
              destruct r1 as [|h1 [|h2 [|h3 [|h4 r2]]]]; try reflexivity.
              cbn in Hs; lia.
           ++ destruct r1 as [|h1 [|h2 [|h3 [|h4 r2]]]]; cbn in Hs; try lia.
              cbn [append]. cbn in Hlen. rewrite IH by lia.
              destruct (hex4 h1 h2 h3 h4), (scan_string r2) as [[t rest]|];
                reflexivity.
        -- rewrite IH by lia.
           destruct (escape e), (scan_string r1) as [[t rest]|]; reflexivity.
    + destruct (nat_of_ascii c <? 32); [reflexivity|]. rewrite IH by lia.
      destruct (scan_string r) as [[t rest]|]; reflexivity.
Qed.

Lemma scan_string_app (r : string) :
  scan_string (r ++ w) = shift w (scan_string r).
Proof. now apply (scan_string_app_n (String.length r)). Qed.

End Suffix2.

Section Suffix3.

Variable w : string.
Hypothesis Hw : all_ws w = true.

Lemma parse_value_nil (f : nat) : parse_value f EmptyString = None.
Proof. now destruct f. Qed.

Lemma parse_items_nil (f : nat) (acc : list json) :
  parse_items f EmptyString acc = None.
Proof. destruct f; [reflexivity|]. cbn. now rewrite parse_value_nil. Qed.

Lemma parse_members_nil (f : nat) (acc : Dict.t json) :
  parse_members f EmptyString acc = None.
Proof. now destruct f. Qed.

(** A scanner that is indifferent to [w] behind the text is so after white
    space has been skipped. *)
Lemma after_skip_ws {A : Type} (g : string -> option (A * string)) (r : string) :
  g EmptyString = None ->
  (forall x, g (x ++ w)%string = shift w (g x)) ->
  g (skip_ws (r ++ w)) = shift w (g (skip_ws r)).
Proof.
  intros Hnil Happ. rewrite (skip_ws_app r w Hw).
  destruct (skip_ws r) as [|c r']; [now rewrite Hnil | apply (Happ (String c r'))].
Qed.

Lemma parse_app (f : nat) :
  (forall s, parse_value f (s ++ w) = shift w (parse_value f s))
  /\ (forall s acc, parse_items f (s ++ w) acc = shift w (parse_items f s acc))
  /\ (forall s acc, parse_members f (s ++ w) acc = shift w (parse_members f s acc)).
Proof.
  induction f as [|f (IHv & IHi & IHm)]; [repeat split; reflexivity|].
  split; [|split].
  - intros s. destruct s as [|c r].
    + cbn [append]. pose proof (scan_atom_app w Hw EmptyString) as Ha.
      cbn [append] in Ha.
      destruct (ws_head_cases w Hw) as [E | (a & w' & E & Hc)]; rewrite E in *;
        [reflexivity|].
      cbn [parse_value]. unfold is_char.
      rewrite (ws_not_code 123 a Hc), (ws_not_code 91 a Hc),
        (ws_not_code 34 a Hc) by lia.
      exact Ha.
    + cbn [append parse_value].
      destruct (is_char 123 c).
      { rewrite (after_skip_ws (fun x => parse_members f x []) r
                   (parse_members_nil f []) (fun x => IHm x [])).
        rewrite (skip_ws_app r w Hw).
        destruct (skip_ws r) as [|c2 r2]; [reflexivity|].
        destruct (is_char 125 c2); reflexivity. }
      destruct (is_char 91 c).
      { rewrite (after_skip_ws (fun x => parse_items f x []) r
                   (parse_items_nil f []) (fun x => IHi x [])).
        rewrite (skip_ws_app r w Hw).
        destruct (skip_ws r) as [|c2 r2]; [reflexivity|].
        destruct (is_char 93 c2); reflexivity. }
      destruct (is_char 34 c).
      { rewrite (scan_string_app w Hw).
        destruct (scan_string r) as [[t rest]|]; reflexivity. }
      apply (scan_atom_app w Hw (String c r)).
  - intros s acc. cbn [parse_items]. rewrite IHv.
    destruct (parse_value f s) as [[v r]|]; [|reflexivity]. cbn [shift].
    rewrite (skip_ws_app r w Hw).
    destruct (skip_ws r) as [|c r2]; [reflexivity|].
    destruct (is_char 44 c).
    { apply (after_skip_ws (fun x => parse_items f x (acc ++ [v])) r2
               (parse_items_nil f _) (fun x => IHi x _)). }
    destruct (is_char 93 c); reflexivity.
  - intros s acc. destruct s as [|q r].
    + cbn [append].
      destruct (ws_head_cases w Hw) as [E | (a & w' & E & Hc)]; rewrite E;
        [reflexivity|].
      cbn [parse_members]. unfold is_char.
      now rewrite (ws_not_code 34 a Hc) by lia.
    + cbn [append parse_members].
      destruct (is_char 34 q); [|reflexivity].
      rewrite (scan_string_app w Hw).
      destruct (scan_string r) as [[k r1]|]; [|reflexivity]. cbn [shift].
      rewrite (skip_ws_app r1 w Hw).
      destruct (skip_ws r1) as [|c1 r2]; [reflexivity|].
      destruct (is_char 58 c1); [|reflexivity].
      rewrite (after_skip_ws (parse_value f) r2 (parse_value_nil f) IHv).
      destruct (parse_value f (skip_ws r2)) as [[v r3]|]; [|reflexivity].
      cbn [shift]. rewrite (skip_ws_app r3 w Hw).
      destruct (skip_ws r3) as [|c3 r4]; [reflexivity|].
      destruct (is_char 44 c3).
      { apply (after_skip_ws (fun x => parse_members f x (Dict.set k v acc)) r4
                 (parse_members_nil f _) (fun x => IHm x _)). }
      destruct (is_char 125 c3); reflexivity.
Qed.

End Suffix3.

Section Shape.

Lemma last_char_app (x c : string) :
  c <> EmptyString -> Str.last_char (x ++ c) = Str.last_char c.
Proof.
  intros Hc; induction x as [|a x IH]; cbn; [reflexivity|].
  rewrite IH. destruct (Str.last_char c) eqn:E; [reflexivity|].
  destruct c; [congruence|]. cbn in E. destruct (Str.last_char c); discriminate.
Qed.

Lemma last_solid_nonempty (c : string) : Str.last_solid c = true -> c <> EmptyString.
Proof. intros H E; subst; discriminate H. Qed.

Lemma last_solid_app (x c : string) :
  Str.last_solid c = true -> Str.last_solid (x ++ c) = true.
Proof.
  intros H. unfold Str.last_solid in *.
  now rewrite last_char_app by (now apply last_solid_nonempty).
Qed.

Lemma last_solid_one (a : ascii) :
  Str.is_space a = false -> Str.last_solid (String a EmptyString) = true.
Proof. unfold Str.last_solid; cbn. now intros ->. Qed.

Lemma rstrip_last_solid (c : string) : Str.last_solid c = true -> Str.rstrip c = c.
Proof.
  induction c as [|a c IH]; [discriminate|].
  unfold Str.last_solid; cbn.
  destruct (Str.last_char c) eqn:E.
  - intros H. rewrite IH by (unfold Str.last_solid; now rewrite E).
    destruct c; [discriminate E|]. cbn. now rewrite andb_false_r.
  - destruct c; [|cbn in E; destruct (Str.last_char c); discriminate].
    cbn. intros H. apply negb_true_iff in H. now rewrite H.
Qed.

Lemma behind_refl (s : string) : behind s s.
Proof. now exists EmptyString. Qed.

Lemma behind_trans (a b c : string) : behind a b -> behind b c -> behind a c.
Proof.
  intros [x ->] [y ->]. exists (y ++ x)%string. now rewrite app_assoc.
Qed.

Lemma behind_cons (c : ascii) (t s : string) : behind t s -> behind t (String c s).
Proof. intros [x ->]. now exists (String c x). Qed.

Lemma behind_tail (c : ascii) (s : string) : behind s (String c s).
Proof. apply behind_cons, behind_refl. Qed.

Lemma behind_length (t s : string) : behind t s -> String.length t <= String.length s.
Proof. intros [x ->]. rewrite length_app. lia. Qed.

Lemma behind_skip_ws (r : string) : behind (skip_ws r) r.
Proof.
  induction r as [|c r IH]; cbn; [apply behind_refl|].
  destruct (is_ws c); [now apply behind_cons | apply behind_refl].
Qed.

Lemma consumes_behind (s rest : string) : consumes s rest -> behind rest s.
Proof. intros (c & -> & _). now exists c. Qed.

Lemma consumes_length (s rest : string) :
  consumes s rest -> String.length rest < String.length s.
Proof.
  intros (c & -> & Hc). rewrite length_app.
  apply last_solid_nonempty in Hc. destruct c; [congruence | cbn; lia].
Qed.

Lemma consumes_ext (s s' rest : string) :
  behind s' s -> consumes s' rest -> consumes s rest.
Proof.
  intros [x ->] (c & -> & Hc). exists (x ++ c)%string. split.
  - now rewrite app_assoc.
  - now apply last_solid_app.
Qed.

Lemma consumes_one (a : ascii) (rest : string) :
  Str.is_space a = false -> consumes (String a rest) rest.
Proof.
  intros Ha. exists (String a EmptyString). split; [reflexivity|].
  now apply last_solid_one.
Qed.

Lemma code_not_space (n : nat) (a : ascii) :
  (nat_of_ascii a =? n) = true -> 32 < n -> Str.is_space a = false.
Proof.
  intros H Hn. apply Nat.eqb_eq in H. unfold Str.is_space. rewrite H.
  apply orb_false_iff; split; apply andb_false_iff; right; apply Nat.leb_gt; lia.
Qed.

Lemma digit_not_space (a : ascii) : is_digit a = true -> Str.is_space a = false.
Proof.
  unfold is_digit, Str.is_space. intros H. apply andb_true_iff in H as [H1 H2].
  apply Nat.leb_le in H1.
  apply orb_false_iff; split; apply andb_false_iff; right; apply Nat.leb_gt; lia.
Qed.

End Shape.

Section ScannerShapes.

Lemma scan_string_consumes_n (n : nat) :
  forall r t rest, String.length r <= n ->
  scan_string r = Some (t, rest) -> consumes r rest.
Proof.
  induction n as [|n IH]; intros r t rest Hlen.
  - destruct r; [discriminate | cbn in Hlen; lia].
  - destruct r as [|c r]; [discriminate|]. cbn in Hlen. cbn [scan_string].
    destruct (nat_of_ascii c =? 34) eqn:E34.
    { intros H; injection H as _ <-.
      apply consumes_one. apply (code_not_space 34); [exact E34 | lia]. }
    destruct (nat_of_ascii c =? 92).
    + destruct r as [|e r1]; [discriminate|]. cbn in Hlen.
      destruct (nat_of_ascii e =? 117).
      * destruct r1 as [|h1 [|h2 [|h3 [|h4 r2]]]]; try discriminate.
        cbn in Hlen.
        destruct (hex4 h1 h2 h3 h4); [|discriminate].
        destruct (scan_string r2) as [[t' rest']|] eqn:E2; [|discriminate].
        intros H; injection H as _ <-.
        apply (consumes_ext _ r2); [|apply (IH r2 t'); [lia | exact E2]].
        do 6 apply behind_cons. apply behind_refl.
      * destruct (escape e); [|discriminate].
        destruct (scan_string r1) as [[t' rest']|] eqn:E1; [|discriminate].
        intros H; injection H as _ <-.
        apply (consumes_ext _ r1); [|apply (IH r1 t'); [lia | exact E1]].
        do 2 apply behind_cons. apply behind_refl.
    + destruct (nat_of_ascii c <? 32); [discriminate|].
      destruct (scan_string r) as [[t' rest']|] eqn:E1; [|discriminate].
      intros H; injection H as _ <-.
      apply (consumes_ext _ r); [apply behind_tail|].
      apply (IH r t'); [lia | exact E1].
Qed.

Lemma scan_string_consumes (r t rest : string) :
  scan_string r = Some (t, rest) -> consumes r rest.
Proof. now apply (scan_string_consumes_n (String.length r)). Qed.

(** The digits, fraction and exponent scanners split their input, and what
    they take, if anything, ends with a digit. *)
Lemma last_solid_cons (a : ascii) (x : string) :
  Str.is_space a = false -> x = EmptyString \/ Str.last_solid x = true ->
  Str.last_solid (String a x) = true.
Proof.
  intros Ha [-> | Hx]; [now apply last_solid_one|].
  now apply (last_solid_app (String a EmptyString)).
Qed.

Lemma span_digits_takes (s : string) :
  forall d rest, span_digits s = (d, rest) -> takes s d rest.
Proof.
  induction s as [|c s IH]; intros d rest; cbn.
  - intros H; injection H as <- <-. split; auto.
  - destruct (is_digit c) eqn:Ec.
    + destruct (span_digits s) as [d' rest'].
      intros H; injection H as <- <-.
      destruct (IH d' rest' eq_refl) as [-> Hd]. split; [reflexivity|].
      right. apply last_solid_cons; [now apply digit_not_space | exact Hd].
    + intros H; injection H as <- <-. split; auto.
Qed.

Lemma scan_frac_takes (s f rest : string) : scan_frac s = (f, rest) -> takes s f rest.
Proof.
  unfold scan_frac. destruct s as [|c r].
  - intros H; injection H as <- <-. split; auto.
  - destruct (nat_of_ascii c =? 46).
    + destruct (span_digits r) as [d rest'] eqn:E.
      apply span_digits_takes in E as [-> Hd].
      destruct d as [|a d].
      * intros H; injection H as <- <-. split; auto.
      * intros H; injection H as <- <-. split; [reflexivity|].
        right. destruct Hd as [Hd|Hd]; [discriminate|].
        now apply (last_solid_app (String c EmptyString)).
    + intros H; injection H as <- <-. split; auto.
Qed.

Lemma scan_exp_takes (s e rest : string) : scan_exp s = (e, rest) -> takes s e rest.
Proof.
  unfold scan_exp. destruct s as [|c r].
  - intros H; injection H as <- <-. split; auto.
  - destruct ((nat_of_ascii c =? 101) || (nat_of_ascii c =? 69)).
    + assert (Hsign : exists sign r1,
                 (match r with
                  | String g r' =>
                      if (nat_of_ascii g =? 43) || (nat_of_ascii g =? 45)
                      then (String g EmptyString, r') else (EmptyString, r)
                  | EmptyString => (EmptyString, r)
                  end) = (sign, r1) /\ r = (sign ++ r1)%string).
      { destruct r as [|g r']; [now exists EmptyString, EmptyString|].
        destruct ((nat_of_ascii g =? 43) || (nat_of_ascii g =? 45));
          [now exists (String g EmptyString), r' | now exists EmptyString, (String g r')]. }
      destruct Hsign as (sign & r1 & -> & ->).
      destruct (span_digits r1) as [d rest'] eqn:E.
      apply span_digits_takes in E as [-> Hd].
      destruct d as [|a d].
      * intros H; injection H as <- <-. split; auto.
      * intros H; injection H as <- <-. split.
        -- cbn. now rewrite app_assoc.
        -- right. destruct Hd as [Hd|Hd]; [discriminate|].
           apply (last_solid_app (String c sign)). exact Hd.
    + intros H; injection H as <- <-. split; auto.
Qed.

Lemma takes_consumes (s x rest x' rest' : string) :
  Str.last_solid x = true -> s = (x ++ rest)%string -> takes rest x' rest' ->
  exists y, s = (y ++ rest')%string /\ Str.last_solid y = true.
Proof.
  intros Hx -> [-> Hx']. exists (x ++ x')%string. split.
  - now rewrite app_assoc.
  - destruct Hx' as [-> | Hx']; [now rewrite app_nil_r | now apply last_solid_app].
Qed.

Lemma scan_unsigned_consumes (neg : bool) (s : string) (v : json) (rest : string) :
  scan_unsigned neg s = Some (v, rest) -> consumes s rest.
Proof.
  unfold scan_unsigned. destruct s as [|c r]; [discriminate|].
  destruct (is_digit c) eqn:Ec; [|discriminate].
  assert (Hip : exists ip r1,
             (if nat_of_ascii c =? 48 then (String c EmptyString, r)
              else span_digits (String c r)) = (ip, r1)
             /\ String c r = (ip ++ r1)%string /\ Str.last_solid ip = true).
  { destruct (nat_of_ascii c =? 48).
    - exists (String c EmptyString), r. repeat split.
      apply last_solid_one. now apply digit_not_space.
    - destruct (span_digits (String c r)) as [ip r1] eqn:E.
      exists ip, r1. split; [reflexivity|].
      pose proof (span_digits_takes _ _ _ E) as [Hs Hd]. split; [exact Hs|].
      destruct Hd as [-> | Hd]; [|exact Hd].
      cbn in E. rewrite Ec in E. destruct (span_digits r); discriminate E. }
  destruct Hip as (ip & r1 & -> & Hs & Hip).
  destruct (scan_frac r1) as [fp r2] eqn:Ef.
  destruct (scan_exp r2) as [ep r3] eqn:Ee.
  apply scan_frac_takes in Ef. apply scan_exp_takes in Ee.
  destruct (takes_consumes _ _ _ _ _ Hip Hs Ef) as (y & Hy & Hys).
  destruct (takes_consumes _ _ _ _ _ Hys Hy Ee) as (z & Hz & Hzs).
  intros H.
  assert (rest = r3) by (destruct (Str.is_empty fp && Str.is_empty ep);
                         now injection H).
  subst rest. now exists z.
Qed.

Lemma scan_number_consumes (s : string) (v : json) (rest : string) :
  scan_number s = Some (v, rest) -> consumes s rest.
Proof.
  unfold scan_number. destruct s as [|c r]; [discriminate|].
  destruct (nat_of_ascii c =? 45).
  - intros H. apply scan_unsigned_consumes in H.
    apply (consumes_ext _ r); [apply behind_tail | exact H].
  - apply scan_unsigned_consumes.
Qed.

Lemma startswith_split (lit s : string) :
  Str.startswith lit s = true -> s = (lit ++ drop (String.length lit) s)%string.
Proof.
  revert s; induction lit as [|a lit IH]; intros s; cbn.
  - now destruct s.
  - destruct s as [|b s]; [discriminate|].
    intros H; apply andb_true_iff in H as [Hab H].
    apply Ascii.eqb_eq in Hab; subst b. cbn. f_equal. now apply IH.
Qed.

Lemma scan_literal_consumes (ls : list (string * json)) (s : string) (v : json)
  (rest : string) :
  forallb (fun p => Str.last_solid (fst p)) ls = true ->
  scan_literal ls s = Some (v, rest) -> consumes s rest.
Proof.
  induction ls as [|[lit v'] ls IH]; cbn; [discriminate|].
  intros H; apply andb_true_iff in H as [Hl Hls].
  destruct (Str.startswith lit s) eqn:E; [|now apply IH].
  intros H; injection H as _ <-.
  exists lit. split; [now apply startswith_split | exact Hl].
Qed.

Lemma scan_atom_consumes (s : string) (v : json) (rest : string) :
  scan_atom s = Some (v, rest) -> consumes s rest.
Proof.
  unfold scan_atom.
  destruct (scan_literal literals s) as [[v' r']|] eqn:E.
  - intros H; injection H as _ <-.
    now apply (scan_literal_consumes literals s v').
  - apply scan_number_consumes.
Qed.

End ScannerShapes.

Section Fuel.

Ltac lengths :=
  repeat match goal with
         | H : behind _ _ |- _ => apply behind_length in H
         | H : consumes _ _ |- _ => apply consumes_length in H
         end;
  cbn [String.length] in *; lia.

(** A successful parse takes a prefix that ends with a character that is not
    white, and succeeds with any fuel that covers what it takes. *)
Lemma parse_bound (f : nat) :
  (forall s v rest,
      parse_value f s = Some (v, rest) ->
      consumes s rest
      /\ forall f', String.length s <= f' + String.length rest ->
                    parse_value f' s = Some (v, rest))
  /\ (forall s acc v rest,
        parse_items f s acc = Some (v, rest) ->
        consumes s rest
        /\ forall f', String.length s <= f' + String.length rest ->
                      parse_items f' s acc = Some (v, rest))
  /\ (forall s acc v rest,
        parse_members f s acc = Some (v, rest) ->
        consumes s rest
        /\ forall f', String.length s <= f' + String.length rest ->
                      parse_members f' s acc = Some (v, rest)).
Proof.
  induction f as [|f (IHv & IHi & IHm)];
    [repeat split; intros; discriminate|].
  split; [|split].
  - intros s v rest H. destruct s as [|c r]; [discriminate|].
    cbn [parse_value] in H.
    destruct (is_char 123 c) eqn:E1.
    { destruct (skip_ws r) as [|c2 r2] eqn:Es; [discriminate|].
      pose proof (behind_skip_ws r) as Hb. rewrite Es in Hb.
      destruct (is_char 125 c2) eqn:E2.
      - injection H as <- <-. split.
        + apply (consumes_ext _ (String c2 r2)); [now apply behind_cons|].
          apply consumes_one, (code_not_space 125); [exact E2 | lia].
        + intros [|f'] Hf; [lengths|].
          cbn [parse_value]. now rewrite E1, Es, E2.
      - apply IHm in H as [Hc Hfuel]. split.
        + apply (consumes_ext _ (String c2 r2)); [now apply behind_cons | exact Hc].
        + intros [|f'] Hf; [lengths|].
          cbn [parse_value]. rewrite E1, Es, E2. apply Hfuel. lengths. }
    destruct (is_char 91 c) eqn:E3.
    { destruct (skip_ws r) as [|c2 r2] eqn:Es; [discriminate|].
      pose proof (behind_skip_ws r) as Hb. rewrite Es in Hb.
      destruct (is_char 93 c2) eqn:E2.
      - injection H as <- <-. split.
        + apply (consumes_ext _ (String c2 r2)); [now apply behind_cons|].
          apply consumes_one, (code_not_space 93); [exact E2 | lia].
        + intros [|f'] Hf; [lengths|].
          cbn [parse_value]. now rewrite E1, E3, Es, E2.
      - apply IHi in H as [Hc Hfuel]. split.
        + apply (consumes_ext _ (String c2 r2)); [now apply behind_cons | exact Hc].
        + intros [|f'] Hf; [lengths|].
          cbn [parse_value]. rewrite E1, E3, Es, E2. apply Hfuel. lengths. }
    destruct (is_char 34 c) eqn:E4.
    { destruct (scan_string r) as [[t rest']|] eqn:Est; [|discriminate].
      injection H as <- <-.
      pose proof (scan_string_consumes _ _ _ Est) as Hc. split.
      - apply (consumes_ext _ r); [apply behind_tail | exact Hc].
      - intros [|f'] Hf; [lengths|].
        cbn [parse_value]. now rewrite E1, E3, E4, Est. }
    pose proof (scan_atom_consumes _ _ _ H) as Hc. split; [exact Hc|].
    intros [|f'] Hf; [lengths|].
    cbn [parse_value]. now rewrite E1, E3, E4.
  - intros s acc v rest H. cbn [parse_items] in H.
    destruct (parse_value f s) as [[v1 r1]|] eqn:Ev; [|discriminate].
    destruct (skip_ws r1) as [|c r2] eqn:Es; [discriminate|].
    pose proof (behind_skip_ws r1) as Hb1. rewrite Es in Hb1.
    apply IHv in Ev as [Hcv Hfv].
    pose proof (consumes_behind _ _ Hcv) as Hbs.
    pose proof (behind_skip_ws r2) as Hb2.
    destruct (is_char 44 c) eqn:E44.
    { apply IHi in H as [Hci Hfi]. split.
      - apply (consumes_ext _ (skip_ws r2)); [|exact Hci].
        apply (behind_trans _ r1); [|exact Hbs].
        apply (behind_trans _ (String c r2)); [|exact Hb1].
        now apply behind_cons.
      - intros [|f'] Hf; [lengths|].
        cbn [parse_items]. rewrite (Hfv f') by lengths.
        rewrite Es, E44. apply Hfi. lengths. }
    destruct (is_char 93 c) eqn:E93; [|discriminate].
    injection H as <- <-. split.
    + apply (consumes_ext _ (String c r2));
        [exact (behind_trans _ _ _ Hb1 Hbs)|].
      apply consumes_one, (code_not_space 93); [exact E93 | lia].
    + intros [|f'] Hf; [lengths|].
      cbn [parse_items]. rewrite (Hfv f') by lengths.
      now rewrite Es, E44, E93.
  - intros s acc v rest H. destruct s as [|q r]; [discriminate|].
    cbn [parse_members] in H.
    destruct (is_char 34 q) eqn:Eq; [|discriminate].
    destruct (scan_string r) as [[k r1]|] eqn:Est; [|discriminate].
    pose proof (consumes_behind _ _ (scan_string_consumes _ _ _ Est)) as Hbk.
    destruct (skip_ws r1) as [|c1 r2] eqn:Es1; [discriminate|].
    pose proof (behind_skip_ws r1) as Hb1. rewrite Es1 in Hb1.
    destruct (is_char 58 c1) eqn:E58; [|discriminate].
    destruct (parse_value f (skip_ws r2)) as [[v1 r3]|] eqn:Ev; [|discriminate].
    pose proof (behind_skip_ws r2) as Hb2.
    apply IHv in Ev as [Hcv Hfv].
    pose proof (consumes_behind _ _ Hcv) as Hb3.
    destruct (skip_ws r3) as [|c3 r4] eqn:Es3; [discriminate|].
    pose proof (behind_skip_ws r3) as Hb4. rewrite Es3 in Hb4.
    pose proof (behind_skip_ws r4) as Hb5.
    assert (Hchain : behind (String c3 r4) (String q r)).
    { apply behind_cons.
      apply (behind_trans _ r1); [|exact Hbk].
      apply (behind_trans _ (String c1 r2)); [|exact Hb1].
      apply behind_cons.
      apply (behind_trans _ (skip_ws r2)); [|exact Hb2].
      apply (behind_trans _ r3); [exact Hb4 | exact Hb3]. }
    destruct (is_char 44 c3) eqn:E44.
    { apply IHm in H as [Hcm Hfm]. split.
      - apply (consumes_ext _ (skip_ws r4)); [|exact Hcm].
        apply (behind_trans _ (String c3 r4)); [|exact Hchain].
        now apply behind_cons.
      - intros [|f'] Hf; [lengths|].
        cbn [parse_members]. rewrite Eq, Est, Es1, E58.
        rewrite (Hfv f') by lengths.
        rewrite Es3, E44. apply Hfm. lengths. }
    destruct (is_char 125 c3) eqn:E125; [|discriminate].
    injection H as <- <-. split.
    + apply (consumes_ext _ (String c3 r4)); [exact Hchain|].
      apply consumes_one, (code_not_space 125); [exact E125 | lia].
    + intros [|f'] Hf; [lengths|].
      cbn [parse_members]. rewrite Eq, Est, Es1, E58.
      rewrite (Hfv f') by lengths.
      now rewrite Es3, E44, E125.
Qed.

(** Whatever a parse yields with some fuel, it yields with the fuel that
    [loads] gives it. *)
Lemma fuel_is_enough (f : nat) (s : string) (v : json) (rest : string) :
  parse_value f s = Some (v, rest) ->
  parse_value (S (String.length s)) s = Some (v, rest).
Proof.
  intros H. destruct (parse_bound f) as [Hb _].
  destruct (Hb s v rest H) as [_ Hfuel]. apply Hfuel. lia.
Qed.

End Fuel.

Section Strip.

Lemma space_not_value (c : ascii) (f : nat) (r : string) :
  Str.is_space c = true -> parse_value f (String c r) = None.
Proof.
  destruct f as [|f]; [reflexivity|].
  destruct c as [[] [] [] [] [] [] [] []]; intros H;
    try discriminate H; reflexivity.
Qed.

(** When the text parses, the white space in front of it is all white space
    of JSON. *)
Lemma skip_ws_lstrip (f : nat) (p : string) :
  parse_value f (skip_ws p) <> None -> skip_ws p = Str.lstrip p.
Proof.
  induction p as [|c p IH]; [reflexivity|]. cbn [skip_ws Str.lstrip].
  destruct (is_ws c) eqn:Ew.
  - rewrite (is_ws_space c Ew). exact IH.
  - destruct (Str.is_space c) eqn:Es; [|reflexivity].
    intros H. exfalso. apply H. now apply space_not_value.
Qed.

Lemma skip_ws_solid_head (a : ascii) (c : string) :
  is_ws a = false -> skip_ws (String a c) = String a c.
Proof. cbn. now intros ->. Qed.

Lemma fence_not_value (f : nat) (c : string) :
  Str.startswith fence c = true -> parse_value f c = None.
Proof.
  destruct c as [|a c]; [discriminate|]. unfold fence. cbn [Str.startswith].
  intros H; apply andb_true_iff in H as [Ha _].
  apply Ascii.eqb_eq in Ha; subst a. now destruct f.
Qed.

(** A text that the decoder accepts is accepted, with the same result, once
    it is stripped; and it does not open with a code fence. *)
Lemma loads_strip (p : string) (v : json) :
  loads p = Some v ->
  loads (Str.strip p) = Some v /\ Str.startswith fence (Str.strip p) = false.
Proof.
  unfold loads at 1.
  destruct (parse_value (S (String.length p)) (skip_ws p)) as [[v' rest]|] eqn:E;
    [|discriminate].
  destruct (Str.is_empty (skip_ws rest)) eqn:Er; [|discriminate].
  intros H; injection H as ->.
  apply is_empty_true, skip_ws_empty in Er.
  assert (Hlead : skip_ws p = Str.lstrip p).
  { apply (skip_ws_lstrip (S (String.length p))). now rewrite E. }
  destruct (parse_bound (S (String.length p))) as [Hb _].
  destruct (Hb _ _ _ E) as [(c & Hs & Hc) _].
  assert (Hstrip : Str.strip p = c).
  { unfold Str.strip. rewrite <- Hlead, Hs.
    rewrite rstrip_app_space by (now apply all_ws_space).
    now apply rstrip_last_solid. }
  rewrite Hstrip.
  destruct (parse_app rest Er (S (String.length p))) as [Happ _].
  rewrite Hs, Happ in E.
  destruct (parse_value (S (String.length p)) c) as [[v1 r0]|] eqn:Ec;
    [|discriminate].
  cbn [shift] in E. injection E as -> Hr.
  assert (r0 = EmptyString).
  { apply (f_equal String.length) in Hr. rewrite length_app in Hr.
    destruct r0; [reflexivity | cbn in Hr; lia]. }
  subst r0.
  split.
  - destruct (Hb _ _ _ Ec) as [_ Hfuel].
    assert (Hskip : skip_ws c = c).
    { destruct c as [|a c']; [reflexivity|].
      apply skip_ws_solid_head.
      apply (skip_ws_head p a (c' ++ rest)%string). now rewrite Hs. }
    unfold loads. rewrite Hskip, (Hfuel (S (String.length c))) by (cbn; lia).
    reflexivity.
  - destruct (Str.startswith fence c) eqn:Ef; [|reflexivity].
    rewrite (fence_not_value _ c Ef) in Ec. discriminate Ec.
Qed.

End Strip.

End DecoderFacts.

(** ** Fenced responses *)

(** C10.  When the stripped response opens with a code fence, the text handed
    to the decoder is the response without its first and last lines; so a
    response that is one fenced block is decoded as its payload is, and a
    fenced JSON payload yields the same annotation as the payload sent
    without the fence. *)
Theorem fenced_payload_parses_like_bare :
  (forall raw,
      Str.startswith fence (Str.strip raw) = true ->
      response_text raw
      = Str.join Str.nl (Str.slice_1_m1 (Str.split Str.newline (Str.strip raw))))
  /\ (forall (json_loads : string -> option json) pre info payload post,
        Str.all_space pre = true -> Str.all_space post = true ->
        Str.no_newline info ->
        parse_response json_loads (fenced pre info payload post)
        = decode_or_error json_loads payload)
  /\ (forall pre info payload post data,
        Str.all_space pre = true -> Str.all_space post = true ->
        Str.no_newline info ->
        Json.loads payload = Some data ->
        parse_response Json.loads (fenced pre info payload post) = data
        /\ parse_response Json.loads payload = data).
Proof.
  split; [|split].
  - intros raw H. unfold response_text. now rewrite H.
  - intros json_loads pre info payload post Hpre Hpost Hinfo.
    unfold parse_response. now rewrite response_text_fenced.
  - intros pre info payload post data Hpre Hpost Hinfo Hload.
    unfold parse_response. rewrite response_text_fenced by assumption.
    destruct (DecoderFacts.loads_strip payload data Hload) as [Hs Hf].
    rewrite (response_text_bare payload Hf).
    unfold decode_or_error. now rewrite Hload, Hs.
Qed.

Lemma fenced_payload_parses_like_bare_witness :
  let q := Str.dq in
  let payload :=
    (" {" ++ q ++ "tech_tags" ++ q ++ ": [" ++ q ++ "MLflow" ++ q ++ "]} ")%string in
  let data := JObj [("tech_tags", JArr [JStr "MLflow"])] in
  Str.all_space Str.nl = true
  /\ Str.no_newline "json"
  /\ Json.loads payload = Some data
  /\ parse_response Json.loads
       ("```json" ++ Str.nl ++ payload ++ Str.nl ++ "```" ++ Str.nl)%string = data
  /\ parse_response Json.loads payload = data.
Proof.
  intros q payload data.
  split; [reflexivity|]. split; [reflexivity|]. split; [reflexivity|].
  destruct fenced_payload_parses_like_bare as (_ & _ & H).
  exact (H EmptyString "json" payload Str.nl data eq_refl eq_refl eq_refl eq_refl).
Defined.

(** * Further properties of the pipeline *)

Section StageEval.
Variable R : Remote.

Lemma convert_eval (mp3_path : Path.t) (w : World) :
  convert_to_flac R mp3_path w
  = let flac := Path.with_suffix ".flac" mp3_path in
    if Fs.exist flac (fs w) then Done (Some flac) w
    else
      let w1 := after_call (Convert mp3_path) w in
      match ffmpeg R (clock w) mp3_path with
      | None => Raised OSError w1
      | Some true => Done (Some flac) (set_fs (Fs.write flac Audio (fs w)) w1)
      | Some false => Done None w1
      end.
Proof.
  unfold convert_to_flac, bind, path_exists, invoke, modify, tick, write_file.
  cbv zeta. destruct (Fs.exist _ (fs w)); [reflexivity|]. cbn.
  destruct (ffmpeg R (clock w) mp3_path) as [[|]|]; reflexivity.
Qed.

Lemma upload_eval (local_path : Path.t) (w : World) :
  upload_to_gcs R local_path w
  = let blob := blob_name_of local_path in
    if negb (blob_probe R (clock w) blob) then Raised NetworkError (advance w)
    else if existsb (String.eqb blob) (bucket w)
    then Done (gs_uri blob) (advance w)
    else
      let w1 := after_call (Upload blob) (advance w) in
      if upload_from_filename R (S (clock w)) blob
      then Done (gs_uri blob) (set_bucket (bucket w ++ [blob]) w1)
      else Raised NetworkError w1.
Proof.
  unfold upload_to_gcs, bind, tick, get_world, invoke, modify.
  cbv beta iota zeta.
  destruct (negb _); [reflexivity|]. cbv beta iota.
  change (bucket (advance w)) with (bucket w).
  destruct (existsb _ _); [reflexivity|]. cbv beta iota.
  cbn [clock log_call advance].
  destruct (upload_from_filename R _ _); reflexivity.
Qed.

End StageEval.

Module TreeFacts.
Import FsFacts.

Lemma in_exist (p : Path.t) (c : content) (f : Fs.t) :
  In (p, c) f -> Fs.exist p f = true.
Proof.
  unfold Fs.exist. induction f as [|[q c'] f IH]; cbn; [intros []|].
  intros [H|H].
  - injection H as -> ->. now rewrite PathFacts.eqb_refl.
  - destruct (Path.eqb p q); [reflexivity | now apply IH].
Qed.

Lemma read_none_not_in (p : Path.t) (f : Fs.t) :
  ~ In p (map fst f) -> Fs.read p f = None.
Proof.
  induction f as [|[q c] f IH]; cbn; [reflexivity|]. intros H.
  destruct (Path.eqb p q) eqn:E.
  - apply PathFacts.eqb_eq in E. subst. tauto.
  - apply IH. tauto.
Qed.

Lemma read_unlink_same (p : Path.t) (f : Fs.t) :
  listed_once f -> Fs.read p (Fs.unlink p f) = None.
Proof.
  unfold listed_once. induction f as [|[q c] f IH]; cbn; [reflexivity|].
  intros H. inversion H as [|x l Hn Hd]; subst.
  destruct (Path.eqb p q) eqn:E.
  - apply PathFacts.eqb_eq in E. subst. now apply read_none_not_in.
  - cbn. rewrite E. now apply IH.
Qed.

Lemma paths_write (p : Path.t) (c : content) (f : Fs.t) :
  map fst (Fs.write p c f)
  = if Fs.exist p f then map fst f else map fst f ++ [p].
Proof.
  unfold Fs.exist. induction f as [|[q c'] f IH]; cbn; [reflexivity|].
  destruct (Path.eqb p q) eqn:E; cbn; [reflexivity|].
  rewrite IH. destruct (Fs.read p f); reflexivity.
Qed.

Lemma listed_once_write (p : Path.t) (c : content) (f : Fs.t) :
  listed_once f -> listed_once (Fs.write p c f).
Proof.
  unfold listed_once. rewrite paths_write. intros H.
  destruct (Fs.exist p f) eqn:E; [exact H|].
  apply NoDup_app; [exact H | repeat constructor; intros [] |].
  intros x Hx [<-|[]]. apply in_map_iff in Hx as [[q c'] [Hq Hin]]. cbn in Hq; subst.
  apply in_exist in Hin. congruence.
Qed.

End TreeFacts.

Section StagePosts.
Import FsFacts TreeFacts.
Variable R : Remote.

Lemma existsb_eqb_in (x : string) (l : list string) :
  existsb (String.eqb x) l = true <-> In x l.
Proof.
  rewrite existsb_exists. split.
  - intros [y [Hy E]]. apply String.eqb_eq in E. now subst.
  - intros H. exists x. split; [exact H | apply String.eqb_refl].
Qed.

(** X2.  [upload_to_gcs] ends; the URI it returns is
    [gs://mlops-podcast-audio/audio/<name>], and the blob of that name is in
    the bucket when it returns; no blob is ever removed; the upload is
    requested only for a blob that is not in the bucket; and a failure leaves
    the bucket as it was.  No local file is touched. *)
Theorem upload_returns_a_blob_that_is_there :
  forall (local_path : Path.t) (w : World),
    let blob := blob_name_of local_path in
    match upload_to_gcs R local_path w with
    | Done uri w' =>
        uri = ("gs://mlops-podcast-audio/audio/" ++ Path.name local_path)%string
        /\ In blob (bucket w')
        /\ incl (bucket w) (bucket w')
        /\ fs w' = fs w
        /\ ((In blob (bucket w) /\ calls w' = calls w)
            \/ (~ In blob (bucket w) /\ calls w' = calls w ++ [Upload blob]))
    | Raised _ w' => bucket w' = bucket w /\ fs w' = fs w
    | Hangs => False
    end.
Proof.
  intros local_path w blob. rewrite upload_eval; cbv zeta. fold blob.
  destruct (negb _); [cbn; auto|].
  destruct (existsb (String.eqb blob) (bucket w)) eqn:E.
  - apply existsb_eqb_in in E. cbn. repeat split; auto using incl_refl.
  - assert (Hn : ~ In blob (bucket w)).
    { intros H. apply existsb_eqb_in in H. congruence. }
    destruct (upload_from_filename R _ _); cbn; [|auto].
    repeat split; auto.
    + apply in_or_app; right; now left.
    + now apply incl_appl, incl_refl.
Qed.

Lemma concat_results_none (results : list (list string)) :
  concat_results results = None <-> In [] results.
Proof.
  induction results as [|alts results IH]; cbn.
  - split; [discriminate | intros []].
  - destruct alts as [|a alts].
    + split; auto.
    + destruct (concat_results results).
      * split; [discriminate|]. intros [H|H]; [discriminate|].
        apply IH in H. discriminate.
      * split; auto. intros _. right. now apply IH.
Qed.

(** X3.  A recognition that completes with a result that has no alternative
    makes [transcribe_from_gcs] raise [IndexError], whatever the other
    results hold: no transcript is returned for the part that was
    recognised. *)
Theorem result_without_alternative_raises :
  forall (uri : string) (w : World) (op : Operation) (k : nat)
         (results : list (list string)),
    long_running_recognize R (clock w) uri = Some op ->
    ready_after op = Some k ->
    outcome op = Some results ->
    In [] results ->
    transcribe_from_gcs R uri w = Raised IndexError (after_call (Transcribe uri) w).
Proof.
  intros uri w op k results Hop Hk Hout Hin.
  rewrite transcribe_eval; cbv zeta.
  rewrite Hop, (polling_loop_exits op k Hk), Hout.
  apply concat_results_none in Hin. now rewrite Hin.
Qed.

Lemma cleanup_removes (flac_path : Path.t) (w : World) :
  listed_once (fs w) ->
  Fs.exist flac_path
    (fs (if Fs.exist flac_path (fs w)
         then set_fs (Fs.unlink flac_path (fs w)) w else w)) = false.
Proof.
  intros Hw. destruct (Fs.exist flac_path (fs w)) eqn:E; [|exact E].
  cbn. unfold Fs.exist. now rewrite read_unlink_same.
Qed.

Lemma upload_keeps_files (local_path : Path.t) (w : World) :
  post (upload_to_gcs R local_path w) (fun w' => fs w' = fs w).
Proof.
  rewrite upload_eval; cbv zeta.
  destruct (negb _); [reflexivity|]. destruct (existsb _ _); [reflexivity|].
  destruct (upload_from_filename R _ _); reflexivity.
Qed.

Lemma transcribe_keeps_files (uri : string) (w : World) :
  post (transcribe_from_gcs R uri w) (fun w' => fs w' = fs w).
Proof.
  rewrite transcribe_eval; cbv zeta.
  destruct (long_running_recognize R (clock w) uri) as [op|]; [|reflexivity].
  destruct (polling_loop op); [|exact I].
  destruct (outcome op) as [results|]; [|reflexivity].
  destruct (concat_results results); reflexivity.
Qed.

(** X5.  Step 1 never raises.  When it saves a transcript, or catches an
    exception of the upload or of the recognition, the FLAC file is gone
    when it returns; the one way the FLAC file outlives the step is a
    recognition that yields an empty transcript, after which the step
    returns at once with every file as it was. *)
Theorem flac_is_removed_unless_transcript_is_empty :
  forall (base_name : string) (flac_path : Path.t) (w : World),
    listed_once (fs w) ->
    Path.suffix flac_path = ".flac" ->
    match transcribe_step R base_name flac_path w with
    | Done (Some t) w' =>
        t <> EmptyString
        /\ Fs.read (transcript_path base_name) (fs w') = Some (Text t)
        /\ Fs.exist flac_path (fs w') = false
    | Done None w' =>
        Fs.exist flac_path (fs w') = false
        \/ (fs w' = fs w
            /\ exists uri w1,
                 upload_to_gcs R flac_path w = Done uri w1
                 /\ transcribe_from_gcs R uri w1 = Done EmptyString w')
    | Raised _ _ => False
    | Hangs => True
    end.
Proof.
  intros base_name flac_path w Hw Hsuf.
  assert (Hne : transcript_path base_name <> flac_path).
  { intros E. rewrite <- E in Hsuf. discriminate Hsuf. }
  rewrite transcribe_step_unfold; cbv zeta.
  pose proof (upload_keeps_files flac_path w) as Hu.
  destruct (upload_to_gcs R flac_path w) as [uri w1|e w1|] eqn:Eu; cbn in Hu.
  - pose proof (transcribe_keeps_files uri w1) as Ht.
    destruct (transcribe_from_gcs R uri w1) as [t w2|e w2|] eqn:Et; cbn in Ht.
    + destruct (Str.is_empty t) eqn:Em.
      * right. apply StrFacts.is_empty_true in Em. subst t.
        split; [congruence | eauto].
      * split; [intros ->; discriminate Em|].
        assert (H1 : listed_once (Fs.write (transcript_path base_name) (Text t) (fs w2))).
        { apply listed_once_write. now rewrite Ht, Hu. }
        cbn [fs].
        set (f1 := Fs.write (transcript_path base_name) (Text t) (fs w2)) in *.
        destruct (Fs.exist flac_path f1) eqn:E; split.
        -- rewrite read_unlink_other by congruence. apply read_write_same.
        -- unfold Fs.exist. now rewrite read_unlink_same.
        -- apply read_write_same.
        -- exact E.
    + left. apply cleanup_removes. now rewrite Ht, Hu.
    + exact I.
  - left. apply cleanup_removes. now rewrite Hu.
  - exact I.
Qed.

End StagePosts.

Section Footprint.
Import PathFacts FsFacts.

Lemma frame_outside (X : Path.t -> Prop) :
  frame (outside X) (fun _ => True) (fun p _ => X p) (fun p => X p) True.
Proof.
  constructor; unfold outside; cbn; auto.
  - intros x y z H1 H2 p Hp. rewrite H2, H1; auto.
  - intros p c w Hp q Hq. apply read_write_other. congruence.
  - intros p w Hp q Hq. apply read_unlink_other. congruence.
Qed.

Variable json_loads : string -> option json.
Variable json_dumps : json -> string.
Variable R : Remote.

Lemma resolved_outside (ep : Episode) (mp3_path : Path.t) :
  keeps (outside (artifacts_of mp3_path)) any
    (process_resolved json_loads json_dumps R ep mp3_path).
Proof.
  apply (keeps_process_resolved json_loads json_dumps R _ _ _ _ _
           (frame_outside (artifacts_of mp3_path)));
    unfold artifacts_of; cbv zeta; auto.
Qed.

End Footprint.

Section Order.
Import FsFacts.

Variable json_loads : string -> option json.
Variable json_dumps : json -> string.
Variable R : Remote.

Lemma adds_nil (w : World) : adds [] w w.
Proof. unfold adds. now rewrite app_nil_r. Qed.

Lemma adds_app (l1 l2 : list Call) (a b c : World) :
  adds l1 a b -> adds l2 b c -> adds (l1 ++ l2) a c.
Proof. unfold adds. intros H1 H2. now rewrite H2, H1, app_assoc. Qed.

Lemma adds_convert (mp3_path : Path.t) (w : World) :
  post (convert_to_flac R mp3_path w)
       (fun w' => exists c, adds (pick c (Convert mp3_path)) w w').
Proof.
  rewrite convert_eval; cbv zeta.
  destruct (Fs.exist _ (fs w)); [exists false; apply adds_nil|].
  destruct (ffmpeg R (clock w) mp3_path) as [[|]|]; exists true; reflexivity.
Qed.

Lemma adds_upload (local_path : Path.t) (w : World) :
  post (upload_to_gcs R local_path w)
       (fun w' => exists u, adds (pick u (Upload (blob_name_of local_path))) w w').
Proof.
  rewrite upload_eval; cbv zeta.
  destruct (negb _); [exists false; apply (adds_nil w)|].
  destruct (existsb _ _); [exists false; apply (adds_nil w)|].
  destruct (upload_from_filename R _ _); exists true; reflexivity.
Qed.

Lemma adds_transcribe (uri : string) (w : World) :
  post (transcribe_from_gcs R uri w) (adds [Transcribe uri] w).
Proof.
  rewrite transcribe_eval; cbv zeta.
  destruct (long_running_recognize R (clock w) uri) as [op|]; [|reflexivity].
  destruct (polling_loop op); [|exact I].
  destruct (outcome op) as [results|]; [|reflexivity].
  destruct (concat_results results); reflexivity.
Qed.

Lemma adds_cleanup (flac_path : Path.t) (l : list Call) (w w0 : World) :
  adds l w w0 ->
  adds l w (if Fs.exist flac_path (fs w0)
            then set_fs (Fs.unlink flac_path (fs w0)) w0 else w0).
Proof. destruct (Fs.exist flac_path (fs w0)); auto. Qed.

Lemma adds_transcribe_step (base_name : string) (flac_path : Path.t) (w : World) :
  post (transcribe_step R base_name flac_path w)
       (fun w' => exists u t,
            adds (pick u (Upload (blob_name_of flac_path))
                  ++ pick t (Transcribe (gs_uri (blob_name_of flac_path)))) w w').
Proof.
  rewrite transcribe_step_unfold; cbv zeta.
  pose proof (adds_upload flac_path w) as Hu.
  pose proof (keeps_upload R _ _ _ _ _ (frame_quiet (fun _ => false)) flac_path
                eq_refl w) as Hv.
  destruct (upload_to_gcs R flac_path w) as [uri w1|e w1|]; cbn in Hu.
  - destruct Hu as [u Hu]. destruct Hv as [-> _].
    pose proof (adds_transcribe (gs_uri (blob_name_of flac_path)) w1) as Ht.
    destruct (transcribe_from_gcs R _ w1) as [t w2|e w2|]; cbn in Ht; [| |exact I].
    + destruct (Str.is_empty t); cbn; exists u, true.
      * exact (adds_app _ _ _ _ _ Hu Ht).
      * exact (adds_app _ _ _ _ _ Hu Ht).
    + cbn. exists u, true. apply adds_cleanup. exact (adds_app _ _ _ _ _ Hu Ht).
  - destruct Hu as [u Hu]. cbn. exists u, false.
    apply adds_cleanup. unfold pick at 2. now rewrite app_nil_r.
  - exact I.
Qed.

Lemma adds_tag_step (base_name transcript title : string) (w : World) :
  post (tag_step json_loads R base_name transcript title w)
       (fun w' => exists a, adds (pick a (Annotate (build_prompt transcript title))) w w').
Proof.
  rewrite tag_step_eval.
  destruct (Fs.exist _ (fs w)); [exists false; apply adds_nil|]. cbv zeta.
  destruct (generate_content R (clock w) _); exists true; reflexivity.
Qed.

Lemma adds_first_step (mp3_path : Path.t) (present : bool) (w : World) :
  let flac := Path.with_suffix ".flac" mp3_path in
  post (first_step json_dumps R mp3_path present w)
       (fun w' => exists c u t,
            adds (pick c (Convert mp3_path)
                  ++ pick u (Upload (blob_name_of flac))
                  ++ pick t (Transcribe (gs_uri (blob_name_of flac)))) w w').
Proof.
  intros flac. unfold first_step. destruct present.
  - destruct (read_text_cases json_dumps (transcript_path (Path.stem mp3_path)) w)
      as [[s Hs]|[e He]].
    + erewrite bind_done; [|exact Hs]. exists false, false, false. apply adds_nil.
    + erewrite bind_raised; [|exact He]. exists false, false, false. apply adds_nil.
  - pose proof (adds_convert mp3_path w) as Hc.
    pose proof (keeps_convert R _ _ _ _ _ (frame_quiet (fun _ => false)) mp3_path
                  eq_refl I w) as Hv.
    destruct (convert_to_flac R mp3_path w) as [[fl|] w1|e w1|] eqn:Ec; cbn in Hc.
    + destruct Hc as [c Hc]. destruct Hv as [[Hv|Hv] _]; [discriminate|].
      injection Hv as ->. erewrite bind_done; [|exact Ec]. cbv beta iota.
      pose proof (adds_transcribe_step (Path.stem mp3_path) flac w1) as Ht.
      fold flac.
      destruct (transcribe_step R (Path.stem mp3_path) flac w1) as [o w2|e w2|];
        cbn in Ht |- *; [| |exact I];
        destruct Ht as (u & t & Ht); exists c, u, t;
        exact (adds_app _ _ _ _ _ Hc Ht).
    + destruct Hc as [c Hc]. erewrite bind_done; [|exact Ec]. cbn.
      exists c, false, false. unfold pick at 2 3. cbn. now rewrite app_nil_r.
    + destruct Hc as [c Hc]. erewrite bind_raised; [|exact Ec]. cbn.
      exists c, false, false. unfold pick at 2 3. cbn. now rewrite app_nil_r.
    + erewrite bind_hangs; [exact I | exact Ec].
Qed.

(** X7.  For one item the stage executors are invoked in the order Convert,
    Upload, Transcribe, Annotate, each at most once, on the audio file of
    the item, on the blob of its FLAC file, on the URI of that blob, and on a
    prompt made with the title of the item; an item without an audio file
    invokes none. *)
Theorem stages_run_in_order_at_most_once :
  forall (ep : Episode) (w : World),
    match process_episode json_loads json_dumps R ep w with
    | Done _ w' | Raised _ w' =>
        match resolve_local_file ep (fs w) with
        | inr (Some mp3_path) =>
            let flac := Path.with_suffix ".flac" mp3_path in
            exists (c u t a : bool) (transcript : string),
              calls w'
              = calls w
                ++ pick c (Convert mp3_path)
                ++ pick u (Upload (blob_name_of flac))
                ++ pick t (Transcribe (gs_uri (blob_name_of flac)))
                ++ pick a (Annotate (build_prompt transcript (title_of ep)))
        | _ => calls w' = calls w
        end
    | Hangs => True
    end.
Proof.
  intros ep w. rewrite process_episode_unfold.
  destruct (resolve_local_file ep (fs w)) as [e|[mp3|]]; try reflexivity.
  destruct (Fs.exist mp3 (fs w)).
  2:{ cbv zeta. exists false, false, false, false, EmptyString.
      cbn. now rewrite app_nil_r. }
  rewrite process_resolved_eval; cbv zeta.
  pose proof (adds_first_step mp3
                (Fs.exist (transcript_path (Path.stem mp3)) (fs w)) w) as H1.
  cbv zeta in H1.
  destruct (first_step json_dumps R mp3 _ w) as [[tr|] w1|e w1|]; cbn in H1;
    [| | |exact I].
  - destruct H1 as (c & u & t & H1).
    pose proof (adds_tag_step (Path.stem mp3) tr (title_of ep) w1) as H2.
    destruct (tag_step json_loads R (Path.stem mp3) tr (title_of ep) w1)
      as [[] w2|e w2|]; cbn in H2; [| |exact I];
      destruct H2 as [a H2]; exists c, u, t, a, tr;
      pose proof (adds_app _ _ _ _ _ H1 H2) as H; unfold adds in H;
      now rewrite H, <- !app_assoc.
  - destruct H1 as (c & u & t & H1). exists c, u, t, false, EmptyString.
    unfold adds in H1. rewrite H1. unfold pick at 4. now rewrite !app_nil_r.
  - destruct H1 as (c & u & t & H1). exists c, u, t, false, EmptyString.
    unfold adds in H1. rewrite H1. unfold pick at 4. now rewrite !app_nil_r.
Qed.

End Order.

Section Ledger.
Import FsFacts.

Variable json_loads : string -> option json.
Variable json_dumps : json -> string.
Variable R : Remote.

Lemma recorded_nothing (b : string) (p : Progress) : recorded b false false p = p.
Proof. destruct p; unfold recorded, pick; cbn. now rewrite !app_nil_r. Qed.

Lemma recorded_tagged (b : string) (i : bool) (p : Progress) :
  append_tagged b (recorded b i false p) = recorded b i true p.
Proof. unfold append_tagged, recorded, pick; cbn. now rewrite app_nil_r. Qed.

Lemma recorded_transcribed (b : string) (p : Progress) :
  append_transcribed b p = recorded b true false p.
Proof. unfold append_transcribed, recorded, pick; cbn. now rewrite app_nil_r. Qed.

(** Step 1, when it yields a transcript: the transcript is on disk, and the
    stem was appended to the transcribed items exactly when the transcript
    was made now. *)
Lemma first_step_yields (mp3_path : Path.t) (w : World) :
  let b := Path.stem mp3_path in
  match first_step json_dumps R mp3_path (Fs.exist (transcript_path b) (fs w)) w with
  | Done (Some t) w1 =>
      Fs.exist (transcript_path b) (fs w1) = true
      /\ exists i : bool,
           progress w1 = recorded b i false (progress w)
           /\ ledger w1 = (if i then Some (progress w1) else ledger w)
           /\ (i = true -> Fs.exist (transcript_path b) (fs w) = false)
  | Done None w1 | Raised _ w1 => same_ledger w w1
  | Hangs => True
  end.
Proof.
  intros b. unfold first_step. fold b.
  destruct (Fs.exist (transcript_path b) (fs w)) eqn:Ep.
  - destruct (read_text_cases json_dumps (transcript_path b) w) as [[s Hs]|[e He]].
    + erewrite bind_done; [|exact Hs]. cbn. split; [exact Ep|].
      exists false. rewrite recorded_nothing. repeat split. discriminate.
    + erewrite bind_raised; [|exact He]. split; reflexivity.
  - pose proof (keeps_convert R _ _ _ _ _ frame_same_ledger mp3_path I I w) as Hc.
    destruct (convert_to_flac R mp3_path w) as [[fl|] w1|e w1|] eqn:Ec.
    + destruct Hc as [[Hv|Hv] [Hl Hp]]; [discriminate|]. injection Hv as ->.
      erewrite bind_done; [|exact Ec]. cbv beta iota.
      set (flac := Path.with_suffix ".flac" mp3_path).
      pose proof (transcribe_step_ledger R b flac w1) as Hs.
      pose proof (f_trans _ _ _ _ _ frame_same_ledger) as Tr.
      assert (Hw : same_ledger w w1) by (split; assumption).
      rewrite transcribe_step_unfold in *; cbv zeta in *.
      pose proof (keeps_upload R _ _ _ _ _ frame_same_ledger flac I w1) as K1.
      destruct (upload_to_gcs R flac w1) as [uri w2|e w2|];
        [|exact (Tr _ _ _ Hw Hs)|exact I].
      destruct K1 as [_ K1].
      pose proof (keeps_transcribe R _ _ _ _ _ frame_same_ledger uri I w2) as K2.
      destruct (transcribe_from_gcs R uri w2) as [t w3|e w3|];
        [|exact (Tr _ _ _ Hw Hs)|exact I].
      destruct K2 as [_ K2].
      destruct (Str.is_empty t); [exact (Tr _ _ _ Hw Hs)|].
      cbn [fs progress ledger]. split.
      * assert (Hne : flac <> transcript_path b) by discriminate.
        unfold Fs.exist.
        destruct (match Fs.read flac _ with Some _ => true | None => false end);
          [rewrite read_unlink_other by exact Hne|];
          now rewrite read_write_same.
      * exists true. rewrite recorded_transcribed.
        destruct (Tr _ _ _ Hw (Tr _ _ _ K1 K2)) as [_ Hq]. rewrite Hq.
        repeat split.
    + erewrite bind_done; [|exact Ec]. exact (proj2 Hc).
    + erewrite bind_raised; [|exact Ec]. exact Hc.
    + erewrite bind_hangs; [exact I | exact Ec].
Qed.

(** Step 2 from a world where the transcript is on disk. *)
Lemma tag_step_yields (b transcript title : string) (w1 : World) :
  Fs.exist (transcript_path b) (fs w1) = true ->
  exists (j : bool) (w2 : World),
    tag_step json_loads R b transcript title w1 = Done tt w2
    /\ Fs.exist (transcript_path b) (fs w2) = true
    /\ progress w2 = (if j then append_tagged b (progress w1) else progress w1)
    /\ ledger w2 = (if j then Some (progress w2) else ledger w1)
    /\ (j = true -> Fs.exist (tags_path b) (fs w1) = false
                    /\ Fs.exist (tags_path b) (fs w2) = true)
    /\ filter is_annotate (calls w2)
       = filter is_annotate (calls w1)
         ++ pick (negb (Fs.exist (tags_path b) (fs w1)))
                 (Annotate (build_prompt transcript title)).
Proof.
  intros Ht. rewrite tag_step_eval.
  destruct (Fs.exist (tags_path b) (fs w1)) eqn:Eg.
  - exists false, w1. cbn. rewrite app_nil_r. repeat split; auto; discriminate.
  - cbv zeta. destruct (generate_content R (clock w1) _) as [text|].
    + exists true. eexists. split; [reflexivity|]. cbn.
      rewrite filter_app. cbn. repeat split.
      * unfold Fs.exist in *. rewrite read_write_other by discriminate. exact Ht.
      * apply exist_write_same.
    + exists false. eexists. split; [reflexivity|]. cbn.
      rewrite filter_app. cbn. repeat split; auto; discriminate.
Qed.

(** X8.  The progress ledger lists what the run saved.  When an item ends,
    either the [progress] dictionary and its file are as they were, or the
    stem of the item was appended, once, to the transcribed items, to the
    tagged items or to both, the progress file was rewritten to hold exactly
    the dictionary, and for each list it was appended to the artifact was
    not there before the item and is there after it. *)
Theorem ledger_lists_what_the_run_saved :
  forall (ep : Episode) (w : World),
    match process_episode json_loads json_dumps R ep w with
    | Done _ w' | Raised _ w' =>
        (progress w' = progress w /\ ledger w' = ledger w)
        \/ exists (mp3_path : Path.t) (i j : bool),
             resolve_local_file ep (fs w) = inr (Some mp3_path)
             /\ progress w' = recorded (Path.stem mp3_path) i j (progress w)
             /\ ledger w' = Some (progress w')
             /\ (i = true ->
                 Fs.exist (transcript_path (Path.stem mp3_path)) (fs w) = false
                 /\ Fs.exist (transcript_path (Path.stem mp3_path)) (fs w') = true)
             /\ (j = true ->
                 Fs.exist (tags_path (Path.stem mp3_path)) (fs w) = false
                 /\ Fs.exist (tags_path (Path.stem mp3_path)) (fs w') = true)
    | Hangs => True
    end.
Proof.
  intros ep w. rewrite process_episode_unfold.
  destruct (resolve_local_file ep (fs w)) as [e|[mp3|]] eqn:Er; auto.
  destruct (Fs.exist mp3 (fs w)); auto.
  rewrite process_resolved_eval; cbv zeta.
  set (b := Path.stem mp3).
  pose proof (first_step_yields mp3 w) as H1. cbv zeta in H1. fold b in H1.
  assert (Hl : keeps lasting any
                 (first_step json_dumps R mp3 (Fs.exist (transcript_path b) (fs w)))).
  { apply (keeps_first_step json_dumps R _ _ _ _ _ frame_lasting); cbv zeta;
      try exact I; try reflexivity; try (left; reflexivity).
    intros t; right; discriminate. }
  specialize (Hl w).
  destruct (first_step json_dumps R mp3 _ w) as [[t|] w1|e w1|];
    [| | |exact I]; try (left; destruct H1; now split).
  destruct H1 as (Hex & i & Hp & Hled & Hi). destruct Hl as [_ Hl].
  destruct (tag_step_yields b t (title_of ep) w1 Hex)
    as (j & w2 & E2 & Hex2 & Hp2 & Hled2 & Hj & _).
  rewrite E2.
  destruct i, j.
  - right. exists mp3, true, true. fold b. split; [reflexivity|].
    rewrite Hp2, Hp, recorded_tagged in *. repeat split; auto; try apply Hj; auto.
    destruct (Fs.exist (tags_path b) (fs w)) eqn:Eg; [|reflexivity].
    apply (Hl (tags_path b)) in Eg; [|discriminate].
    destruct Hj as [Hj _]; congruence.
  - right. exists mp3, true, false. fold b. split; [reflexivity|].
    rewrite Hp2, Hp in *. repeat split; auto; try discriminate. congruence.
  - right. exists mp3, false, true. fold b. split; [reflexivity|].
    rewrite Hp2, Hp, recorded_tagged in *. repeat split; auto; try discriminate;
      try apply Hj; auto.
    destruct (Fs.exist (tags_path b) (fs w)) eqn:Eg; [|reflexivity].
    apply (Hl (tags_path b)) in Eg; [|discriminate].
    destruct Hj as [Hj _]; congruence.
  - left. rewrite Hp2, Hled2, Hp, Hled, recorded_nothing. now split.
Qed.

(** X9.  What the result of an item tells.  [True] is returned only with
    the transcript of the item on disk, whether or not its tags could be
    made; and after [False] no annotation was requested for the item. *)
Theorem result_tells_whether_transcript_exists :
  forall (ep : Episode) (w : World),
    match process_episode json_loads json_dumps R ep w with
    | Done true w' =>
        exists mp3_path,
          resolve_local_file ep (fs w) = inr (Some mp3_path)
          /\ Fs.exist mp3_path (fs w) = true
          /\ Fs.exist (transcript_path (Path.stem mp3_path)) (fs w') = true
    | Done false w' =>
        filter is_annotate (calls w') = filter is_annotate (calls w)
    | Raised _ _ | Hangs => True
    end.
Proof.
  intros ep w. rewrite process_episode_unfold.
  destruct (resolve_local_file ep (fs w)) as [e|[mp3|]] eqn:Er; auto.
  destruct (Fs.exist mp3 (fs w)) eqn:Em; auto.
  rewrite process_resolved_eval; cbv zeta.
  set (b := Path.stem mp3).
  pose proof (first_step_yields mp3 w) as H1. cbv zeta in H1. fold b in H1.
  pose proof (keeps_first_step json_dumps R _ _ _ _ _ (frame_quiet is_annotate)
                mp3 (Fs.exist (transcript_path b) (fs w))
                eq_refl eq_refl eq_refl I (fun _ => I) I I w) as Hq.
  destruct (first_step json_dumps R mp3 _ w) as [[t|] w1|e w1|]; auto.
  - destruct H1 as (Hex & _).
    destruct (tag_step_yields b t (title_of ep) w1 Hex) as (j & w2 & E2 & Hex2 & _).
    rewrite E2. exists mp3. auto.
  - exact (proj2 Hq).
Qed.

End Ledger.

Section Batch.
Import FsFacts.

Variable json_loads : string -> option json.
Variable json_dumps : json -> string.
Variable R : Remote.

Lemma process_all_app (xs ys : list Episode) (w : World) :
  process_all json_loads json_dumps R (xs ++ ys) w
  = (process_all json_loads json_dumps R xs ;;;
     process_all json_loads json_dumps R ys) w.
Proof.
  revert w. induction xs as [|ep xs IH]; intros w; [reflexivity|].
  cbn [app process_all].
  destruct (ep_title ep); try reflexivity;
    unfold bind;
    destruct (try_except _ _ w) as [u w1|e w1|]; try reflexivity;
    rewrite IH; reflexivity.
Qed.

Lemma guarded_item_ends_normally (ep : Episode) (w : World) :
  match try_except (process_episode json_loads json_dumps R ep ;;; ret tt)
          (fun _ => ret tt) w with
  | Done _ _ | Hangs => True
  | Raised _ _ => False
  end.
Proof.
  unfold try_except, bind.
  destruct (process_episode json_loads json_dumps R ep w); exact I.
Qed.

(** X10.  No exception of an item stops the loop of [main]: when no title
    of the metadata is [null], the loop never ends with an exception,
    whatever is raised while an item is processed and for however many
    items; and the loop over a list of items is the loop over its first part
    followed, from the world that leaves, by the loop over the rest. *)
Theorem loop_survives_every_item_exception :
  forall (episodes : list Episode),
    (forall ep, In ep episodes -> titled ep) ->
    (forall w e w', process_all json_loads json_dumps R episodes w <> Raised e w')
    /\ (forall xs ys w,
          episodes = xs ++ ys ->
          process_all json_loads json_dumps R episodes w
          = match process_all json_loads json_dumps R xs w with
            | Done _ w1 => process_all json_loads json_dumps R ys w1
            | Raised e w1 => Raised e w1
            | Hangs => Hangs
            end).
Proof.
  intros episodes Ht. split.
  - induction episodes as [|ep rest IH]; intros w e w'; [discriminate|].
    rewrite process_all_cons by (apply Ht; now left).
    unfold bind. pose proof (guarded_item_ends_normally ep w) as H.
    destruct (try_except _ _ w) as [u w1|e1 w1|]; [|contradiction|discriminate].
    apply IH. intros ep' Hin. apply Ht. now right.
  - intros xs ys w ->. now rewrite process_all_app.
Qed.

Lemma extends_refl (p : Progress) : extends p p.
Proof. exists [], []. destruct p; cbn. now rewrite !app_nil_r. Qed.

Lemma extends_trans (a b c : Progress) : extends a b -> extends b c -> extends a c.
Proof.
  intros (l1 & l2 & ->) (m1 & m2 & ->). exists (l1 ++ m1), (l2 ++ m2).
  cbn. now rewrite !app_assoc.
Qed.

Lemma extends_recorded (b : string) (i j : bool) (p : Progress) :
  extends p (recorded b i j p).
Proof. now exists (pick i b), (pick j b). Qed.

Lemma ledger_follows_refl (w : World) : ledger_follows w w.
Proof. split; [apply extends_refl | left; now split]. Qed.

Lemma ledger_follows_trans (a b c : World) :
  ledger_follows a b -> ledger_follows b c -> ledger_follows a c.
Proof.
  intros [E1 H1] [E2 H2]. split; [exact (extends_trans _ _ _ E1 E2)|].
  destruct H2 as [[Hp Hl]|H2]; [|now right].
  destruct H1 as [[Hp1 Hl1]|H1]; [left; split; congruence|].
  right. congruence.
Qed.

Lemma process_episode_follows (ep : Episode) (w : World) :
  post (process_episode json_loads json_dumps R ep w) (ledger_follows w).
Proof.
  rewrite process_episode_unfold.
  destruct (resolve_local_file ep (fs w)) as [e|[mp3|]];
    try apply ledger_follows_refl.
  destruct (Fs.exist mp3 (fs w)); [|apply ledger_follows_refl].
  rewrite process_resolved_eval; cbv zeta.
  set (b := Path.stem mp3).
  pose proof (first_step_yields json_dumps R mp3 w) as H1. cbv zeta in H1. fold b in H1.
  assert (Hsame : forall w1, same_ledger w w1 -> ledger_follows w w1).
  { intros w1 [Hl Hp]. split; [rewrite Hp; apply extends_refl | left; now split]. }
  destruct (first_step json_dumps R mp3 _ w) as [[t|] w1|e w1|];
    [|now apply Hsame|now apply Hsame|exact I].
  destruct H1 as (Hex & i & Hp & Hled & _).
  destruct (tag_step_yields json_loads R b t (title_of ep) w1 Hex)
    as (j & w2 & E2 & _ & Hp2 & Hled2 & _).
  rewrite E2. cbn [post].
  assert (Hrec : progress w2 = recorded b i j (progress w)).
  { rewrite Hp2, Hp. destruct j; [apply recorded_tagged | reflexivity]. }
  split; [rewrite Hrec; apply extends_recorded|].
  destruct j; [right; exact Hled2|].
  destruct i; [right; congruence|].
  left. rewrite Hled2, Hled, Hrec, recorded_nothing. now split.
Qed.

Lemma process_all_follows (episodes : list Episode) (w : World) :
  post (process_all json_loads json_dumps R episodes w) (ledger_follows w).
Proof.
  revert w. induction episodes as [|ep rest IH]; intros w;
    [apply ledger_follows_refl|].
  cbn [process_all].
  assert (H : post ((try_except (process_episode json_loads json_dumps R ep ;;; ret tt)
                       (fun _ => ret tt) ;;;
                     process_all json_loads json_dumps R rest) w)
                   (ledger_follows w)).
  { unfold bind, try_except, ret.
    pose proof (process_episode_follows ep w) as H1.
    destruct (process_episode json_loads json_dumps R ep w) as [b w1|e w1|];
      cbn in H1; [| |exact I];
      (specialize (IH w1);
       destruct (process_all json_loads json_dumps R rest w1); cbn in *;
       eauto using ledger_follows_trans). }
  destruct (ep_title ep); [exact H | apply ledger_follows_refl | exact H].
Qed.

(** X11.  A run only appends to the progress file.  When the file exists
    before [main], it exists after it, with the same start time, and the
    lists it held open the lists it holds: no entry is dropped, changed or
    moved, whatever happens to the items. *)
Theorem run_only_appends_to_the_ledger :
  forall (metadata : option (list Episode)) (w : World) (p : Progress),
    ledger w = Some p ->
    match main json_loads json_dumps R metadata w with
    | Done _ w' | Raised _ w' =>
        exists l1 l2,
          ledger w'
          = Some (mkProgress (transcribed p ++ l1) (tagged p ++ l2) (started_at p))
    | Hangs => True
    end.
Proof.
  intros metadata w p Hp.
  assert (Hsame : exists l1 l2,
             ledger w
             = Some (mkProgress (transcribed p ++ l1) (tagged p ++ l2) (started_at p))).
  { exists [], []. rewrite Hp. destruct p; cbn. now rewrite !app_nil_r. }
  unfold main. destruct metadata as [episodes|]; [|exact Hsame].
  destruct (ensure_bucket_cases R w) as (w1 & [E1|E1] & _ & _ & Hl & _).
  2:{ erewrite bind_raised; [|exact E1]. now rewrite Hl. }
  erewrite bind_done; [|exact E1].
  unfold bind at 1. unfold load_progress. rewrite Hl, Hp.
  set (w2 := set_progress p w1).
  pose proof (process_all_follows episodes w2) as H.
  assert (G : forall w', ledger_follows w2 w' ->
                         exists l1 l2,
                           ledger w'
                           = Some (mkProgress (transcribed p ++ l1) (tagged p ++ l2)
                                     (started_at p))).
  { intros w' [(l1 & l2 & E) [[Hq Hr]|Hr]].
    - rewrite Hr. unfold w2; cbn. now rewrite Hl.
    - exists l1, l2. now rewrite Hr, E. }
  unfold bind.
  destruct (process_all json_loads json_dumps R episodes w2) as [u w3|e w3|];
    cbn in H; [| now apply G | exact I].
  unfold build_analysis_index.
  destruct (scan_files json_loads _ Agg.empty); cbn; now apply G.
Qed.

End Batch.

Section FootprintOfAnItem.

Variable json_loads : string -> option json.
Variable json_dumps : json -> string.
Variable R : Remote.

(** X6.  An item writes and removes nothing but its own three files and the
    progress file: the FLAC file beside its audio file, its transcript, its
    tags, and [pipeline_progress.json].  Every other file, the audio files of
    the other items and their artifacts included, reads after the item as it
    read before; the progress file is as it was or was rewritten to hold the
    [progress] dictionary; and when no audio file is found for the item, no
    file is touched at all, the progress file included.  The progress file is
    the [ledger] of the world and not an entry of [fs], so its path is set
    apart from the paths read in [fs]. *)
Theorem item_touches_only_its_own_files :
  forall (ep : Episode) (w : World),
    match process_episode json_loads json_dumps R ep w with
    | Done _ w' | Raised _ w' =>
        match resolve_local_file ep (fs w) with
        | inr (Some mp3_path) =>
            (forall p, ~ artifacts_of mp3_path p -> p <> PROGRESS_FILE ->
                       Fs.read p (fs w') = Fs.read p (fs w))
            /\ (ledger w' = ledger w \/ ledger w' = Some (progress w'))
        | _ => fs w' = fs w /\ ledger w' = ledger w
        end
    | Hangs => True
    end.
Proof.
  intros ep w.
  pose proof (process_episode_follows json_loads json_dumps R ep w) as HL.
  rewrite process_episode_unfold in *.
  destruct (resolve_local_file ep (fs w)) as [e|[mp3|]]; try (split; reflexivity).
  destruct (Fs.exist mp3 (fs w)); [|split; [intros; reflexivity | now left]].
  pose proof (resolved_outside json_loads json_dumps R ep mp3 w) as H.
  destruct (process_resolved json_loads json_dumps R ep mp3 w) as [b w'|e w'|];
    [| |exact I].
  - destruct H as [_ H]. cbn [post] in HL. destruct HL as [_ [[_ Hl]|Hl]];
      (split; [intros p Hp _; now apply H | auto]).
  - cbn [post] in HL. destruct HL as [_ [[_ Hl]|Hl]];
      (split; [intros p Hp _; now apply H | auto]).
Qed.

End FootprintOfAnItem.

Section Lookup.
Import FsFacts TreeFacts.

Variable json_loads : string -> option json.
Variable json_dumps : json -> string.
Variable R : Remote.

Lemma glob_in (dir ext : string) (p : Path.t) (c : content) (f : Fs.t) :
  In (p, c) (Fs.glob dir ext f) ->
  In (p, c) f /\ Path.parent p = dir /\ Fs.endswith ext (Path.name p) = true.
Proof.
  unfold Fs.glob. intros H. apply filter_In in H as [Hin H].
  apply andb_true_iff in H as [Hd He]. apply String.eqb_eq in Hd. auto.
Qed.

(** X12.  How the audio file of an item is found.  A [local_file] that is
    not empty is taken as it is, without a look at the directory.  Without
    one, the file is the first MP3 of the episodes directory, in directory
    order, whose name holds one of the first three words of the title,
    letter case apart: a file that is found exists, no MP3 before it
    matches, and when none is found no MP3 of the directory matches.  A
    [null] title raises [AttributeError] as soon as the directory holds an
    MP3, and the item raises it without touching anything; nothing else makes
    the lookup raise. *)
Theorem audio_file_is_found_by_title_words :
  forall (ep : Episode) (f : Fs.t),
    match audio_of ep with
    | Some p => resolve_local_file ep f = inr (Some p)
    | None =>
        let mp3s := Fs.glob EPISODES_DIR ".mp3" f in
        (resolve_local_file ep f = inl AttributeError
         <-> ep_title ep = NullTitle /\ mp3s <> [])
        /\ (ep_title ep = NullTitle -> mp3s <> [] ->
            forall w, fs w = f ->
                      process_episode json_loads json_dumps R ep w
                      = Raised AttributeError w)
        /\ match resolve_local_file ep f with
           | inr (Some p) =>
               Fs.exist p f = true
               /\ Path.parent p = "episodes"
               /\ Fs.endswith ".mp3" (Path.name p) = true
               /\ title_matches ep p = true
               /\ exists before c after,
                    mp3s = before ++ (p, c) :: after
                    /\ forall q, In q before -> title_matches ep (fst q) = false
           | inr None => forall q, In q mp3s -> title_matches ep (fst q) = false
           | inl e => e = AttributeError
           end
    end.
Proof.
  intros ep f. destruct (audio_of ep) as [p|] eqn:Ea.
  { now apply resolve_explicit. }
  cbv zeta.
  assert (Hn : match ep_local_file ep with Some (String _ _) => False | _ => True end).
  { unfold audio_of in Ea.
    destruct (ep_local_file ep) as [[|c r]|]; [exact I | discriminate | exact I]. }
  set (mp3s := Fs.glob EPISODES_DIR ".mp3" f).
  assert (Hraise : resolve_local_file ep f = inl AttributeError
                   <-> ep_title ep = NullTitle /\ mp3s <> []).
  { unfold resolve_local_file. fold mp3s.
    destruct (ep_local_file ep) as [[|c r]|]; try contradiction;
      destruct (ep_title ep); destruct mp3s as [|m l];
      (split; [intros H | intros [H1 H2]]);
      try discriminate; try congruence; split; congruence. }
  split; [exact Hraise|]. split.
  { intros Ht Hg w <-. rewrite process_episode_unfold.
    now rewrite (proj2 Hraise (conj Ht Hg)). }
  unfold resolve_local_file. fold mp3s.
  assert (Hfind :
            match option_map fst (find (fun e => title_matches ep (fst e)) mp3s) with
            | Some p =>
                Fs.exist p f = true
                /\ Path.parent p = "episodes"
                /\ Fs.endswith ".mp3" (Path.name p) = true
                /\ title_matches ep p = true
                /\ exists before c after,
                     mp3s = before ++ (p, c) :: after
                     /\ forall q, In q before -> title_matches ep (fst q) = false
            | None => forall q, In q mp3s -> title_matches ep (fst q) = false
            end).
  { assert (Hsub : forall q, In q mp3s -> In q (Fs.glob EPISODES_DIR ".mp3" f))
      by auto.
    clearbody mp3s. clear Hraise.
    induction mp3s as [|[q c] l IH]; [intros ? []|].
    cbn [find]. change (title_matches ep (fst (q, c))) with (title_matches ep q).
    destruct (title_matches ep q) eqn:Em; cbn [option_map fst].
    - destruct (glob_in _ _ q c f (Hsub _ (or_introl eq_refl))) as (Hin & Hd & He).
      split; [now apply (in_exist q c)|].
      split; [exact Hd|]. split; [exact He|]. split; [exact Em|].
      exists [], c, l. split; [reflexivity | intros ? []].
    - specialize (IH (fun x Hx => Hsub x (or_intror Hx))).
      destruct (option_map fst (find _ l)) as [p|].
      + destruct IH as (H1 & H2 & H3 & H4 & before & c' & after & -> & H5).
        split; [exact H1|]. split; [exact H2|]. split; [exact H3|].
        split; [exact H4|].
        exists ((q, c) :: before), c', after. split; [reflexivity|].
        intros x [<-|Hx]; [exact Em | now apply H5].
      + intros x [<-|Hx]; [exact Em | now apply IH]. }
  destruct (ep_local_file ep) as [[|c r]|]; try contradiction;
    (destruct (ep_title ep) eqn:Et;
     [exact Hfind | | exact Hfind];
     destruct mp3s as [|m l] eqn:Eg; [exact Hfind | reflexivity]).
Qed.

(** An item that is finished is passed over. *)
Lemma finished_item_is_passed (ep : Episode) (w : World) :
  finished ep w ->
  try_except (process_episode json_loads json_dumps R ep ;;; ret tt)
    (fun _ => ret tt) w = Done tt w.
Proof.
  intros H. destruct (process_episode_finished json_loads json_dumps R ep w H)
    as [[b Hb]|[e He]].
  - erewrite try_done; [reflexivity|]. erewrite bind_done; [|exact Hb]. reflexivity.
  - erewrite try_raised; [reflexivity|]. apply bind_raised; exact He.
Qed.

(** X13.  An item listed twice in the metadata is processed once: when its
    audio file is there and its remote calls succeed, the loop over the
    metadata with the item repeated ends exactly as the loop over the
    metadata with the item listed once, in the same world. *)
Theorem item_listed_twice_is_processed_once :
  forall (ep : Episode) (mp3_path : Path.t) (rest : list Episode) (w : World),
    titled ep ->
    sound R w ep mp3_path ->
    process_all json_loads json_dumps R (ep :: ep :: rest) w
    = process_all json_loads json_dumps R (ep :: rest) w.
Proof.
  intros ep mp3 rest w Ht Hs.
  destruct (process_sound json_loads json_dumps R ep mp3 w Hs)
    as (w1 & E & [Hc1 Hc2] & Hl & _).
  assert (E1 : try_except (process_episode json_loads json_dumps R ep ;;; ret tt)
                 (fun _ => ret tt) w = Done tt w1).
  { erewrite try_done; [reflexivity|]. erewrite bind_done; [|exact E]. reflexivity. }
  assert (E2 : try_except (process_episode json_loads json_dumps R ep ;;; ret tt)
                 (fun _ => ret tt) w1 = Done tt w1).
  { apply finished_item_is_passed.
    unfold finished. destruct Hs as (Ha & _).
    rewrite (resolve_explicit ep mp3 _ Ha). auto. }
  rewrite (process_all_cons json_loads json_dumps R ep (ep :: rest) Ht).
  rewrite (bind_done _ _ w w1 tt E1).
  rewrite !(process_all_cons json_loads json_dumps R ep rest Ht).
  now rewrite (bind_done _ _ w1 w1 tt E2), (bind_done _ _ w w1 tt E1).
Qed.

End Lookup.

Module VisitFacts.
Import Agg.

Lemma count_tags_ends (tags : list json) (d : Dict.t Z) :
  (exists d', count_tags tags d = inr d')
  <-> forallb (fun j => match j with JStr _ => true | _ => false end) tags = true.
Proof.
  revert d. induction tags as [|j tags IH]; intros d; cbn.
  - split; eauto.
  - destruct j; cbn; try (split; [intros [d' H]; discriminate H | discriminate]).
    apply IH.
Qed.

Lemma count_field_ends (key : string) (d : Dict.t json) (acc : Dict.t Z) :
  (exists acc', count_field key (JObj d) acc = inr acc')
  <-> match Dict.get key d with Some v => tags_ok v | None => true end = true.
Proof.
  unfold count_field, get_or, tags_ok.
  destruct (Dict.get key d) as [v|].
  - destruct (iterate v) as [e|l].
    + split; [intros [acc' H]; discriminate H | discriminate].
    + apply count_tags_ends.
  - cbn. split; eauto.
Qed.

(** The loop body gets through a document exactly when it is erroneous or
    countable. *)
Lemma visit_ends (acc : Counters) (file : string) (data : json) :
  (exists acc', visit acc file data = inr acc')
  <-> match has_error data with
      | inr true => true
      | inr false => countable data
      | inl _ => false
      end = true.
Proof.
  unfold visit.
  destruct (has_error data) as [e|[|]] eqn:He.
  - split; [intros [acc' H]; discriminate H | discriminate].
  - split; eauto.
  - destruct data as [| | | | |l|d];
      try (cbn in He; discriminate He);
      try (cbn; split; [intros [acc' H]; discriminate H | discriminate]).
    unfold countable. cbn [forallb]. rewrite !andb_true_iff.
    rewrite <- (count_field_ends "tech_tags" d (all_tech_tags acc)).
    split.
    + intros [acc' H].
      destruct (count_field "tech_tags" (JObj d) _) as [e|t] eqn:E1; [discriminate|].
      destruct (count_field "business_tags" (JObj d) _) as [e|b] eqn:E2; [discriminate|].
      destruct (count_field "key_topics" (JObj d) _) as [e|k] eqn:E3; [discriminate|].
      split; [eauto|]. split; [|split; [|reflexivity]].
      * apply (count_field_ends "business_tags" d (all_business_tags acc)). eauto.
      * apply (count_field_ends "key_topics" d (all_topics acc)). eauto.
    + intros ([t E1] & H2 & H3 & _).
      apply (count_field_ends "business_tags" d (all_business_tags acc)) in H2 as [b E2].
      apply (count_field_ends "key_topics" d (all_topics acc)) in H3 as [k E3].
      rewrite E1, E2, E3. cbn. eauto.
Qed.

End VisitFacts.

Section IndexEnds.
Import Agg.

Variable json_loads : string -> option json.
Variable R : Remote.

Lemma scan_files_ends (files : list (Path.t * content)) (acc : Counters) :
  (exists acc', scan_files json_loads files acc = inr acc')
  <-> forallb (fun e => acceptable json_loads (snd e)) files = true.
Proof.
  revert acc. induction files as [|[p c] files IH]; intros acc; cbn.
  - split; eauto.
  - unfold acceptable at 1. cbn [snd].
    destruct (load_json json_loads c) as [e|data].
    + split; [intros [acc' H]; discriminate H | discriminate].
    + rewrite andb_true_iff, <- (VisitFacts.visit_ends acc (Path.stem p) data).
      split.
      * intros [acc' H].
        destruct (visit acc (Path.stem p) data) as [e|acc1] eqn:V; [discriminate|].
        split; [eauto|]. apply (IH acc1). eauto.
      * intros [[acc1 V] H]. rewrite V. now apply IH.
Qed.

(** X14.  The aggregator ends normally exactly when every file of the tags
    directory loads as JSON and holds a document that is erroneous (it has
    ["error"] in it) or is an object whose tag fields are lists of texts,
    texts or objects.  One file that is not so (an array, a number, [null],
    a tag that is a number) makes it raise, and then the index file is not
    written: the world is as it was. *)
Theorem index_needs_every_tags_file_well_formed :
  forall (w : World),
    let files := Fs.glob TAGS_DIR ".json" (fs w) in
    ((exists a w', build_analysis_index json_loads R w = Done a w')
     <-> forallb (fun e => acceptable json_loads (snd e)) files = true)
    /\ (forall e w', build_analysis_index json_loads R w = Raised e w' -> w' = w)
    /\ build_analysis_index json_loads R w <> Hangs.
Proof.
  intros w files. unfold build_analysis_index. fold files.
  pose proof (scan_files_ends files empty) as H.
  destruct (scan_files json_loads files empty) as [e|acc].
  - split; [|split; [intros e0 w' E; now injection E as _ <- | discriminate]].
    split; [intros (a & w' & E); discriminate E|].
    intros Hall. apply H in Hall as [acc' Hacc]. discriminate Hacc.
  - split; [|split; [intros e w' E; discriminate E | discriminate]].
    split; [intros _; apply H; eauto | eauto].
Qed.

End IndexEnds.

Section TopN.
Import Agg Tally.

Lemma StronglySorted_app_inv {A : Type} (r : A -> A -> Prop) (l1 l2 : list A) :
  StronglySorted r (l1 ++ l2) -> forall a b, In a l1 -> In b l2 -> r a b.
Proof.
  induction l1 as [|x l1 IH]; cbn; [intros _ a b []|].
  intros H a b [<-|Ha] Hb; inversion H as [|? ? Hs Hf]; subst.
  - rewrite Forall_forall in Hf. apply Hf, in_or_app. now right.
  - now apply IH.
Qed.

Lemma NoDup_firstn {A : Type} (n : nat) (l : list A) : NoDup l -> NoDup (firstn n l).
Proof.
  revert n. induction l as [|x l IH]; intros [|n] H; cbn; try constructor.
  - inversion H; subst. intros Hin. now apply In_firstn in Hin.
  - inversion H; subst. now apply IH.
Qed.

Lemma in_skipn_or_firstn {A : Type} (n : nat) (x : A) (l : list A) :
  In x l -> In x (firstn n l) \/ In x (skipn n l).
Proof. intros H. rewrite <- (firstn_skipn n l) in H. now apply in_app_or. Qed.

(** The keys of a ranking are the keys counted, each once. *)
Lemma category_ranking_nodup (key : string) (files : list (string * json)) :
  NoDup (map fst (category_ranking key files)).
Proof.
  unfold category_ranking, rank.
  eapply Permutation_NoDup;
    [apply Permutation_map, Permutation_sym, sorted_perm|].
  apply TallyFacts.keys_nodup.
Qed.

(** A ranking cut to [n] entries keeps the most frequent keys, once each,
    with positive counts. *)
Lemma top_of_ranking (n : nat) (key : string) (files : list (string * json)) :
  holds_top (category_ranking key files) (firstn n (category_ranking key files)).
Proof.
  set (full := category_ranking key files). split; [|split].
  - rewrite <- firstn_map. apply NoDup_firstn, category_ranking_nodup.
  - intros k c Hin. apply In_firstn in Hin.
    apply AggFacts.category_ranking_counts in Hin as [Hk ->].
    unfold times. apply (count_occ_In string_dec) in Hk. lia.
  - intros k c k' c' Hin Hfull Hout.
    destruct (in_skipn_or_firstn n _ _ Hfull) as [H|H]; [contradiction|].
    pose proof (AggFacts.category_ranking_ranked key files) as Hr.
    unfold ranked_by in Hr. fold full in Hr.
    rewrite <- (firstn_skipn n full) in Hr.
    pose proof (StronglySorted_app_inv _ _ _ Hr _ _ Hin H) as Ho.
    cbn in Ho. lia.
Qed.

Variable json_loads : string -> option json.
Variable R : Remote.

(** X15.  The ranked lists of the index hold the most frequent keys: in each
    of the three lists every key stands once, with a count of at least
    one, and no key that was counted but is left out of the list has a
    higher count than a key that is in it. *)
Theorem top_lists_hold_the_most_frequent :
  forall (w w' : World) (a : Analysis),
    build_analysis_index json_loads R w = Done a w' ->
    let files := annotations json_loads w in
    holds_top (category_ranking "tech_tags" files) (top_tech_themes a)
    /\ holds_top (category_ranking "business_tags" files) (top_business_themes a)
    /\ holds_top (category_ranking "key_topics" files) (top_topics a).
Proof.
  intros w w' a Hrun files.
  apply build_analysis_index_done in Hrun as [Hagg _].
  apply AggFacts.aggregate_tops in Hagg as (-> & -> & -> & _).
  split; [|split]; apply top_of_ranking.
Qed.

(** X16.  When [main] ends normally, the index file is there and describes
    the tags directory as the run leaves it: its three lists are the
    rankings of the annotation files of the final world cut to 25, 20 and 20
    entries, and the number of items analysed is the number of those files
    that hold no error. *)
Theorem index_describes_the_tags_the_run_leaves :
  forall (json_dumps : json -> string) (metadata : list Episode) (w w' : World),
    main json_loads json_dumps R (Some metadata) w = Done tt w' ->
    exists a,
      Fs.read index_path (fs w') = Some (Doc (analysis_json a))
      /\ let files := annotations json_loads w' in
         top_tech_themes a = firstn 25 (category_ranking "tech_tags" files)
         /\ top_business_themes a = firstn 20 (category_ranking "business_tags" files)
         /\ top_topics a = firstn 20 (category_ranking "key_topics" files)
         /\ episodes_analyzed a
            = Z.of_nat (List.length (filter (fun fd => counted (snd fd)) files)).
Proof.
  intros json_dumps metadata w w'. unfold main, bind.
  destruct (ensure_bucket_exists R w) as [u w1|e w1|]; try discriminate.
  destruct (load_progress R w1) as [u' w2|e w2|]; try discriminate.
  destruct (process_all json_loads json_dumps R metadata w2) as [u2 w3|e w3|];
    try discriminate.
  destruct (build_analysis_index json_loads R w3) as [a w4|e w4|] eqn:E;
    try discriminate.
  intros H; injection H as <-.
  apply build_analysis_index_done in E as [Hagg ->].
  exists a. split; [apply FsFacts.read_write_same|]. cbv zeta.
  rewrite annotations_after_index.
  apply AggFacts.aggregate_tops in Hagg as (H1 & H2 & H3 & H4 & H5).
  repeat split; auto.
  rewrite H5. f_equal. rewrite <- (length_map sm_file), H4. apply length_map.
Qed.

End TopN.

Section AnnotationEdges.
Import Str StrFacts.

Variable json_loads : string -> option json.

Lemma open_block_lines (info payload last : string) :
  no_newline info -> no_newline last ->
  split newline (fence ++ info ++ nl ++ payload ++ nl ++ last)
  = (fence ++ info)%string :: split newline payload ++ [last].
Proof.
  intros Hinfo Hlast.
  assert (Hhead : split newline (fence ++ info) = [(fence ++ info)%string]).
  { unfold fence. cbn [append].
    repeat (apply no_newline_cons; [reflexivity|]). exact Hinfo. }
  change (fence ++ info ++ nl ++ payload ++ nl ++ last)%string
    with (fence ++ (info ++ String newline (payload ++ String newline last)))%string.
  rewrite <- app_assoc, !split_app, Hhead, Hlast. reflexivity.
Qed.

(** X17.  When the response starts with a code fence, its first and its
    last line are dropped whatever the last line holds: of a fenced block
    that is not closed, the last line of the payload is lost before the
    text is decoded. *)
Theorem open_fence_loses_its_last_line :
  forall (info payload last : string),
    no_newline info ->
    no_newline last ->
    last_solid last = true ->
    response_text (fence ++ info ++ nl ++ payload ++ nl ++ last) = payload
    /\ parse_response json_loads (fence ++ info ++ nl ++ payload ++ nl ++ last)
       = decode_or_error json_loads payload.
Proof.
  intros info payload last Hinfo Hlast Hsolid.
  assert (H : response_text (fence ++ info ++ nl ++ payload ++ nl ++ last) = payload).
  { unfold response_text.
    assert (Hs : strip (fence ++ info ++ nl ++ payload ++ nl ++ last)
                 = (fence ++ info ++ nl ++ payload ++ nl ++ last)%string).
    { unfold strip.
      change (lstrip (fence ++ info ++ nl ++ payload ++ nl ++ last))
        with (fence ++ info ++ nl ++ payload ++ nl ++ last)%string.
      rewrite <- !app_assoc.
      apply rstrip_app_solid;
        [now apply DecoderFacts.last_solid_nonempty
        | now apply DecoderFacts.rstrip_last_solid]. }
    rewrite Hs.
    replace (startswith fence (fence ++ info ++ nl ++ payload ++ nl ++ last))
      with true by reflexivity.
    rewrite open_block_lines by assumption.
    rewrite slice_1_m1_frame. apply join_split. }
  split; [exact H|]. unfold parse_response. now rewrite H.
Qed.

Lemma take_app_long (n : nat) (s x : string) :
  n <= String.length s -> take n (s ++ x) = take n s.
Proof.
  revert s. induction n as [|n IH]; intros [|c s] H; cbn in *;
    try reflexivity; try lia.
  now rewrite IH by lia.
Qed.

End AnnotationEdges.

Section AnnotationRuns.
Import FsFacts.

Variable json_loads : string -> option json.

(** X18.  The annotation service is shown the first 10000 characters of
    the transcript and nothing beyond: two transcripts that agree on them
    lead to the same request, the same result and the same world. *)
Theorem annotation_sees_first_10000_characters :
  forall (R : Remote) (transcript more title : string) (w : World),
    100 * 100 <= String.length transcript ->
    build_prompt (transcript ++ more) title = build_prompt transcript title
    /\ tag_episode json_loads R (transcript ++ more) title w
       = tag_episode json_loads R transcript title w.
Proof.
  intros R transcript more title w Hlen.
  assert (H : build_prompt (transcript ++ more) title = build_prompt transcript title).
  { unfold build_prompt. now rewrite take_app_long. }
  split; [exact H|]. unfold tag_episode. now rewrite H.
Qed.

(** X19.  A response that cannot be decoded settles the item for good: the
    error record is saved as its tags, the item is appended to the tagged
    items of the progress file, no later run requests its annotation again,
    whatever the service would answer then, and the aggregator passes the
    record over. *)
Theorem unparseable_annotation_is_never_retried :
  forall (R R' : Remote) (base_name transcript title raw : string) (w : World),
    Fs.exist (tags_path base_name) (fs w) = false ->
    generate_content R (clock w) (build_prompt transcript title) = Some raw ->
    json_loads (response_text raw) = None ->
    exists w',
      tag_step json_loads R base_name transcript title w = Done tt w'
      /\ tagged (progress w') = tagged (progress w) ++ [base_name]
      /\ ledger w' = Some (progress w')
      /\ (forall transcript' title',
            tag_step json_loads R' base_name transcript' title' w' = Done tt w')
      /\ exists data,
           Fs.read (tags_path base_name) (fs w') = Some (Doc data)
           /\ Agg.has_error data = inr true
           /\ forall acc, Agg.visit acc base_name data = inr acc.
Proof.
  intros R R' base_name transcript title raw w Hno Hgen Hbad.
  rewrite tag_step_eval, Hno; cbv zeta. rewrite Hgen.
  eexists. split; [reflexivity|]. cbn [tagged_world progress ledger fs append_tagged tagged].
  split; [reflexivity|]. split; [reflexivity|]. split.
  - intros transcript' title'. rewrite tag_step_eval.
    cbn [tagged_world fs]. now rewrite exist_write_same.
  - eexists. split; [apply read_write_same|].
    unfold parse_response, decode_or_error. rewrite Hbad.
    split; [reflexivity | intros acc; reflexivity].
Qed.

End AnnotationRuns.

Lemma result_without_alternative_raises_witness :
  transcribe_from_gcs (Examples.remote [["hello"]; []] "{}") "gs://b/a.flac"
    Examples.start
  = Raised IndexError (after_call (Transcribe "gs://b/a.flac") Examples.start).
Proof.
  apply (result_without_alternative_raises (Examples.remote [["hello"]; []] "{}")
           "gs://b/a.flac" Examples.start
           (mkOperation (Some 2) (Some [["hello"]; []])) 2 [["hello"]; []]);
    try reflexivity.
  right; left; reflexivity.
Defined.

Lemma flac_is_removed_unless_transcript_is_empty_witness :
  let R := Examples.remote [["hello"]] "{}" in
  let flac := Path.with_suffix ".flac" (Examples.mp3 "ep1") in
  let w := set_fs ((flac, Audio) :: fs Examples.start) Examples.start in
  match transcribe_step R "ep1" flac w with
  | Done (Some t) w' =>
      t = "hello"
      /\ Fs.read (transcript_path "ep1") (fs w') = Some (Text t)
      /\ Fs.exist flac (fs w') = false
  | _ => False
  end.
Proof.
  intros R flac w.
  assert (Hw : listed_once (fs w)).
  { repeat constructor; cbn; intuition discriminate. }
  pose proof (flac_is_removed_unless_transcript_is_empty R "ep1" flac w Hw eq_refl)
    as H.
  destruct (transcribe_step R "ep1" flac w) as [[t|] w'|e w'|] eqn:E;
    try discriminate E.
  split; [|exact (proj2 H)].
  vm_compute in E. now injection E as <- _.
Defined.

Lemma loop_survives_every_item_exception_witness :
  let eps := [Examples.episode "ep1"; Examples.episode "ep2"] in
  let R := Examples.flaky_remote "gs://mlops-podcast-audio/audio/ep2.flac" in
  (forall ep, In ep eps -> titled ep)
  /\ forall e w',
       process_all Json.loads Examples.dumps R eps Examples.start <> Raised e w'.
Proof.
  intros eps R.
  assert (H : forall ep, In ep eps -> titled ep).
  { intros ep [<-|[<-|[]]]; intros H; discriminate H. }
  split; [exact H|].
  destruct (loop_survives_every_item_exception Json.loads Examples.dumps R eps H)
    as [H1 _].
  apply H1.
Defined.

Lemma run_only_appends_to_the_ledger_witness :
  let R := Examples.remote [["hello"]] "{}" in
  let p := mkProgress ["ep0"] ["ep0"] "2024-04-30T08:00:00" in
  let w := set_ledger (Some p) Examples.start in
  match main Json.loads Examples.dumps R (Some [Examples.episode "ep1"]) w with
  | Done _ w' | Raised _ w' =>
      exists l1 l2,
        ledger w' = Some (mkProgress (["ep0"] ++ l1) (["ep0"] ++ l2)
                            "2024-04-30T08:00:00")
  | Hangs => True
  end.
Proof.
  intros R p w.
  exact (run_only_appends_to_the_ledger Json.loads Examples.dumps R
           (Some [Examples.episode "ep1"]) w p eq_refl).
Defined.

Lemma item_listed_twice_is_processed_once_witness :
  let R := Examples.remote [["hello"]] "{}" in
  let ep := Examples.episode "ep1" in
  titled ep
  /\ sound R Examples.start ep (Examples.mp3 "ep1")
  /\ process_all Json.loads Examples.dumps R [ep; ep; Examples.episode "ep2"]
       Examples.start
     = process_all Json.loads Examples.dumps R [ep; Examples.episode "ep2"]
         Examples.start.
Proof.
  intros R ep.
  assert (Ht : titled ep) by (intros H; discriminate H).
  assert (Hs : sound R Examples.start ep (Examples.mp3 "ep1")).
  { split; [reflexivity|]. split; [reflexivity|].
    split; [intros H; discriminate H|]. split; [intros H; discriminate H|].
    split; [reflexivity|]. split; [reflexivity|]. split; [reflexivity|].
    split; [|intros t prompt H; discriminate H].
    intros t. eexists; eexists; eexists; eexists.
    split; [reflexivity|]. split; [reflexivity|]. split; [reflexivity|].
    split; [reflexivity|]. intros H; discriminate H. }
  split; [exact Ht|]. split; [exact Hs|].
  exact (item_listed_twice_is_processed_once Json.loads Examples.dumps R ep
           (Examples.mp3 "ep1") [Examples.episode "ep2"] Examples.start Ht Hs).
Defined.

Lemma top_lists_hold_the_most_frequent_witness :
  let R := Examples.remote [] "{}" in
  match build_analysis_index Json.loads R Examples.tagged_tree with
  | Done a _ =>
      let files := annotations Json.loads Examples.tagged_tree in
      Agg.top_tech_themes a = [("mlflow", 2%Z); ("kubernetes", 1%Z); ("ray", 1%Z)]
      /\ holds_top (category_ranking "tech_tags" files) (Agg.top_tech_themes a)
      /\ holds_top (category_ranking "business_tags" files) (Agg.top_business_themes a)
      /\ holds_top (category_ranking "key_topics" files) (Agg.top_topics a)
  | _ => False
  end.
Proof.
  intros R.
  destruct (build_analysis_index Json.loads R Examples.tagged_tree)
    as [a w'|e w'|] eqn:E; [|discriminate E|discriminate E].
  split; [|exact (top_lists_hold_the_most_frequent Json.loads R _ _ _ E)].
  vm_compute in E. now injection E as <- _.
Defined.

Lemma index_describes_the_tags_the_run_leaves_witness :
  let R := Examples.remote [["hello"]] "{}" in
  match main Json.loads Examples.dumps R (Some [Examples.episode "ep1"])
          Examples.start with
  | Done _ w' =>
      exists a,
        Fs.read index_path (fs w') = Some (Doc (Agg.analysis_json a))
        /\ let files := annotations Json.loads w' in
           Agg.top_tech_themes a = firstn 25 (category_ranking "tech_tags" files)
           /\ Agg.top_business_themes a
              = firstn 20 (category_ranking "business_tags" files)
           /\ Agg.top_topics a = firstn 20 (category_ranking "key_topics" files)
           /\ Agg.episodes_analyzed a
              = Z.of_nat (List.length (filter (fun fd => Tally.counted (snd fd)) files))
  | _ => False
  end.
Proof.
  intros R.
  destruct (main Json.loads Examples.dumps R (Some [Examples.episode "ep1"])
              Examples.start) as [[] w'|e w'|] eqn:E;
    [|discriminate E|discriminate E].
  exact (index_describes_the_tags_the_run_leaves Json.loads R Examples.dumps
           [Examples.episode "ep1"] Examples.start w' E).
Defined.

Lemma open_fence_loses_its_last_line_witness :
  response_text ("```json" ++ Str.nl ++ "{" ++ Str.nl ++ "}") = "{"
  /\ parse_response Json.loads ("```json" ++ Str.nl ++ "{" ++ Str.nl ++ "}")
     = decode_or_error Json.loads "{".
Proof.
  exact (open_fence_loses_its_last_line Json.loads "json" "{" "}"
           eq_refl eq_refl eq_refl).
Defined.

Lemma annotation_sees_first_10000_characters_witness :
  let t := Examples.replicate (100 * 100) "x" in
  build_prompt (t ++ "the rest") "T" = build_prompt t "T"
  /\ tag_episode Json.loads Examples.stuck_remote (t ++ "the rest") "T" Examples.start
     = tag_episode Json.loads Examples.stuck_remote t "T" Examples.start.
Proof.
  intros t.
  assert (H : 100 * 100 <= String.length t).
  { apply Nat.leb_le. vm_compute. reflexivity. }
  exact (annotation_sees_first_10000_characters Json.loads Examples.stuck_remote
           t "the rest" "T" Examples.start H).
Defined.

Lemma unparseable_annotation_is_never_retried_witness :
  let R := Examples.remote [] "not json" in
  exists w',
    tag_step Json.loads R "ep1" "hi" "T" Examples.start = Done tt w'
    /\ tagged (progress w') = tagged (progress Examples.start) ++ ["ep1"]
    /\ ledger w' = Some (progress w')
    /\ (forall transcript' title',
          tag_step Json.loads Examples.stuck_remote "ep1" transcript' title' w'
          = Done tt w')
    /\ exists data,
         Fs.read (tags_path "ep1") (fs w') = Some (Doc data)
         /\ Agg.has_error data = inr true
         /\ forall acc, Agg.visit acc "ep1" data = inr acc.
Proof.
  intros R.
  exact (unparseable_annotation_is_never_retried Json.loads R Examples.stuck_remote
           "ep1" "hi" "T" "not json" Examples.start eq_refl eq_refl eq_refl).
Defined.

Lemma audio_file_is_found_by_title_words_witness :
  let ep := mkEpisode NullTitle None in
  let R := Examples.remote [] "{}" in
  resolve_local_file ep (fs Examples.start) = inl AttributeError
  /\ process_episode Json.loads Examples.dumps R ep Examples.start
     = Raised AttributeError Examples.start.
Proof.
  intros ep R.
  pose proof (audio_file_is_found_by_title_words Json.loads Examples.dumps R ep
                (fs Examples.start)) as H.
  change (audio_of ep) with (@None Path.t) in H. cbv zeta in H.
  destruct H as (H1 & H2 & _).
  assert (Hg : Fs.glob EPISODES_DIR ".mp3" (fs Examples.start) <> [])
    by (intros E; vm_compute in E; discriminate E).
  split.
  - apply H1. split; [reflexivity | exact Hg].
  - apply H2; [reflexivity | exact Hg | reflexivity].
Defined.

Section Resuming.
Import FsFacts.

Variable json_loads : string -> option json.
Variable json_dumps : json -> string.
Variable R : Remote.

(** X28.  Without a bucket nothing is processed.  The bucket is created
    only when it cannot be fetched; and when it can be neither fetched nor
    created, [main] raises before the progress is loaded and before any
    item: no stage executor is invoked, and every file, the bucket and the
    progress file are as they were. *)
Theorem run_stops_without_a_bucket :
  forall (metadata : list Episode) (w : World),
    (get_bucket R (clock w) = true ->
     ensure_bucket_exists R w = Done tt (advance w))
    /\ (get_bucket R (clock w) = false ->
        create_bucket R (S (clock w)) = false ->
        exists w',
          main json_loads json_dumps R (Some metadata) w = Raised NetworkError w'
          /\ calls w' = calls w /\ fs w' = fs w /\ bucket w' = bucket w
          /\ ledger w' = ledger w /\ progress w' = progress w).
Proof.
  intros metadata w. split.
  - intros H. unfold ensure_bucket_exists, bind, tick. now rewrite H.
  - intros Hg Hc. exists (advance (advance w)). split; [|repeat split].
    unfold main. apply bind_raised.
    unfold ensure_bucket_exists, bind, tick. rewrite Hg. cbn [clock advance].
    now rewrite Hc.
Qed.

(** X29.  A run takes up an item where the last one left it: when the
    transcript of the item is on disk and its tags are not, the item is not
    transcribed again; the one stage call it makes is the annotation of the
    text of the transcript file, under the title of the item; the item
    returns [True]; and when the service answers, the tags file holds what
    [tag_episode] made of the answer. *)
Theorem saved_transcript_is_annotated_on_rerun :
  forall (ep : Episode) (mp3_path : Path.t) (w : World) (text : string),
    resolve_local_file ep (fs w) = inr (Some mp3_path) ->
    Fs.exist mp3_path (fs w) = true ->
    Fs.read (transcript_path (Path.stem mp3_path)) (fs w) = Some (Text text) ->
    Fs.exist (tags_path (Path.stem mp3_path)) (fs w) = false ->
    let prompt := build_prompt text (title_of ep) in
    exists w',
      process_episode json_loads json_dumps R ep w = Done true w'
      /\ calls w' = calls w ++ [Annotate prompt]
      /\ Fs.read (transcript_path (Path.stem mp3_path)) (fs w') = Some (Text text)
      /\ match generate_content R (clock w) prompt with
         | Some raw =>
             Fs.read (tags_path (Path.stem mp3_path)) (fs w')
             = Some (Doc (parse_response json_loads raw))
             /\ tagged (progress w') = tagged (progress w) ++ [Path.stem mp3_path]
         | None =>
             fs w' = fs w /\ progress w' = progress w /\ ledger w' = ledger w
         end.
Proof.
  intros ep mp3 w text Hres Hmp3 Htext Htags prompt.
  assert (Hex : Fs.exist (transcript_path (Path.stem mp3)) (fs w) = true).
  { unfold Fs.exist. now rewrite Htext. }
  rewrite process_episode_unfold, Hres, Hmp3, process_resolved_eval; cbv zeta.
  rewrite Hex. unfold first_step.
  assert (Hread : read_text json_dumps (transcript_path (Path.stem mp3)) w
                  = Done text w).
  { unfold read_text. now rewrite Htext. }
  erewrite bind_done; [|exact Hread]. unfold ret.
  rewrite tag_step_eval, Htags; cbv zeta. fold prompt.
  destruct (generate_content R (clock w) prompt) as [raw|].
  - eexists. split; [reflexivity|]. cbn [tagged_world calls fs progress].
    split; [reflexivity|]. split; [|split; [apply read_write_same | reflexivity]].
    rewrite read_write_other by discriminate. exact Htext.
  - eexists. split; [reflexivity|].
    cbn [after_call calls fs progress ledger]. auto.
Qed.

End Resuming.

Lemma run_stops_without_a_bucket_witness :
  let R := mkRemote (fun _ _ => Some true) (fun _ _ => true) (fun _ _ => true)
             (fun _ _ => None) (fun _ _ => None)
             (fun _ => false) (fun _ => false) (fun _ => "now") in
  exists w',
    main Json.loads Examples.dumps R (Some [Examples.episode "ep1"]) Examples.start
    = Raised NetworkError w'
    /\ calls w' = [] /\ fs w' = fs Examples.start.
Proof.
  intros R.
  destruct (run_stops_without_a_bucket Json.loads Examples.dumps R
              [Examples.episode "ep1"] Examples.start) as [_ H].
  destruct (H eq_refl eq_refl) as (w' & E & Hc & Hf & _).
  exists w'. auto.
Defined.

Lemma saved_transcript_is_annotated_on_rerun_witness :
  let R := Examples.remote [] "{}" in
  let w := set_fs ((transcript_path "ep1", Text "hello") :: fs Examples.start)
             Examples.start in
  exists w',
    process_episode Json.loads Examples.dumps R (Examples.episode "ep1") w
    = Done true w'
    /\ calls w' = [Annotate (build_prompt "hello" "ep1")]
    /\ Fs.read (tags_path "ep1") (fs w') = Some (Doc (JObj [])).
Proof.
  intros R w.
  destruct (saved_transcript_is_annotated_on_rerun Json.loads Examples.dumps R
              (Examples.episode "ep1") (Examples.mp3 "ep1") w "hello"
              eq_refl eq_refl eq_refl eq_refl) as (w' & E & Hc & _ & Hg).
  exists w'. split; [exact E|]. split; [exact Hc|].
  change (generate_content R (clock w)
            (build_prompt "hello" (title_of (Examples.episode "ep1"))))
    with (Some "{}") in Hg.
  exact (proj1 Hg).
Defined.

(** * The download scripts *)

Module DownloadFacts.
Import Download.

Lemma all_chars_impl (f g : ascii -> bool) (s : string) :
  (forall c, f c = true -> g c = true) ->
  all_chars f s = true -> all_chars g s = true.
Proof.
  intros H. induction s as [|c s IH]; cbn; [reflexivity|].
  intros E. apply andb_true_iff in E as [Ec Es].
  now rewrite (H c Ec), IH.
Qed.

Lemma all_chars_app (f : ascii -> bool) (a b : string) :
  all_chars f (a ++ b) = all_chars f a && all_chars f b.
Proof.
  induction a as [|c a IH]; cbn; [reflexivity|]. now rewrite IH, andb_assoc.
Qed.

Lemma all_chars_lstrip (f : ascii -> bool) (s : string) :
  all_chars f s = true -> all_chars f (Str.lstrip s) = true.
Proof.
  induction s as [|c s IH]; cbn; [reflexivity|]. intros E.
  destruct (Str.is_space c); [|exact E].
  apply andb_true_iff in E as [_ Es]. now apply IH.
Qed.

Lemma all_chars_rstrip (f : ascii -> bool) (s : string) :
  all_chars f s = true -> all_chars f (Str.rstrip s) = true.
Proof.
  induction s as [|c s IH]; cbn; [reflexivity|]. intros E.
  apply andb_true_iff in E as [Ec Es].
  destruct (Str.is_space c && Str.is_empty (Str.rstrip s)); [reflexivity|].
  cbn. now rewrite Ec, IH.
Qed.

Lemma all_chars_strip (f : ascii -> bool) (s : string) :
  all_chars f s = true -> all_chars f (Str.strip s) = true.
Proof. intros H. unfold Str.strip. now apply all_chars_rstrip, all_chars_lstrip. Qed.

Lemma all_chars_take (f : ascii -> bool) (n : nat) (s : string) :
  all_chars f s = true -> all_chars f (Str.take n s) = true.
Proof.
  revert s. induction n as [|n IH]; intros [|c s]; cbn; try reflexivity.
  intros E. apply andb_true_iff in E as [Ec Es]. now rewrite Ec, IH.
Qed.

Lemma all_chars_drop_special (s : string) :
  all_chars (fun c => is_word c || Str.is_space c || is_dash c) (drop_special s) = true.
Proof.
  induction s as [|c s IH]; cbn; [reflexivity|].
  destruct (is_word c || Str.is_space c || is_dash c) eqn:E; [|exact IH].
  cbn. now rewrite E.
Qed.

Lemma all_chars_dash_runs (in_run : bool) (s : string) :
  all_chars (fun c => is_word c || Str.is_space c || is_dash c) s = true ->
  all_chars (fun c => is_word c || is_dash c) (dash_runs in_run s) = true.
Proof.
  revert in_run. induction s as [|c s IH]; intros in_run; cbn; [reflexivity|].
  intros E. apply andb_true_iff in E as [Ec Es].
  destruct (Str.is_space c) eqn:Sp.
  - destruct in_run; [now apply IH|].
    cbn [all_chars]. rewrite (IH true Es). reflexivity.
  - cbn [all_chars]. rewrite (IH false Es), andb_true_r.
    destruct (is_word c), (is_dash c); cbn in *; congruence.
Qed.

Lemma lower_char_safe (c : ascii) :
  is_word c || is_dash c = true -> is_safe (Str.lower_char c) = true.
Proof.
  destruct c as [[] [] [] [] [] [] [] []]; vm_compute; intros H;
    reflexivity || discriminate H.
Qed.

Lemma all_chars_lower (s : string) :
  all_chars (fun c => is_word c || is_dash c) s = true ->
  all_chars is_safe (Str.lower s) = true.
Proof.
  induction s as [|c s IH]; cbn; [reflexivity|].
  intros E. apply andb_true_iff in E as [Ec Es].
  now rewrite (lower_char_safe c Ec), IH.
Qed.

Lemma length_lower (s : string) : String.length (Str.lower s) = String.length s.
Proof. induction s as [|c s IH]; cbn; [reflexivity | now rewrite IH]. Qed.

Lemma clean_filename_safe (title : string) :
  String.length (clean_filename title) <= 80
  /\ all_chars is_safe (clean_filename title) = true.
Proof.
  unfold clean_filename. split.
  - rewrite length_lower. apply StrFacts.take_length.
  - apply all_chars_lower, all_chars_take, all_chars_dash_runs, all_chars_strip,
      all_chars_drop_special.
Qed.

Lemma safe_cases (c : ascii) :
  is_safe c = true ->
  (is_word c || Str.is_space c || is_dash c) = true
  /\ Str.is_space c = false /\ Str.lower_char c = c.
Proof.
  destruct c as [[] [] [] [] [] [] [] []]; vm_compute; intros H;
    (repeat split; reflexivity) || discriminate H.
Qed.

Lemma drop_special_safe (s : string) :
  all_chars is_safe s = true -> drop_special s = s.
Proof.
  induction s as [|c s IH]; cbn; [reflexivity|].
  intros E. apply andb_true_iff in E as [Ec Es].
  destruct (safe_cases c Ec) as (H & _). now rewrite H, IH.
Qed.

Lemma rstrip_safe (s : string) : all_chars is_safe s = true -> Str.rstrip s = s.
Proof.
  induction s as [|c s IH]; cbn; [reflexivity|].
  intros E. apply andb_true_iff in E as [Ec Es].
  destruct (safe_cases c Ec) as (_ & H & _). now rewrite H, IH.
Qed.

Lemma strip_safe (s : string) : all_chars is_safe s = true -> Str.strip s = s.
Proof.
  intros H. unfold Str.strip.
  assert (E : Str.lstrip s = s).
  { destruct s as [|c s]; [reflexivity|]. cbn in *.
    apply andb_true_iff in H as [Ec _].
    destruct (safe_cases c Ec) as (_ & Hs & _). now rewrite Hs. }
  rewrite E. now apply rstrip_safe.
Qed.

Lemma dash_runs_safe (s : string) :
  all_chars is_safe s = true -> dash_runs false s = s.
Proof.
  induction s as [|c s IH]; cbn; [reflexivity|].
  intros E. apply andb_true_iff in E as [Ec Es].
  destruct (safe_cases c Ec) as (_ & H & _). now rewrite H, IH.
Qed.

Lemma lower_safe (s : string) : all_chars is_safe s = true -> Str.lower s = s.
Proof.
  induction s as [|c s IH]; cbn; [reflexivity|].
  intros E. apply andb_true_iff in E as [Ec Es].
  destruct (safe_cases c Ec) as (_ & _ & H). now rewrite H, IH.
Qed.

End DownloadFacts.

(** X20.  The name made from an ASCII title is safe as a file name: it has
    at most 80 characters, and each of them is a small letter, a digit, an
    underscore or a dash; so it holds no path separator, no dot and no white
    space. *)
Theorem clean_filename_is_a_safe_name :
  forall (title : string),
    Download.ascii_only title = true ->
    String.length (Download.clean_filename title) <= 80
    /\ Download.all_chars Download.is_safe (Download.clean_filename title) = true.
Proof.
  intros title _. unfold Download.clean_filename. split.
  - rewrite DownloadFacts.length_lower. apply StrFacts.take_length.
  - apply DownloadFacts.all_chars_lower, DownloadFacts.all_chars_take,
      DownloadFacts.all_chars_dash_runs, DownloadFacts.all_chars_strip,
      DownloadFacts.all_chars_drop_special.
Qed.

Lemma clean_filename_is_a_safe_name_witness :
  Download.clean_filename "Hello, World! #12  MLOps -- Test"
  = "hello-world-12-mlops----test"
  /\ String.length (Download.clean_filename "Hello, World! #12  MLOps -- Test") <= 80
  /\ Download.all_chars Download.is_safe
       (Download.clean_filename "Hello, World! #12  MLOps -- Test") = true.
Proof.
  split; [reflexivity|].
  exact (clean_filename_is_a_safe_name "Hello, World! #12  MLOps -- Test" eq_refl).
Defined.

(** X21.  Cleaning is idempotent on ASCII titles: a name that was cleaned
    is left as it is when it is cleaned again. *)
Theorem clean_filename_is_idempotent :
  forall (title : string),
    Download.ascii_only title = true ->
    Download.clean_filename (Download.clean_filename title)
    = Download.clean_filename title.
Proof.
  intros title _.
  destruct (DownloadFacts.clean_filename_safe title) as [Hlen Hsafe].
  set (s := Download.clean_filename title) in *.
  unfold Download.clean_filename at 1.
  rewrite (DownloadFacts.drop_special_safe s Hsafe),
    (DownloadFacts.strip_safe s Hsafe), (DownloadFacts.dash_runs_safe s Hsafe),
    (StrFacts.take_short 80 s Hlen).
  now apply DownloadFacts.lower_safe.
Qed.

Lemma clean_filename_is_idempotent_witness :
  Download.clean_filename (Download.clean_filename "  The ML/Ops Show: Part 2 ")
  = Download.clean_filename "  The ML/Ops Show: Part 2 ".
Proof.
  exact (clean_filename_is_idempotent "  The ML/Ops Show: Part 2 " eq_refl).
Defined.

Module FeedFacts.
Import Download.

Lemma span_digits_parts (s : string) :
  let (d, rest) := Json.span_digits s in
  s = (d ++ rest)%string
  /\ all_chars Json.is_digit d = true
  /\ Json.span_digits rest = (EmptyString, rest).
Proof.
  induction s as [|c s IH]; cbn; [auto|].
  destruct (Json.is_digit c) eqn:E.
  - destruct (Json.span_digits s) as [d rest]. destruct IH as (-> & Hd & Hr).
    cbn. rewrite E. auto.
  - cbn. rewrite E. auto.
Qed.

Lemma hash_not_digit (c : ascii) :
  (nat_of_ascii c =? 35) = true -> Json.is_digit c = false.
Proof.
  unfold Json.is_digit. intros H. apply Nat.eqb_eq in H. rewrite H. reflexivity.
Qed.

Lemma is_hash (c : ascii) : (nat_of_ascii c =? 35) = true -> c = "#"%char.
Proof.
  intros H. apply Nat.eqb_eq in H.
  rewrite <- (ascii_nat_embedding c), H. reflexivity.
Qed.

(** What the search for an episode number finds. *)
Lemma episode_number_found (title d : string) :
  episode_number_in title = Some d ->
  d <> EmptyString
  /\ all_chars Json.is_digit d = true
  /\ exists a b,
       title = (a ++ "#" ++ d ++ b)%string
       /\ episode_number_in a = None
       /\ Json.span_digits b = (EmptyString, b).
Proof.
  induction title as [|c s IH]; cbn; [discriminate|].
  destruct (nat_of_ascii c =? 35) eqn:E.
  - pose proof (span_digits_parts s) as Hs.
    destruct (Json.span_digits s) as [[|x ds] rest] eqn:Es.
    + intros H. destruct (IH H) as (Hne & Hd & a & b & -> & Ha & Hb).
      split; [exact Hne|]. split; [exact Hd|].
      exists (String c a), b. split; [reflexivity|]. split; [|exact Hb].
      cbn [episode_number_in]. rewrite E. destruct a as [|y a]; [exact Ha|].
      cbn [append Json.span_digits] in Es |- *.
      destruct (Json.is_digit y) eqn:Ey; [|exact Ha].
      destruct (Json.span_digits _) in Es; discriminate Es.
    + intros H; injection H as <-. destruct Hs as (-> & Hd & Hr).
      split; [discriminate|]. split; [exact Hd|].
      exists EmptyString, rest. apply is_hash in E. subst c. auto.
  - intros H. destruct (IH H) as (Hne & Hd & a & b & -> & Ha & Hb).
    split; [exact Hne|]. split; [exact Hd|].
    exists (String c a), b. split; [reflexivity|]. split; [|exact Hb].
    cbn. now rewrite E.
Qed.

Lemma episode_number_missing (a b : string) :
  episode_number_in (a ++ String "#"%char b) = None ->
  Json.span_digits b = (EmptyString, b).
Proof.
  induction a as [|c a IH]; cbn [append episode_number_in].
  - change (nat_of_ascii "#" =? 35) with true. cbv iota.
    pose proof (span_digits_parts b) as Hs.
    destruct (Json.span_digits b) as [[|x ds] rest]; [|discriminate].
    destruct Hs as (-> & _). reflexivity.
  - destruct (nat_of_ascii c =? 35); [|exact IH].
    destruct (Json.span_digits (a ++ String "#"%char b)) as [[|x ds] rest];
      [exact IH | discriminate].
Qed.

Lemma shorten_bound (o : option string) (s : string) :
  shorten o = Some s ->
  String.length s <= 503
  /\ (forall t, o = Some t -> String.length t <= 500 -> s = t).
Proof.
  unfold shorten. destruct o as [t|]; [|discriminate].
  pose proof (StrFacts.take_length 500 t) as Ht.
  remember (Str.take 500 t) as u eqn:Eu. clear Eu.
  remember 500 as n eqn:En. clear En.
  destruct (n <? String.length t) eqn:E.
  - intros H. injection H as <-. split.
    + rewrite StrFacts.length_app. change (String.length "...") with 3. lia.
    + intros t' H Hl. injection H as <-. apply Nat.ltb_lt in E. lia.
  - intros H. injection H as <-. apply Nat.ltb_ge in E. split; [lia|].
    intros t' H _. now injection H.
Qed.

End FeedFacts.

(** X22.  The episode number of an entry is read off its title: it is the
    longest run of digits behind the first [#] of the title that has a digit
    behind it, so it is never empty and holds digits only; and an entry has
    no number exactly when no [#] of its title has a digit behind it. *)
Theorem episode_number_is_the_first_hash_number :
  forall (title : string),
    Download.ascii_only title = true ->
    match Download.episode_number_in title with
    | Some d =>
        d <> EmptyString
        /\ Download.all_chars Json.is_digit d = true
        /\ exists a b,
             title = (a ++ "#" ++ d ++ b)%string
             /\ Download.episode_number_in a = None
             /\ Json.span_digits b = (EmptyString, b)
    | None =>
        forall a b, title = (a ++ "#" ++ b)%string ->
                    Json.span_digits b = (EmptyString, b)
    end.
Proof.
  intros title _.
  destruct (Download.episode_number_in title) as [d|] eqn:E.
  - now apply FeedFacts.episode_number_found.
  - intros a b ->. now apply FeedFacts.episode_number_missing in E.
Qed.

Lemma episode_number_is_the_first_hash_number_witness :
  Download.episode_number_in "MLOps #x Talk #123abc #7" = Some "123"
  /\ exists a b,
       "MLOps #x Talk #123abc #7" = (a ++ "#" ++ "123" ++ b)%string
       /\ Download.episode_number_in a = None
       /\ Json.span_digits b = (EmptyString, b).
Proof.
  split; [reflexivity|].
  pose proof (episode_number_is_the_first_hash_number "MLOps #x Talk #123abc #7"
                eq_refl) as H.
  change (Download.episode_number_in "MLOps #x Talk #123abc #7")
    with (Some "123") in H.
  exact (proj2 (proj2 H)).
Defined.

Section FeedClaims.
Import Download.

Variable items_of : string -> option (list Item).

Lemma parse_items_all (items : list Item) (episodes : list Entry) :
  parse_items items = Some episodes ->
  Forall2 (fun it e => parse_item it = Some e) items episodes.
Proof.
  revert episodes. induction items as [|it items IH]; cbn; intros episodes.
  - intros H; injection H as <-. constructor.
  - destruct (parse_item it) as [e|] eqn:E; [|discriminate].
    destruct (parse_items items) as [l|]; [|discriminate].
    intros H; injection H as <-. constructor; auto.
Qed.

Lemma parse_items_none (items : list Item) :
  parse_items items = None ->
  exists it, In it items /\ item_title it = Element None.
Proof.
  induction items as [|it items IH]; cbn; [discriminate|].
  destruct (parse_item it) as [e|] eqn:E.
  - destruct (parse_items items) as [l|]; [discriminate|].
    intros _. destruct (IH eq_refl) as (x & Hx & Ht). exists x. auto.
  - intros _. exists it. split; [now left|].
    unfold parse_item, text_or_empty in E.
    destruct (item_title it) as [|[t|]]; [discriminate | discriminate | reflexivity].
Qed.

(** X23.  [parse_rss] yields one entry for every item of the feed, in the
    order of the feed, or no entry at all.  Every entry has the text of the
    title of its item as its title (the empty text when the item has no
    title element), the episode number read off that title, a description
    of at most 503 characters, which is the description of the item when
    that has at most 500, and no [local_file].  And [parse_rss] raises a
    [TypeError] exactly because some item has a title element without
    text. *)
Theorem parse_rss_keeps_every_item_or_none :
  forall (xml_content : string) (items : list Item),
    items_of xml_content = Some items ->
    match parse_rss items_of xml_content with
    | inr episodes =>
        Forall2
          (fun it e =>
             text_or_empty (item_title it) = Some (en_title e)
             /\ en_episode_number e = episode_number_in (en_title e)
             /\ en_local_file e = None
             /\ match en_description e with
                | Some s =>
                    String.length s <= 503
                    /\ (forall t, text_or_empty (item_description it) = Some t ->
                                  String.length t <= 500 -> s = t)
                | None => item_description it = Element None
                end)
          items episodes
    | inl e =>
        e = NoneIsNotText
        /\ exists it, In it items /\ item_title it = Element None
    end.
Proof.
  intros xml_content items Hitems. unfold parse_rss. rewrite Hitems.
  destruct (parse_items items) as [episodes|] eqn:E.
  - apply parse_items_all in E. clear Hitems.
    induction E as [|it e items episodes H _ IH]; [constructor|].
    constructor; [|exact IH].
    unfold parse_item in H.
    destruct (text_or_empty (item_title it)) as [title|]; [|discriminate].
    injection H as <-. cbn [en_title en_episode_number en_local_file en_description].
    split; [reflexivity|]. split; [reflexivity|]. split; [reflexivity|].
    destruct (shorten (text_or_empty (item_description it))) as [s|] eqn:Es.
    + now apply FeedFacts.shorten_bound.
    + unfold shorten, text_or_empty in Es.
      destruct (item_description it) as [|[t|]]; try reflexivity.
      * destruct (500 <? String.length EmptyString); discriminate Es.
      * destruct (500 <? String.length t); discriminate Es.
  - split; [reflexivity | now apply parse_items_none].
Qed.

End FeedClaims.

Lemma parse_rss_keeps_every_item_or_none_witness :
  let item :=
    Download.mkItem (Download.Element (Some "MLOps #12: Serving"))
      (Some (Some "https://example.org/12.mp3")) Download.NotFound
      Download.NotFound (Download.Element None) in
  let items_of := fun _ : string => Some [item] in
  match Download.parse_rss items_of "<rss/>" with
  | inr [e] =>
      Download.en_title e = "MLOps #12: Serving"
      /\ Download.en_episode_number e = Some "12"
      /\ Download.en_local_file e = None
  | _ => False
  end.
Proof.
  intros item items_of.
  pose proof (parse_rss_keeps_every_item_or_none items_of "<rss/>" [item] eq_refl)
    as H.
  destruct (Download.parse_rss items_of "<rss/>") as [e|[|e [|e' l]]] eqn:E;
    try discriminate E.
  inversion H as [|? ? ? ? (H1 & H2 & H3 & _) _]; subst.
  injection H1 as H1. rewrite <- H1 in *. auto.
Defined.

Section DownloadClaims.
Import Download FsFacts TreeFacts.

Variable items_of : string -> option (list Item).
Variable urlretrieve : nat -> string -> Fetch.

(** What one download does to the disk. *)
Lemma download_episode_effect (ep : Entry) (index : nat) (d : Disk) :
  let p := Path.of_string ("episodes/" ++ file_name ep index) in
  let d' := snd (download_episode urlretrieve ep index d) in
  metadata d' = metadata d
  /\ (forall q, q <> p -> Fs.read q (files d') = Fs.read q (files d))
  /\ (forall q, Fs.exist q (files d) = true -> Fs.exist q (files d') = true)
  /\ (requests d' = requests d
      \/ exists url, truthy (en_audio_url ep) = Some url
                     /\ Fs.exist p (files d) = false
                     /\ requests d' = requests d ++ [url]).
Proof.
  cbv zeta. unfold download_episode.
  destruct (truthy (en_audio_url ep)) as [url|]; [|cbn; auto].
  set (p := Path.of_string ("episodes/" ++ file_name ep index)).
  destruct (Fs.exist p (files d)) eqn:E; [cbn; auto|].
  assert (Hw : forall q, Fs.exist q (files d) = true ->
                         Fs.exist q (Fs.write p Audio (files d)) = true).
  { intros q Hq. destruct (path_eq_dec p q) as [<-|Hne]; [congruence|].
    unfold Fs.exist in *. now rewrite read_write_other. }
  destruct (urlretrieve _ url) as [|[|]]; cbn [snd metadata files requests];
    (split; [reflexivity|]); (split; [|split; [|right; exists url; auto]]);
    auto; intros q Hq; now apply read_write_other.
Qed.

(** A path that comes back is the name of the file, which is there. *)
Lemma download_episode_returns (ep : Entry) (index : nat) (d : Disk) (path : string) :
  fst (download_episode urlretrieve ep index d) = Some path ->
  path = ("episodes/" ++ file_name ep index)%string
  /\ Fs.exist (Path.of_string ("episodes/" ++ file_name ep index))
       (files (snd (download_episode urlretrieve ep index d))) = true.
Proof.
  unfold download_episode.
  destruct (truthy (en_audio_url ep)) as [url|]; [|discriminate].
  destruct (Fs.exist _ (files d)) eqn:E.
  - cbn. intros H. injection H as <-. auto.
  - destruct (urlretrieve _ url) as [|[|]]; cbn; try discriminate.
    intros H. injection H as <-. split; [reflexivity|].
    apply exist_write_same.
Qed.

(** X24.  [download_episode] returns a path only for a file that is there
    when it returns, and the path is [episodes/ep<number>-<cleaned
    title>.mp3]; it requests nothing when the entry has no URL or when the
    file exists already, in which case the disk is left as it is; it makes
    at most one request, for the URL of the entry; and it removes no file
    and writes none but the one it names. *)
Theorem download_returns_a_file_that_is_there :
  forall (ep : Entry) (index : nat) (d : Disk),
    let name := ("episodes/" ++ file_name ep index)%string in
    let p := Path.of_string name in
    let result := fst (download_episode urlretrieve ep index d) in
    let d' := snd (download_episode urlretrieve ep index d) in
    (forall path, result = Some path ->
                  path = name /\ Fs.exist p (files d') = true)
    /\ (truthy (en_audio_url ep) = None -> result = None /\ d' = d)
    /\ (Fs.exist p (files d) = true -> d' = d)
    /\ (requests d' = requests d
        \/ exists url, truthy (en_audio_url ep) = Some url
                       /\ requests d' = requests d ++ [url])
    /\ (forall q, q <> p -> Fs.read q (files d') = Fs.read q (files d))
    /\ (forall q, Fs.exist q (files d) = true -> Fs.exist q (files d') = true)
    /\ metadata d' = metadata d.
Proof.
  intros ep index d name p result d'.
  destruct (download_episode_effect ep index d) as (Hm & Hr & He & Hq).
  fold name p d' in Hm, Hr, He, Hq.
  split; [|split; [|split; [|split; [|split; [exact Hr|split; [exact He|exact Hm]]]]]].
  - intros path H. now apply download_episode_returns.
  - unfold result, d', download_episode. now intros ->.
  - unfold d', download_episode. fold name p. intros ->.
    now destruct (truthy (en_audio_url ep)).
  - destruct Hq as [Hq|(url & Hu & _ & Hq)]; [now left | right; eauto].
Qed.

End DownloadClaims.

Lemma download_returns_a_file_that_is_there_witness :
  let ep := Download.mkEntry "MLOps #12: Serving" (Some "12")
              (Some "https://example.org/12.mp3") None None None None in
  let d := Download.mkDisk [] None [] in
  let d' := snd (Download.download_episode (fun _ _ => Download.Fetched) ep 0 d) in
  fst (Download.download_episode (fun _ _ => Download.Fetched) ep 0 d)
  = Some "episodes/ep12-mlops-12-serving.mp3"
  /\ Fs.exist (Path.of_string "episodes/ep12-mlops-12-serving.mp3")
       (Download.files d') = true
  /\ Download.requests d' = ["https://example.org/12.mp3"].
Proof.
  intros ep d d'.
  destruct (download_returns_a_file_that_is_there (fun _ _ => Download.Fetched)
              ep 0 d) as (H & _).
  destruct (H "episodes/ep12-mlops-12-serving.mp3" eq_refl) as [_ He].
  split; [reflexivity|]. split; [exact He | reflexivity].
Defined.

Module NameFacts.
Import Download DownloadFacts.

Lemma rsplit_none (c : ascii) (b : string) :
  all_chars (fun x => negb (Ascii.eqb x c)) b = true -> Path.rsplit c b = None.
Proof.
  induction b as [|x b IH]; cbn; [reflexivity|].
  intros H. apply andb_true_iff in H as [Hx Hb]. rewrite (IH Hb).
  apply negb_true_iff in Hx. now rewrite Hx.
Qed.

(** The split at the last [c], when what follows it has no [c]. *)
Lemma rsplit_last (c : ascii) (a b : string) :
  all_chars (fun x => negb (Ascii.eqb x c)) b = true ->
  Path.rsplit c (a ++ String c b) = Some (a, b).
Proof.
  intros Hb. induction a as [|x a IH]; cbn.
  - now rewrite (rsplit_none c b Hb), Ascii.eqb_refl.
  - fold (append a (String c b)). now rewrite IH.
Qed.

Lemma digits_of_uint (u : Decimal.uint) :
  all_chars Json.is_digit (NilEmpty.string_of_uint u) = true.
Proof. induction u; cbn; auto. Qed.

Lemma all_chars_replicate (f : ascii -> bool) (n : nat) (c : ascii) :
  f c = true -> all_chars f (Examples.replicate n c) = true.
Proof. intros H. induction n as [|n IH]; cbn; [reflexivity | now rewrite H, IH]. Qed.

Lemma pad3_digits (index : nat) : all_chars Json.is_digit (pad3 index) = true.
Proof.
  unfold pad3. rewrite all_chars_app, digits_of_uint, andb_true_r.
  now apply all_chars_replicate.
Qed.

Lemma digit_is_plain (c x : ascii) :
  Json.is_digit c = false -> Json.is_digit x = true -> negb (Ascii.eqb x c) = true.
Proof.
  intros Hc Hx. apply negb_true_iff, Ascii.eqb_neq. intros ->. congruence.
Qed.

Lemma safe_is_plain (c x : ascii) :
  is_safe c = false -> is_safe x = true -> negb (Ascii.eqb x c) = true.
Proof.
  intros Hc Hx. apply negb_true_iff, Ascii.eqb_neq. intros ->. congruence.
Qed.

Lemma digit_is_safe (x : ascii) : Json.is_digit x = true -> is_safe x = true.
Proof.
  unfold Json.is_digit, is_safe. cbv zeta. intros ->. reflexivity.
Qed.

(** A stem made of a number and a cleaned title has no [c] in it, for a
    [c] that is not a character of a cleaned name. *)
Lemma stem_is_plain (c : ascii) (number title : string) :
  is_safe c = false ->
  all_chars is_safe number = true ->
  all_chars (fun x => negb (Ascii.eqb x c))
    ("ep" ++ number ++ "-" ++ clean_filename title) = true.
Proof.
  intros Hc Hn.
  apply all_chars_impl with (f := is_safe); [intros x; now apply safe_is_plain|].
  change ("ep" ++ number ++ "-" ++ clean_filename title)%string
    with ("ep" ++ (number ++ ("-" ++ clean_filename title)))%string.
  rewrite !all_chars_app, Hn.
  destruct (clean_filename_safe title) as [_ ->]. reflexivity.
Qed.

Lemma number_is_safe (e : Entry) (index : nat) :
  (forall d, en_episode_number e = Some d ->
             d <> EmptyString /\ all_chars Json.is_digit d = true) ->
  let number := match en_episode_number e with
                | Some n => n
                | None => ("ep" ++ pad3 index)%string
                end in
  match truthy (en_episode_number e) with
  | Some n => n
  | None => ("ep" ++ pad3 index)%string
  end = number
  /\ all_chars is_safe number = true.
Proof.
  intros H. cbv zeta. destruct (en_episode_number e) as [d|]; cbn [truthy].
  - destruct (H d eq_refl) as [Hne Hd].
    destruct d as [|x d]; [congruence|]. split; [reflexivity|].
    revert Hd. apply all_chars_impl, digit_is_safe.
  - split; [reflexivity|].
    change (all_chars is_safe (pad3 index) = true).
    generalize (pad3_digits index). apply all_chars_impl, digit_is_safe.
Qed.

End NameFacts.

Section NamingClaim.
Import Download.

(** X25.  The name of a downloaded file names the artifacts of the
    pipeline.  For an entry made by [parse_rss] from an ASCII title, the
    path [download_episode] returns is the file of the episodes directory
    with the stem [ep<number>-<cleaned title>], where the number is the
    episode number of the entry or [ep] and the index on three digits, and
    with the suffix [.mp3]; the pipeline takes that very file as the audio
    of the entry, so its FLAC file, its blob, its transcript and its tags
    carry that stem, and the audio file is not the FLAC file that the
    pipeline removes. *)
Theorem downloaded_name_is_the_stem_of_the_artifacts :
  forall (it : Item) (e : Entry) (index : nat) (f : Fs.t),
    parse_item it = Some e ->
    ascii_only (en_title e) = true ->
    let number := match en_episode_number e with
                  | Some n => n
                  | None => ("ep" ++ pad3 index)%string
                  end in
    let stem := ("ep" ++ number ++ "-" ++ clean_filename (en_title e))%string in
    let name := ("episodes/" ++ file_name e index)%string in
    let mp3_path := Path.child "episodes" stem ".mp3" in
    Path.of_string name = mp3_path
    /\ resolve_local_file (mkEpisode (TitleText (en_title e)) (Some name)) f
       = inr (Some mp3_path)
    /\ Path.with_suffix ".flac" mp3_path <> mp3_path
    /\ blob_name_of (Path.with_suffix ".flac" mp3_path)
       = ("audio/" ++ stem ++ ".flac")%string
    /\ transcript_path (Path.stem mp3_path) = Path.child "transcripts" stem ".txt"
    /\ tags_path (Path.stem mp3_path) = Path.child "tags" stem ".json".
Proof.
  intros it e index f Hparse _ number stem name mp3_path.
  assert (Hnum : forall d, en_episode_number e = Some d ->
                           d <> EmptyString /\ all_chars Json.is_digit d = true).
  { intros d Hd. unfold parse_item in Hparse.
    destruct (text_or_empty (item_title it)) as [title|]; [|discriminate].
    injection Hparse as <-. cbn in Hd.
    destruct (FeedFacts.episode_number_found title d Hd) as (H1 & H2 & _). auto. }
  destruct (NameFacts.number_is_safe e index Hnum) as [Hn Hsafe].
  fold number in Hn, Hsafe.
  assert (Hname : file_name e index = (stem ++ String "."%char "mp3")%string).
  { unfold file_name. rewrite Hn. unfold stem.
    now rewrite !StrFacts.app_assoc. }
  assert (Hpath : Path.of_string name = mp3_path).
  { unfold Path.of_string, name.
    change ("episodes/" ++ file_name e index)%string
      with ("episodes" ++ String "/"%char (file_name e index))%string.
    rewrite NameFacts.rsplit_last.
    - unfold Path.split_name. rewrite Hname, NameFacts.rsplit_last by reflexivity.
      unfold stem. reflexivity.
    - rewrite Hname, DownloadFacts.all_chars_app.
      apply andb_true_iff. split; [|reflexivity].
      now apply NameFacts.stem_is_plain. }
  split; [exact Hpath|]. split.
  - unfold resolve_local_file. cbn [ep_local_file]. unfold name at 1.
    cbn [append]. f_equal. f_equal. exact Hpath.
  - repeat split. intros H. discriminate H.
Qed.

End NamingClaim.

Lemma downloaded_name_is_the_stem_of_the_artifacts_witness :
  let it := Download.mkItem (Download.Element (Some "MLOps #12: Serving"))
              (Some (Some "https://example.org/12.mp3")) Download.NotFound
              Download.NotFound Download.NotFound in
  match Download.parse_item it with
  | Some e =>
      Path.of_string ("episodes/" ++ Download.file_name e 0)
      = Path.child "episodes" "ep12-mlops-12-serving" ".mp3"
      /\ transcript_path "ep12-mlops-12-serving"
         = Path.child "transcripts" "ep12-mlops-12-serving" ".txt"
  | None => False
  end.
Proof.
  intros it.
  destruct (Download.parse_item it) as [e|] eqn:E; [|discriminate E].
  destruct (downloaded_name_is_the_stem_of_the_artifacts it e 0 [] E) as (H & _).
  { vm_compute in E. injection E as <-. reflexivity. }
  vm_compute in E. injection E as <-. split; [exact H | reflexivity].
Defined.

Section ScriptClaims.
Import Download.

Variable items_of : string -> option (list Item).
Variable urlretrieve : nat -> string -> Fetch.

(** What the loop over the entries leaves. *)
Lemma download_loop_effect (eps : list Entry) :
  forall (index : nat) (d : Disk),
    let out := fst (download_loop urlretrieve index eps d) in
    let d' := snd (download_loop urlretrieve index eps d) in
    map en_title out = map en_title eps
    /\ metadata d' = metadata d
    /\ (forall q, Fs.exist q (files d) = true -> Fs.exist q (files d') = true)
    /\ (forall e path, In e out -> en_local_file e = Some path ->
          Fs.exist (Path.of_string path) (files d') = true
          \/ exists ep, In ep eps /\ en_local_file ep = Some path).
Proof.
  induction eps as [|ep rest IH]; intros index d; cbn [download_loop].
  - cbn. repeat split; auto; intros e path [].
  - pose proof (download_episode_effect urlretrieve ep index d) as H.
    pose proof (download_episode_returns urlretrieve ep index d) as Hret.
    cbv zeta in H.
    destruct (download_episode urlretrieve ep index d) as [filepath d1] eqn:E1.
    cbn [fst snd] in H, Hret. destruct H as (Hm & _ & Hex & _).
    specialize (IH (S index) d1). cbv zeta in IH.
    destruct (download_loop urlretrieve (S index) rest d1) as [rest' d2] eqn:E2.
    cbn [fst snd] in IH |- *. destruct IH as (It & Im & Ie & Il).
    split; [|split; [congruence|split; [auto|]]].
    + cbn [map]. rewrite It. destruct filepath; reflexivity.
    + intros e path [<-|Hin] Hp.
      * destruct filepath as [p|].
        -- cbn in Hp. injection Hp as <-.
           destruct (Hret p eq_refl) as [-> Hf]. left. now apply Ie.
        -- right. exists ep. split; [now left | exact Hp].
      * destruct (Il e path Hin Hp) as [Hf|(x & Hx & Hxp)]; [now left|].
        right. exists x. split; [now right | exact Hxp].
Qed.

Lemma parsed_without_file (xml_content : string) (episodes : list Entry) :
  parse_rss items_of xml_content = inr episodes ->
  forall e, In e episodes -> en_local_file e = None.
Proof.
  unfold parse_rss. destruct (items_of xml_content) as [items|]; [|discriminate].
  destruct (parse_items items) as [l|] eqn:E; [|discriminate].
  intros H; injection H as <-. apply parse_items_all in E.
  induction E as [|it e items l H _ IH]; [intros e []|].
  intros x [<-|Hx]; [|now apply IH].
  unfold parse_item in H. destruct (text_or_empty (item_title it)); [|discriminate].
  now injection H as <-.
Qed.

(** X26.  [main] of [download_episodes.py] replaces the metadata by the
    first twenty episodes of the feed, in the order of the feed: the
    metadata it writes has as many entries as the feed has, up to twenty,
    with their titles; every [local_file] it records is the path of a file
    that is there when it ends; and no file that was there is removed. *)
Theorem first_script_lists_the_first_twenty :
  forall (xml_content : string) (d d' : Disk),
    main items_of urlretrieve xml_content d = inr d' ->
    exists episodes latest,
      parse_rss items_of xml_content = inr episodes
      /\ metadata d' = Some latest
      /\ List.length latest = Nat.min 20 (List.length episodes)
      /\ map en_title latest = firstn 20 (map en_title episodes)
      /\ (forall e path, In e latest -> en_local_file e = Some path ->
            Fs.exist (Path.of_string path) (files d') = true)
      /\ (forall q, Fs.exist q (files d) = true -> Fs.exist q (files d') = true).
Proof.
  intros xml_content d d'. unfold main.
  destruct (parse_rss items_of xml_content) as [e|episodes] eqn:Ep; [discriminate|].
  pose proof (download_loop_effect (firstn 20 episodes) 0 d) as H. cbv zeta in H.
  destruct (download_loop urlretrieve 0 (firstn 20 episodes) d) as [latest d1].
  cbn [fst snd] in H. destruct H as (Ht & _ & He & Hl).
  intros E; injection E as <-. exists episodes, latest. cbn [metadata files].
  split; [reflexivity|]. split; [reflexivity|]. split; [|split; [|split; [|exact He]]].
  - rewrite <- (length_map en_title), Ht, length_map. apply length_firstn.
  - rewrite Ht. symmetry. apply firstn_map.
  - intros e path Hin Hp. destruct (Hl e path Hin Hp) as [Hf|(x & Hx & Hxp)]; [exact Hf|].
    apply In_firstn in Hx.
    rewrite (parsed_without_file xml_content episodes Ep x Hx) in Hxp. discriminate.
Qed.

(** X27.  [main] of [download_next_batch.py] appends to the metadata: the
    entries that were there stay, in their order, and the episodes 21 to 60
    of the feed follow them.  It keeps no record of what it appended, so a
    second run on the same feed appends the same episodes once more. *)
Theorem next_batch_appends_and_repeats :
  forall (xml_content : string) (d d1 : Disk),
    main_next_batch items_of urlretrieve xml_content d = inr d1 ->
    let existing := match metadata d with Some l => l | None => [] end in
    exists all_episodes batch,
      parse_rss items_of xml_content = inr all_episodes
      /\ metadata d1 = Some (existing ++ batch)
      /\ map en_title batch = firstn 40 (skipn 20 (map en_title all_episodes))
      /\ (forall q, Fs.exist q (files d) = true -> Fs.exist q (files d1) = true)
      /\ forall d2,
           main_next_batch items_of urlretrieve xml_content d1 = inr d2 ->
           exists again,
             metadata d2 = Some (existing ++ batch ++ again)
             /\ map en_title again = map en_title batch.
Proof.
  intros xml_content d d1. unfold main_next_batch.
  destruct (parse_rss items_of xml_content) as [e|all_episodes] eqn:Ep; [discriminate|].
  set (batch0 := firstn 40 (skipn 20 all_episodes)).
  pose proof (download_loop_effect batch0 20 d) as H. cbv zeta in H.
  destruct (download_loop urlretrieve 20 batch0 d) as [batch d'].
  cbn [fst snd] in H. destruct H as (Ht & Hm & He & _).
  intros E; injection E as <-. cbv zeta. exists all_episodes, batch.
  cbn [metadata files].
  split; [reflexivity|]. split; [reflexivity|]. split; [|split; [exact He|]].
  - rewrite Ht. unfold batch0. now rewrite <- firstn_map, <- skipn_map.
  - intros d2.
    pose proof (download_loop_effect batch0 20
                  (mkDisk (files d')
                     (Some (match metadata d with Some l => l | None => [] end ++ batch))
                     (requests d'))) as H2.
    cbv zeta in H2.
    destruct (download_loop urlretrieve 20 batch0 _) as [again d3].
    cbn [fst snd] in H2. destruct H2 as (Ht2 & _).
    intros E; injection E as <-. exists again. cbn [metadata].
    split; [now rewrite <- app_assoc | congruence].
Qed.

End ScriptClaims.

Lemma first_script_lists_the_first_twenty_witness :
  let it := Download.mkItem (Download.Element (Some "MLOps #12: Serving"))
              (Some (Some "https://example.org/12.mp3")) Download.NotFound
              Download.NotFound Download.NotFound in
  let items_of := fun _ : string => Some [it; it] in
  let fetch := fun (_ : nat) (_ : string) => Download.Fetched in
  match Download.main items_of fetch "<rss/>" (Download.mkDisk [] None []) with
  | inr d' =>
      exists latest,
        Download.metadata d' = Some latest
        /\ List.length latest = 2
        /\ forall e path, In e latest -> Download.en_local_file e = Some path ->
             Fs.exist (Path.of_string path) (Download.files d') = true
  | inl _ => False
  end.
Proof.
  intros it items_of fetch.
  destruct (Download.main items_of fetch "<rss/>" (Download.mkDisk [] None []))
    as [e|d'] eqn:E; [discriminate E|].
  destruct (first_script_lists_the_first_twenty items_of fetch "<rss/>" _ d' E)
    as (episodes & latest & Hp & Hm & Hl & _ & Hf & _).
  exists latest. split; [exact Hm|]. split; [|exact Hf].
  vm_compute in Hp. injection Hp as <-. exact Hl.
Defined.

Lemma next_batch_appends_and_repeats_witness :
  let it := Download.mkItem (Download.Element (Some "MLOps #12: Serving"))
              (Some (Some "https://example.org/12.mp3")) Download.NotFound
              Download.NotFound Download.NotFound in
  let items_of := fun _ : string => Some (repeat it 21) in
  let fetch := fun (_ : nat) (_ : string) => Download.Fetched in
  match Download.main_next_batch items_of fetch "<rss/>"
          (Download.mkDisk [] None []) with
  | inr d1 =>
      match Download.main_next_batch items_of fetch "<rss/>" d1 with
      | inr d2 =>
          exists batch again,
            Download.metadata d1 = Some batch
            /\ Download.metadata d2 = Some (batch ++ again)
            /\ map Download.en_title again = map Download.en_title batch
            /\ map Download.en_title batch = ["MLOps #12: Serving"]
      | inl _ => False
      end
  | inl _ => False
  end.
Proof.
  intros it items_of fetch.
  destruct (Download.main_next_batch items_of fetch "<rss/>"
              (Download.mkDisk [] None [])) as [e|d1] eqn:E1; [discriminate E1|].
  destruct (next_batch_appends_and_repeats items_of fetch "<rss/>" _ d1 E1)
    as (all_episodes & batch & Hp & Hm & Ht & _ & H2).
  destruct (Download.main_next_batch items_of fetch "<rss/>" d1) as [e|d2] eqn:E2.
  - vm_compute in E1. injection E1 as <-. vm_compute in E2. discriminate E2.
  - destruct (H2 d2 eq_refl) as (again & Hm2 & Ht2).
    exists batch, again. split; [exact Hm|]. split; [exact Hm2|].
    split; [exact Ht2|].
    vm_compute in Hp. injection Hp as <-. exact Ht.
Defined.
